(** * A commit log: store, index, segment and log

    Shallow embedding of [internal/log/segment.go] and [internal/log/log.go]
    of distributed-services-with-go.  Files on disk are byte lists kept in a
    directory shared by every handle that opened them, segments live in a
    heap addressed by pointers (the Go code passes [*segment] around), and
    every fallible call returns a [result]. *)

From Stdlib Require Import ZArith Lia List Bool.
From Stdlib.Strings Require Import Byte.
From stdpp Require Import base option list gmap sorting.

Local Open Scope Z_scope.

(** ** Machine integers *)

Definition wrap64 (z : Z) : Z := z mod 2 ^ 64.
Definition wrap32 (z : Z) : Z := z mod 2 ^ 32.

(** [int64(x)] of a [uint64] value. *)
Definition to_int64 (z : Z) : Z :=
  if wrap64 z <? 2 ^ 63 then wrap64 z else wrap64 z - 2 ^ 64.

Definition is_uint64 (z : Z) : Prop := 0 <= z < 2 ^ 64.

(** ** Bytes and big-endian numbers *)

Definition byte_of_Z (z : Z) : byte :=
  match Byte.of_N (Z.to_N (z mod 256)) with
  | Some b => b
  | None => x00
  end.

Definition Z_of_byte (b : byte) : Z := Z.of_N (Byte.to_N b).

(** [be_bytes n z]: the [n] low bytes of [z], most significant first
    ([binary.BigEndian.PutUint32] / [PutUint64]). *)
Fixpoint be_bytes (n : nat) (z : Z) : list byte :=
  match n with
  | O => []
  | S n' => be_bytes n' (z / 256) ++ [byte_of_Z z]
  end.

(** [binary.BigEndian.Uint32] / [Uint64]. *)
Definition be_value (l : list byte) : Z :=
  fold_left (fun acc b => acc * 256 + Z_of_byte b) l 0.

(** ** Results *)

Inductive error : Type :=
  | ErrOffsetOutOfRange (off : Z)   (* api.ErrOffsetOutOfRange{Offset: off} *)
  | ErrIndexRange                   (* index.Read: no such entry *)
  | ErrIndexFull                    (* index.Write: capacity exceeded *)
  | ErrIO                           (* store.Read outside the file *)
  | ErrUnmarshal                    (* proto.Unmarshal rejected the bytes *)
  | ErrNoFile.                      (* a handle whose file is gone *)

Inductive result (A : Type) : Type :=
  | Ok (a : A)
  | Err (e : error).
Arguments Ok {A} a.
Arguments Err {A} e.

Definition is_ok {A} (r : result A) : bool :=
  match r with Ok _ => true | Err _ => false end.

(** ** Files *)

Abbreviation file := (list byte) (only parsing).

Definition fsize (f : file) : Z := Z.of_nat (length f).

(** [ReadAt]-style read of exactly [len] bytes at [pos]. *)
Definition read_at (f : file) (pos len : Z) : option (list byte) :=
  if (0 <=? pos) && (0 <=? len) && (pos + len <=? fsize f)
  then Some (take (Z.to_nat len) (drop (Z.to_nat pos) f))
  else None.

(** Overwrite the bytes at [pos .. pos + length data) of a mapped file. *)
Definition write_at (f : file) (pos : Z) (data : list byte) : file :=
  take (Z.to_nat pos) f ++ data ++ drop (Z.to_nat pos + length data) f.

(** [os.Truncate(name, n)]: cut the file or extend it with zero bytes. *)
Definition truncate (f : file) (n : Z) : file :=
  take (Z.to_nat n) f ++ replicate (Z.to_nat n - length f)%nat x00.

(** The log directory: [<base>.store] and [<base>.index], keyed by the
    decimal stem. *)
Record dir : Type := mkDir {
  stores : gmap Z file;
  indexes : gmap Z file
}.

Definition empty_dir : dir := mkDir ∅ ∅.

(** ** Configuration *)

(** Modelled from the spec: [Config] (config.go is not part of the sources
    read here); the three [uint64] fields of [Config.Segment]. *)
Record Config : Type := mkConfig {
  MaxStoreBytes : Z;
  MaxIndexBytes : Z;
  InitialOffset : Z
}.

Definition Config_ok (c : Config) : Prop :=
  is_uint64 (MaxStoreBytes c) /\ is_uint64 (MaxIndexBytes c) /\
  is_uint64 (InitialOffset c).

(** ** Store *)

Definition lenWidth : Z := 8.

(** Modelled from the spec: the [store] handle (store.go is not part of the
    sources read here).  [st_name] is the stem of the file it was opened on,
    [st_size] the running byte counter. The byte counters of store and index
    are sizes of files (an [int64] in Go), kept here as plain [Z]. *)
Record store : Type := mkStore {
  st_name : Z;
  st_size : Z
}.

(** Modelled from the spec: [newStore] takes the current file size as the
    running counter. *)
Definition newStore (name : Z) (f : file) : store :=
  mkStore name (fsize f).

(** Modelled from the spec: [store.Append] writes the 8-byte big-endian
    length and the data at the end of the file (the file is opened with
    [O_APPEND]) and returns the bytes written and the counter before the
    write as position.  The write buffer is flushed before every read and on
    close, so the model writes through. *)
Definition store_Append (s : store) (d : dir) (p : list byte)
  : result (store * dir * Z * Z) :=
  match stores d !! st_name s with
  | None => Err ErrNoFile
  | Some f =>
      let w := be_bytes 8 (Z.of_nat (length p)) ++ p in
      let n := Z.of_nat (length w) in
      Ok (mkStore (st_name s) (st_size s + n),
          mkDir (<[st_name s := f ++ w]> (stores d)) (indexes d),
          n, st_size s)
  end.

(** Modelled from the spec: [store.Read] reads the length prefix at [pos]
    and then exactly that many bytes. *)
Definition store_Read (s : store) (d : dir) (pos : Z) : result (list byte) :=
  match stores d !! st_name s with
  | None => Err ErrNoFile
  | Some f =>
      match read_at f pos lenWidth with
      | None => Err ErrIO
      | Some lb =>
          match read_at f (pos + lenWidth) (be_value lb) with
          | None => Err ErrIO
          | Some b => Ok b
          end
      end
  end.

(** ** Index *)

Definition offWidth : Z := 4.
Definition posWidth : Z := 8.
Definition entWidth : Z := offWidth + posWidth.

(** Modelled from the spec: the [index] handle (index.go is not part of the
    sources read here): the stem of its file, the logical size and the
    length of the mapping. *)
Record index : Type := mkIndex {
  ix_name : Z;
  ix_size : Z;
  ix_mmap : Z
}.

(** Modelled from the spec: [newIndex] takes the file's size as the logical
    size, then pre-sizes the file to [MaxIndexBytes] and maps it. *)
Definition newIndex (name : Z) (f : file) (c : Config) : index * file :=
  (mkIndex name (fsize f) (MaxIndexBytes c), truncate f (MaxIndexBytes c)).

(** Modelled from the spec: [index.Write] fails when one more entry would
    exceed the mapping, else writes the entry at the logical size. *)
Definition index_Write (i : index) (d : dir) (off pos : Z)
  : result (index * dir) :=
  if ix_mmap i <? ix_size i + entWidth then Err ErrIndexFull
  else
    match indexes d !! ix_name i with
    | None => Err ErrNoFile
    | Some f =>
        let e := be_bytes 4 off ++ be_bytes 8 pos in
        Ok (mkIndex (ix_name i) (ix_size i + entWidth) (ix_mmap i),
            mkDir (stores d) (<[ix_name i := write_at f (ix_size i) e]> (indexes d)))
    end.

(** Modelled from the spec: [index.Read]; [-1] asks for the last entry; an
    empty index, a negative entry number and one beyond the logical size are
    refused. *)
Definition index_Read (i : index) (d : dir) (rel : Z) : result (Z * Z) :=
  if ix_size i =? 0 then Err ErrIndexRange
  else
    let out := if rel =? -1 then ix_size i / entWidth - 1 else rel in
    if (out <? 0) || (ix_size i <? out * entWidth + entWidth)
    then Err ErrIndexRange
    else
      match indexes d !! ix_name i with
      | None => Err ErrNoFile
      | Some f =>
          match read_at f (out * entWidth) offWidth,
                read_at f (out * entWidth + offWidth) posWidth with
          | Some ob, Some pb => Ok (be_value ob, be_value pb)
          | _, _ => Err ErrIO
          end
      end.

(** Modelled from the spec: [index.Close] trims the file back to the
    logical size. *)
Definition index_Close (i : index) (d : dir) : dir :=
  match indexes d !! ix_name i with
  | None => d
  | Some f => mkDir (stores d) (<[ix_name i := truncate f (ix_size i)]> (indexes d))
  end.

(** ** Records and their wire format *)

(** [api.Record]: the payload and the offset stamped by the segment. *)
Record Record : Type := mkRecord {
  Value : list byte;
  Offset : Z
}.

(** [proto.Marshal] / [proto.Unmarshal] of the protobuf library, taken
    through their contract: a marshalled record unmarshals to itself, and
    marshalling adds a bounded overhead to the payload. *)
Class RecordCodec : Type := {
  marshal : Record -> list byte;
  unmarshal : list byte -> option Record;
  unmarshal_marshal :
    forall r : Record, is_uint64 (Offset r) -> unmarshal (marshal r) = Some r;
  marshal_size :
    forall r : Record, is_uint64 (Offset r) ->
      fsize (marshal r) <= 2 * fsize (Value r) + 128
}.

(** A payload that fits a Go byte slice, with room for the wire overhead. *)
Definition payload_ok (r : Record) : Prop := fsize (Value r) < 2 ^ 62.

(** ** Segment *)

Record segment : Type := mkSegment {
  seg_store : store;
  seg_index : index;
  baseOffset : Z;
  nextOffset : Z;
  config : Config
}.

(** [newSegment]: open or create the two files named after [baseOffset] and
    recover [nextOffset] from the last index entry.  A failing
    [os.OpenFile] is a fault of the file system and not modelled, so the
    result is always [Ok]. *)
Definition newSegment (d : dir) (baseOffset : Z) (c : Config)
  : result (segment * dir) :=
  let sf := default [] (stores d !! baseOffset) in
  let st := newStore baseOffset sf in
  let d1 := mkDir (<[baseOffset := sf]> (stores d)) (indexes d) in
  let xf := default [] (indexes d1 !! baseOffset) in
  let '(ix, xf') := newIndex baseOffset xf c in
  let d2 := mkDir (stores d1) (<[baseOffset := xf']> (indexes d1)) in
  let next :=
    match index_Read ix d2 (-1) with
    | Err _ => baseOffset
    | Ok (off, _) => wrap64 (baseOffset + off + 1)
    end in
  Ok (mkSegment st ix baseOffset next c, d2).

(** The two sizes are byte counts of files, far below 2^64: the sum does
    not wrap. *)
Definition IsMaxed (s : segment) : bool :=
  (MaxStoreBytes (config s) <=? st_size (seg_store s))
  || (MaxIndexBytes (config s) <? ix_size (seg_index s) + entWidth).

(** [segment.Close]: the index is closed, then the store, whose buffer the
    model has already written through.  Flushing, trimming and closing an
    open handle fail only by a fault of the file system, which is not
    modelled (as for [os.OpenFile] in [newSegment]): the call returns no
    error, also for a handle whose file has been removed meanwhile. *)
Definition segment_Close (s : segment) (d : dir) : dir :=
  index_Close (seg_index s) d.

(** [os.Remove] on a file of the directory: an error when there is no file
    of that name. *)
Definition os_Remove (m : gmap Z file) (name : Z) : result (gmap Z file) :=
  match m !! name with
  | None => Err ErrNoFile
  | Some _ => Ok (delete name m)
  end.

(** [segment.Remove]: close, then remove the index file, then the store
    file, returning at the first error; the directory is returned as the
    call leaves it. *)
Definition segment_Remove (s : segment) (d : dir) : dir * result unit :=
  let d1 := segment_Close s d in
  match os_Remove (indexes d1) (ix_name (seg_index s)) with
  | Err e => (d1, Err e)
  | Ok xs =>
      let d2 := mkDir (stores d1) xs in
      match os_Remove (stores d2) (st_name (seg_store s)) with
      | Err e => (d2, Err e)
      | Ok ss => (mkDir ss (indexes d2), Ok tt)
      end
  end.

Section WithCodec.
Context `{codec : RecordCodec}.

(** [segment.Append] stamps the record with the next offset, stores its
    marshalled bytes and indexes them; the store and the segment keep what
    was written before a failing index write. *)
Definition segment_Append (s : segment) (d : dir) (record : Record)
  : segment * dir * result Z :=
  let cur := nextOffset s in
  let p := marshal (mkRecord (Value record) cur) in
  match store_Append (seg_store s) d p with
  | Err e => (s, d, Err e)
  | Ok (st, d1, _, pos) =>
      let s1 := mkSegment st (seg_index s) (baseOffset s) (nextOffset s) (config s) in
      match index_Write (seg_index s) d1
              (wrap32 (wrap64 (nextOffset s - baseOffset s))) pos with
      | Err e => (s1, d1, Err e)
      | Ok (ix, d2) =>
          (mkSegment st ix (baseOffset s) (wrap64 (nextOffset s + 1)) (config s),
           d2, Ok cur)
      end
  end.

Definition segment_Read (s : segment) (d : dir) (off : Z) : result Record :=
  match index_Read (seg_index s) d (to_int64 (wrap64 (off - baseOffset s))) with
  | Err e => Err e
  | Ok (_, pos) =>
      match store_Read (seg_store s) d pos with
      | Err e => Err e
      | Ok p =>
          match unmarshal p with
          | Some r => Ok r
          | None => Err ErrUnmarshal
          end
      end
  end.

End WithCodec.

(** ** Log *)

(** The Go [Log] holds [*segment] pointers; [heap] is the memory they point
    into, [segments] and [activeSegment] are addresses in it.  The mutex
    [mu] is the subject of module [Mutex] below; the operations here are
    the bodies run between its lock and unlock calls. *)
Record Log : Type := mkLog {
  Dir : dir;
  LConfig : Config;
  heap : list segment;
  activeSegment : option nat;
  segments : list nat
}.

Definition Log_newSegment (l : Log) (off : Z) : result Log :=
  match newSegment (Dir l) off (LConfig l) with
  | Err e => Err e
  | Ok (s, d) =>
      let p := length (heap l) in
      Ok (mkLog d (LConfig l) (heap l ++ [s]) (Some p) (segments l ++ [p]))
  end.

(** The segments [l.segments] points to, in slice order. *)
Definition live (l : Log) : list segment :=
  omap (fun p => heap l !! p) (segments l).

Definition covers (off : Z) (s : segment) : bool :=
  (baseOffset s <=? off) && (off <? nextOffset s).

Section LogWithCodec.
Context `{codec : RecordCodec}.

(** The tail of [Log.Append]: [l.activeSegment.Append(record)].  [None]
    is a Go panic (nil pointer). *)
Definition Log_appendActive (l : Log) (record : Record)
  : option (Log * result Z) :=
  p ← activeSegment l;
  s ← heap l !! p;
  let '(s', d, res) := segment_Append s (Dir l) record in
  Some (mkLog d (LConfig l) (<[p := s']> (heap l)) (activeSegment l) (segments l),
        res).

Definition Log_Append (l : Log) (record : Record) : option (Log * result Z) :=
  p ← activeSegment l;
  a ← heap l !! p;
  if IsMaxed a then
    match Log_newSegment l (nextOffset a) with
    | Err e => Some (l, Err e)
    | Ok l1 => Log_appendActive l1 record
    end
  else Log_appendActive l record.

(** The statements of [Log.Read] between [l.mu.Lock()] and the deferred
    [l.mu.RUnlock()]: the scan for the segment and the read in it.  The
    method itself is [Log_Read] below. *)
Definition Log_Read_body (l : Log) (off : Z) : result Record :=
  match find (covers off) (live l) with
  | None => Err (ErrOffsetOutOfRange off)
  | Some s =>
      if nextOffset s <=? off then Err (ErrOffsetOutOfRange off)
      else segment_Read s (Dir l) off
  end.

End LogWithCodec.

(** The statements of [Log.LowestOffset] and [Log.HighestOffset] between
    the two calls on the mutex; the methods themselves are
    [Log_LowestOffset] and [Log_HighestOffset] below.  [None] is the panic
    of indexing an empty slice. *)
Definition Log_LowestOffset_body (l : Log) : option (result Z) :=
  s ← head (live l);
  Some (Ok (baseOffset s)).

Definition Log_HighestOffset_body (l : Log) : option (result Z) :=
  s ← last (live l);
  let off := nextOffset s in
  if off =? 0 then Some (Ok 0) else Some (Ok (wrap64 (off - 1))).

(** The loop of [Log.Truncate]: the pointers kept so far, the directory as
    the removals leave it, and the error of the first [s.Remove()] that
    fails, at which the loop ends. *)
Fixpoint truncate_loop (h : list segment) (lowest : Z) (ps : list nat) (d : dir)
  : list nat * dir * result unit :=
  match ps with
  | [] => ([], d, Ok tt)
  | p :: ps' =>
      match h !! p with
      | None => truncate_loop h lowest ps' d
      | Some s =>
          if nextOffset s <=? wrap64 (lowest + 1)
          then match segment_Remove s d with
               | (d1, Err e) => ([], d1, Err e)
               | (d1, Ok _) => truncate_loop h lowest ps' d1
               end
          else let '(keep, d', r) := truncate_loop h lowest ps' d in
               (p :: keep, d', r)
      end
  end.

(** [Log.Truncate]: [l.segments] is assigned only when no removal failed;
    the files removed before a failure stay removed. *)
Definition Log_Truncate (l : Log) (lowest : Z) : Log * result unit :=
  match truncate_loop (heap l) lowest (segments l) (Dir l) with
  | (keep, d, Ok _) =>
      (mkLog d (LConfig l) (heap l) (activeSegment l) keep, Ok tt)
  | (_, d, Err e) =>
      (mkLog d (LConfig l) (heap l) (activeSegment l) (segments l), Err e)
  end.

Definition Log_Close (l : Log) : Log :=
  mkLog (fold_left (fun d s => segment_Close s d) (live l) (Dir l))
        (LConfig l) (heap l) (activeSegment l) (segments l).

(** The stems of the directory listing, one per file. *)
Definition file_stems (d : dir) : list Z :=
  (map_to_list (stores d)).*1 ++ (map_to_list (indexes d)).*1.

(** [for i := 0; i < len(baseOffsets); i++ { ...; i++ }] visits every other
    element. *)
Fixpoint every_other (l : list Z) : list Z :=
  match l with
  | [] => []
  | [x] => [x]
  | x :: _ :: r => x :: every_other r
  end.

Fixpoint open_segments (l : Log) (bases : list Z) : result Log :=
  match bases with
  | [] => Ok l
  | b :: bs =>
      match Log_newSegment l b with
      | Err e => Err e
      | Ok l1 => open_segments l1 bs
      end
  end.

Definition setup (l : Log) : result Log :=
  let baseOffsets := merge_sort Z.le (file_stems (Dir l)) in
  match open_segments l (every_other baseOffsets) with
  | Err e => Err e
  | Ok l1 =>
      match segments l1 with
      | [] => Log_newSegment l1 (InitialOffset (LConfig l1))
      | _ => Ok l1
      end
  end.

(** The defaulting at the head of [NewLog]. *)
Definition default_config (c : Config) : Config :=
  let c1 := if MaxStoreBytes c =? 0
            then mkConfig (MaxStoreBytes c) 1024 (InitialOffset c) else c in
  if MaxIndexBytes c1 =? 0
  then mkConfig (MaxStoreBytes c1) 1024 (InitialOffset c1) else c1.

Definition NewLog (d : dir) (c : Config) : result Log :=
  setup (mkLog d (default_config c) [] None []).

(** ** The proto3 wire format of [Record]

    [message Record { bytes value = 1; uint64 offset = 2; }]: a field is
    written as tag, then a varint (the length of the bytes, or the number),
    and a field holding the zero value is left out. *)
Module Wire.

Fixpoint encode_varint (fuel : nat) (z : Z) : list byte :=
  match fuel with
  | O => [byte_of_Z z]
  | S f =>
      if z <? 128 then [byte_of_Z z]
      else byte_of_Z (z mod 128 + 128) :: encode_varint f (z / 128)
  end.

Definition varint (z : Z) : list byte := encode_varint (Z.to_nat (Z.log2 z)) z.

Fixpoint decode_varint (l : list byte) : option (Z * list byte) :=
  match l with
  | [] => None
  | b :: r =>
      let v := Z_of_byte b in
      if v <? 128 then Some (v, r)
      else match decode_varint r with
           | Some (hi, r') => Some (v - 128 + 128 * hi, r')
           | None => None
           end
  end.

Definition tag_value : byte := x0a.
Definition tag_offset : byte := x10.

Definition encode (r : Record) : list byte :=
  (match Value r with
   | [] => []
   | _ => tag_value :: varint (fsize (Value r)) ++ Value r
   end)
  ++ (if Offset r =? 0 then [] else tag_offset :: varint (Offset r)).

Fixpoint parse_fields (fuel : nat) (l : list byte) (acc : Record) : option Record :=
  match l with
  | [] => Some acc
  | t :: r =>
      match fuel with
      | O => None
      | S f =>
          match decode_varint r with
          | None => None
          | Some (v, r1) =>
              if Z_of_byte t =? 10 then
                if v <=? fsize r1
                then parse_fields f (drop (Z.to_nat v) r1)
                       (mkRecord (take (Z.to_nat v) r1) (Offset acc))
                else None
              else if Z_of_byte t =? 16 then
                parse_fields f r1 (mkRecord (Value acc) v)
              else None
          end
      end
  end.

Definition decode (l : list byte) : option Record :=
  parse_fields (length l) l (mkRecord [] 0).

End Wire.

(** ** The mutex calls of the [Log] methods *)
Module Mutex.

Inductive lock_op : Type := Lock | Unlock | RLock | RUnlock.

(** A [sync.RWMutex] seen by one goroutine at a time: held by a writer, or
    by [readers] readers. *)
Record RWMutex : Type := mkMu {
  writer : bool;
  readers : nat
}.

Definition unlocked : RWMutex := mkMu false 0.

(** [Fatal]: the run-time error of unlocking a mutex that is not locked in
    that mode; [Blocked]: the caller waits. *)
Inductive mu_state : Type :=
  | Held (m : RWMutex)
  | Blocked
  | Fatal.

Definition step (m : RWMutex) (o : lock_op) : mu_state :=
  match o with
  | Lock =>
      if writer m then Blocked
      else match readers m with O => Held (mkMu true 0) | S _ => Blocked end
  | Unlock =>
      if writer m then Held (mkMu false (readers m)) else Fatal
  | RLock =>
      if writer m then Blocked else Held (mkMu false (S (readers m)))
  | RUnlock =>
      match readers m with
      | O => Fatal
      | S n => Held (mkMu (writer m) n)
      end
  end.

Fixpoint run (m : RWMutex) (ops : list lock_op) : mu_state :=
  match ops with
  | [] => Held m
  | o :: ops' =>
      match step m o with
      | Held m' => run m' ops'
      | st => st
      end
  end.

Inductive method : Type :=
  | MAppend | MRead | MClose | MRemove | MReset
  | MLowestOffset | MHighestOffset | MTruncate | MReader.

(** The calls on [l.mu] each method makes, in order; a deferred call runs
    at return.  [Remove] and [Reset] lock through [Close] only. *)
Definition lock_calls (m : method) : list lock_op :=
  match m with
  | MAppend => [Lock; Unlock]
  | MRead => [Lock; RUnlock]
  | MClose => [Lock; Unlock]
  | MRemove => [Lock; Unlock]
  | MReset => [Lock; Unlock]
  | MLowestOffset => [Lock; RUnlock]
  | MHighestOffset => [Lock; RUnlock]
  | MTruncate => [Lock; Unlock]
  | MReader => [Lock; RUnlock]
  end.

(** An acquire and the release of the same mode. *)
Definition same_mode (ops : list lock_op) : bool :=
  match ops with
  | [Lock; Unlock] => true
  | [RLock; RUnlock] => true
  | _ => false
  end.

End Mutex.

(** ** The read paths as methods

    [Log.Read], [Log.LowestOffset] and [Log.HighestOffset] call
    [l.mu.Lock()] and defer [l.mu.RUnlock()].  The mutex [l.mu] is passed
    beside the [Log] record. *)

(** How a call ends: it returns a value and leaves the mutex in a state,
    it waits in its lock call, or the deferred unlock raises the fatal error
    of the run time, after the statements of the method have produced the
    value [a] it was about to return. *)
Inductive call (A : Type) : Type :=
  | Returned (a : A) (mu : Mutex.RWMutex)
  | Waits
  | Aborts (a : A).
Arguments Returned {A} a mu.
Arguments Waits {A}.
Arguments Aborts {A} a.

(** [l.mu.Lock(); defer l.mu.<leave>(); body]: the lock call waits
    while the mutex is taken; the deferred call runs when the body is done. *)
Definition guarded {A} (leave : Mutex.lock_op) (mu : Mutex.RWMutex) (body : A)
  : call A :=
  match Mutex.step mu Mutex.Lock with
  | Mutex.Held m1 =>
      match Mutex.step m1 leave with
      | Mutex.Held m2 => Returned body m2
      | Mutex.Blocked => Waits
      | Mutex.Fatal => Aborts body
      end
  | Mutex.Blocked | Mutex.Fatal => Waits
  end.

Section ReadPaths.
Context `{codec : RecordCodec}.

Definition Log_Read (mu : Mutex.RWMutex) (l : Log) (off : Z) : call (result Record) :=
  guarded Mutex.RUnlock mu (Log_Read_body l off).

(** The log holds record [r] at offset [off]: the first segment in slice
    order whose range has the offset, the one the scan of [Log.Read]
    selects, reads [r] there. *)
Definition record_at (l : Log) (off : Z) (r : Record) : Prop :=
  exists s, find (covers off) (live l) = Some s /\
            segment_Read s (Dir l) off = Ok r.

End ReadPaths.

Definition Log_LowestOffset (mu : Mutex.RWMutex) (l : Log) : call (option (result Z)) :=
  guarded Mutex.RUnlock mu (Log_LowestOffset_body l).

Definition Log_HighestOffset (mu : Mutex.RWMutex) (l : Log) : call (option (result Z)) :=
  guarded Mutex.RUnlock mu (Log_HighestOffset_body l).

(** ** Runs and invariants *)

Section Runs.
Context `{codec : RecordCodec}.

(** A sequence of [Log.Append] calls and what each returned. *)
Fixpoint appends (l : Log) (rs : list Record) : option (Log * list (result Z)) :=
  match rs with
  | [] => Some (l, [])
  | r :: rs' =>
      '(l1, res) ← Log_Append l r;
      '(l2, ress) ← appends l1 rs';
      Some (l2, res :: ress)
  end.

End Runs.

(** A segment's files carry its base offset as stem. *)
Definition seg_named (s : segment) : Prop :=
  st_name (seg_store s) = baseOffset s /\ ix_name (seg_index s) = baseOffset s.

(** Offsets are [uint64] values and no segment has wrapped around. *)
Definition seg_range (s : segment) : Prop :=
  0 <= baseOffset s <= nextOffset s /\ nextOffset s < 2 ^ 64.

(** Segments in slice order cover ascending, disjoint ranges. *)
Fixpoint chain (ss : list segment) : Prop :=
  match ss with
  | [] => True
  | s :: r => Forall (fun t => nextOffset s <= baseOffset t) r /\ chain r
  end.

(** What reads of the first [n] bytes of [f] return, [f'] returns too. *)
Definition reads_kept (n : Z) (f f' : file) : Prop :=
  forall pos len b,
    pos + len <= n -> read_at f pos len = Some b -> read_at f' pos len = Some b.

(** The file under a handle is still there in [d'] and reads as in [d]
    wherever the handle can look. *)
Definition index_kept (i : index) (d d' : dir) : Prop :=
  forall xf : file, indexes d !! ix_name i = Some xf ->
    exists xf' : file, indexes d' !! ix_name i = Some xf' /\
                reads_kept (ix_size i) xf xf'.

Definition store_kept (s : store) (d d' : dir) : Prop :=
  forall sf : file, stores d !! st_name s = Some sf ->
    exists sf' : file, stores d' !! st_name s = Some sf' /\
                reads_kept (fsize sf) sf sf'.

(** Every file of [d] is in [d'] with the same bytes. *)
Definition dir_incl (d d' : dir) : Prop :=
  (forall b (f : file), stores d !! b = Some f -> stores d' !! b = Some f) /\
  (forall b (f : file), indexes d !! b = Some f -> indexes d' !! b = Some f).

(** The handles of the active segment against the directory. *)
Record active_ok (d : dir) (c : Config) (a : segment) : Prop := {
  act_config : config a = c;
  act_mmap : ix_mmap (seg_index a) = MaxIndexBytes c;
  act_store : exists sf, stores d !! baseOffset a = Some sf /\
                         st_size (seg_store a) = fsize sf;
  act_index : exists xf, indexes d !! baseOffset a = Some xf /\
                (nextOffset a = baseOffset a ->
                 xf = replicate (Z.to_nat (MaxIndexBytes c)) x00);
  act_size_pos : 0 <= ix_size (seg_index a);
  act_size : ix_size (seg_index a) + entWidth <= MaxIndexBytes c ->
             ix_size (seg_index a) = entWidth * (nextOffset a - baseOffset a)
}.

(** The invariant of a log that was created over an empty directory and
    appended to. *)
Record log_inv (l : Log) : Prop := {
  inv_cfg : Config_ok (LConfig l);
  inv_nodup : NoDup (segments l);
  inv_valid : Forall (fun q => is_Some (heap l !! q)) (segments l);
  inv_active : exists ps p a,
      segments l = ps ++ [p] /\ activeSegment l = Some p /\
      heap l !! p = Some a /\ active_ok (Dir l) (LConfig l) a /\
      (forall b, is_Some (indexes (Dir l) !! b) -> b <= baseOffset a);
  inv_chain : chain (live l);
  inv_named : Forall seg_named (live l);
  inv_range : Forall seg_range (live l);
  inv_idxlen : forall b f, indexes (Dir l) !! b = Some f ->
                           fsize f = MaxIndexBytes (LConfig l);
  inv_stores : forall b, is_Some (stores (Dir l) !! b) ->
                         is_Some (indexes (Dir l) !! b)
}.

(** The active segment's next offset, 0 without an active segment. *)
Definition active_next (l : Log) : Z :=
  match activeSegment l with
  | Some p => match heap l !! p with Some a => nextOffset a | None => 0 end
  | None => 0
  end.

(** A segment with records whose index file holds its entries: the
    logical size counts them, and the last entry carries the last relative
    offset. *)
Record seg_on_disk (d : dir) (cap : Z) (s : segment) : Prop := {
  disk_nonempty : baseOffset s < nextOffset s;
  disk_size : ix_size (seg_index s) = entWidth * (nextOffset s - baseOffset s);
  disk_cap : ix_size (seg_index s) <= cap;
  disk_store : exists sf : file, stores d !! baseOffset s = Some sf;
  disk_index : exists (xf : file) (ob : list byte),
      indexes d !! baseOffset s = Some xf /\
      ix_size (seg_index s) <= fsize xf /\
      read_at xf (ix_size (seg_index s) - entWidth) offWidth = Some ob /\
      be_value ob = nextOffset s - baseOffset s - 1
}.

(** A log whose directory holds exactly the files of its segments, all of
    them with records. *)
Record log_on_disk (l : Log) : Prop := {
  od_some : live l <> [];
  od_chain : chain (live l);
  od_named : Forall seg_named (live l);
  od_range : Forall seg_range (live l);
  od_segs : Forall (seg_on_disk (Dir l) (MaxIndexBytes (LConfig l))) (live l);
  od_stores : dom (stores (Dir l)) = list_to_set (baseOffset <$> live l);
  od_indexes : dom (indexes (Dir l)) = list_to_set (baseOffset <$> live l);
  od_cfg : Config_ok (LConfig l)
}.

(** The files of a closed segment: the index file is trimmed to the
    logical size and ends in the entry of the last record. *)
Definition closed_seg (d : dir) (cap : Z) (s : segment) : Prop :=
  baseOffset s < nextOffset s /\
  ix_size (seg_index s) = entWidth * (nextOffset s - baseOffset s) /\
  ix_size (seg_index s) <= cap /\
  exists (sf xf ob : list byte),
    stores d !! baseOffset s = Some sf /\
    indexes d !! baseOffset s = Some xf /\
    fsize xf = ix_size (seg_index s) /\
    read_at xf (ix_size (seg_index s) - entWidth) offWidth = Some ob /\
    be_value ob = nextOffset s - baseOffset s - 1.

(** What a segment opened again has in common with the one closed. *)
Definition reopened (s s' : segment) : Prop :=
  baseOffset s' = baseOffset s /\ nextOffset s' = nextOffset s /\
  seg_named s' /\ ix_size (seg_index s') = ix_size (seg_index s).

(** What [segment.Remove] and [Log.Truncate] leave when every removal finds
    its two files: the directory without them and the pointers of the
    segments that stay.  Runs in which [Log.Truncate] returns no error are
    stated and proved through these. *)
Definition segment_Remove_ok (s : segment) (d : dir) : dir :=
  let d1 := segment_Close s d in
  mkDir (delete (st_name (seg_store s)) (stores d1))
        (delete (ix_name (seg_index s)) (indexes d1)).

Fixpoint truncate_loop_ok (h : list segment) (lowest : Z) (ps : list nat) (d : dir)
  : list nat * dir :=
  match ps with
  | [] => ([], d)
  | p :: ps' =>
      match h !! p with
      | None => truncate_loop_ok h lowest ps' d
      | Some s =>
          if nextOffset s <=? wrap64 (lowest + 1)
          then truncate_loop_ok h lowest ps' (segment_Remove_ok s d)
          else let '(keep, d') := truncate_loop_ok h lowest ps' d in (p :: keep, d')
      end
  end.

Definition Log_Truncate_ok (l : Log) (lowest : Z) : Log :=
  let '(keep, d) := truncate_loop_ok (heap l) lowest (segments l) (Dir l) in
  mkLog d (LConfig l) (heap l) (activeSegment l) keep.

(** Every segment has its store file and its index file in the directory. *)
Definition has_files (d : dir) (s : segment) : Prop :=
  is_Some (stores d !! st_name (seg_store s)) /\
  is_Some (indexes d !! ix_name (seg_index s)).

(** The test of the loop in [Log.Truncate], negated: the segment stays. *)
Definition kept (lowest : Z) (s : segment) : bool :=
  negb (nextOffset s <=? wrap64 (lowest + 1)).

(** The stems of a directory, each listed twice and in ascending order. *)
Fixpoint twice (bs : list Z) : list Z :=
  match bs with
  | [] => []
  | b :: r => b :: b :: twice r
  end.

(** The log [NewLog] builds over an empty directory: one segment at the
    initial offset, without records, its two files created. *)
Definition fresh_segment (c : Config) : segment :=
  mkSegment (mkStore (InitialOffset c) 0)
            (mkIndex (InitialOffset c) 0 (MaxIndexBytes c))
            (InitialOffset c) (InitialOffset c) c.

Definition fresh_log (c : Config) : Log :=
  mkLog (mkDir {[InitialOffset c := []]}
               {[InitialOffset c := truncate [] (MaxIndexBytes c)]})
        c [fresh_segment c] (Some O) [O].

(** A payload used in the examples: the bytes of "hello world". *)
Definition hello : Record :=
  mkRecord [x68; x65; x6c; x6c; x6f; x20; x77; x6f; x72; x6c; x64] 0.

(** With a store limit above zero and room for an index entry, a segment
    without records is not maxed. *)
Definition roomy (c : Config) : Prop :=
  0 < MaxStoreBytes c /\ entWidth <= MaxIndexBytes c.

(** The active segment holds a record or its files are still empty. *)
Definition active_clean (l : Log) : Prop :=
  forall p a, activeSegment l = Some p -> heap l !! p = Some a ->
    nextOffset a = baseOffset a ->
    st_size (seg_store a) = 0 /\ ix_size (seg_index a) = 0.

(** The bytes of a segment's store file. *)
Definition store_bytes (d : dir) (s : store) : list byte :=
  default [] (stores d !! st_name s).

(** The store files of the segments, back to back in slice order. *)
Definition Log_stream (l : Log) : list byte :=
  concat ((fun s => store_bytes (Dir l) (seg_store s)) <$> live l).

Section Frames.
Context `{codec : RecordCodec}.

(** What [store.Append] writes for a record appended at offset [off]: the
    length of the marshalled record in 8 bytes, then the record. *)
Definition frame (off : Z) (r : Record) : list byte :=
  let p := marshal (mkRecord (Value r) off) in
  be_bytes 8 (Z.of_nat (length p)) ++ p.


End Frames.

(** The invariant behind the stream of a log whose limits leave room for a
    record: no two segments share a base offset, and every segment has its
    store file. *)
Definition stream_inv (l : Log) : Prop :=
  log_inv l /\ roomy (LConfig l) /\ active_clean l /\
  NoDup (baseOffset <$> live l) /\
  Forall (fun s => is_Some (stores (Dir l) !! baseOffset s)) (live l).

(** The files of a log that was appended to under limits that leave room
    for a record: the directory holds the two files of every segment and
    no others, every segment before the active one holds records whose
    index entries are in its index file, and so does the active one unless
    it is still empty.  An index entry keeps the relative offset in 32
    bits, which bounds the entries of one index file. *)
Definition disk_inv (l : Log) : Prop :=
  stream_inv l /\
  MaxIndexBytes (LConfig l) <= entWidth * 2 ^ 32 /\
  (forall b, is_Some (stores (Dir l) !! b) <-> b ∈ baseOffset <$> live l) /\
  (forall b, is_Some (indexes (Dir l) !! b) <-> b ∈ baseOffset <$> live l) /\
  exists olds a,
    live l = olds ++ [a] /\
    Forall (seg_on_disk (Dir l) (MaxIndexBytes (LConfig l))) olds /\
    (nextOffset a = baseOffset a \/
     seg_on_disk (Dir l) (MaxIndexBytes (LConfig l)) a).

(** * Properties *)

(** ** The deferred unlock of the read paths *)

Lemma guarded_RUnlock_unlocked {A} (body : A) :
  guarded Mutex.RUnlock Mutex.unlocked body = Aborts body.
Proof. reflexivity. Qed.

Lemma guarded_RUnlock_ends {A} (mu : Mutex.RWMutex) (body : A) :
  guarded Mutex.RUnlock mu body = Waits \/
  guarded Mutex.RUnlock mu body = Aborts body.
Proof. destruct mu as [[|] [|n]]; cbn; auto. Qed.

Lemma guarded_RUnlock_no_return {A} (mu mu' : Mutex.RWMutex) (body a : A) :
  guarded Mutex.RUnlock mu body <> Returned a mu'.
Proof.
  destruct (guarded_RUnlock_ends mu body) as [-> | ->]; discriminate.
Qed.

(** ** Configuration defaults *)

(** C8: the test [MaxStoreBytes == 0] sets [MaxIndexBytes] to 1024 and
    leaves [MaxStoreBytes] as it was, whatever its value; so a non-zero
    [MaxIndexBytes] is overwritten when [MaxStoreBytes] is zero, and a zero
    [MaxStoreBytes] stays zero. *)
Theorem default_config_cross_wired (c : Config) :
  MaxStoreBytes (default_config c) = MaxStoreBytes c /\
  InitialOffset (default_config c) = InitialOffset c /\
  MaxIndexBytes (default_config c) =
    (if MaxStoreBytes c =? 0 then 1024
     else if MaxIndexBytes c =? 0 then 1024 else MaxIndexBytes c) /\
  MaxIndexBytes (default_config (mkConfig 0 2048 0)) = 1024 /\
  MaxStoreBytes (default_config (mkConfig 0 0 0)) = 0.
Proof.
  unfold default_config.
  destruct (MaxStoreBytes c =? 0) eqn:Hs; simpl;
    destruct (MaxIndexBytes c =? 0) eqn:Hi; simpl; auto.
Qed.

(** ** Offsets of the log *)

Lemma offsets_before_unlock (l : Log) (first last_ : segment) :
  head (live l) = Some first ->
  last (live l) = Some last_ ->
  is_uint64 (nextOffset last_) ->
  Log_LowestOffset_body l = Some (Ok (baseOffset first)) /\
  Log_HighestOffset_body l =
    Some (Ok (if nextOffset last_ =? 0 then 0 else nextOffset last_ - 1)) /\
  (forall h, Log_HighestOffset_body l = Some (Ok h) -> is_uint64 h).
Proof.
  intros Hf Hl Hu. unfold Log_LowestOffset_body, Log_HighestOffset_body.
  rewrite Hf, Hl. simpl. unfold is_uint64, wrap64 in *.
  destruct (nextOffset last_ =? 0) eqn:E.
  - split; [reflexivity | split; [reflexivity |]].
    intros h' [= <-]; lia.
  - apply Z.eqb_neq in E.
    rewrite Z.mod_small by lia.
    split; [reflexivity | split; [reflexivity |]].
    intros h' [= <-]; lia.
Qed.

(** C7: [LowestOffset] and [HighestOffset] lock the mutex and defer
    [RUnlock]: they never return a value.  On a free mutex, with at least
    one segment, the deferred call raises the fatal error once the
    statements before it have produced the first segment's base offset,
    respectively the last segment's next offset minus one (0 when that next
    offset is 0), with a nil error; on a mutex that is taken they wait. *)
Theorem lowest_highest_offset (l : Log) (first last_ : segment) :
  head (live l) = Some first ->
  last (live l) = Some last_ ->
  is_uint64 (nextOffset last_) ->
  Log_LowestOffset Mutex.unlocked l = Aborts (Some (Ok (baseOffset first))) /\
  Log_HighestOffset Mutex.unlocked l
  = Aborts (Some (Ok (if nextOffset last_ =? 0 then 0
                      else nextOffset last_ - 1))) /\
  (forall mu v mu',
     Log_LowestOffset mu l <> Returned v mu' /\
     Log_HighestOffset mu l <> Returned v mu').
Proof.
  intros Hf Hl Hu.
  destruct (offsets_before_unlock l first last_ Hf Hl Hu) as (H1 & H2 & _).
  unfold Log_LowestOffset, Log_HighestOffset.
  rewrite !guarded_RUnlock_unlocked, H1, H2.
  split; [reflexivity|]. split; [reflexivity|].
  intros mu v mu'. split; apply guarded_RUnlock_no_return.
Qed.

(** ** Bytes and big-endian numbers *)

Lemma Z_of_byte_range (b : byte) : 0 <= Z_of_byte b < 256.
Proof.
  unfold Z_of_byte. pose proof (Byte.to_N_bounded b). lia.
Qed.

Lemma Z_of_byte_of_Z (z : Z) : Z_of_byte (byte_of_Z z) = z mod 256.
Proof.
  unfold Z_of_byte, byte_of_Z.
  pose proof (Z.mod_pos_bound z 256 ltac:(lia)) as Hb.
  generalize dependent (z mod 256). intros m Hb.
  destruct (Byte.of_N (Z.to_N m)) as [b|] eqn:E.
  - apply Byte.to_of_N in E. rewrite E. apply Z2N.id. lia.
  - apply Byte.of_N_None_iff in E.
    assert (Z.of_N (Z.to_N m) = m) by (apply Z2N.id; lia). lia.
Qed.

Lemma be_bytes_length (n : nat) (z : Z) : length (be_bytes n z) = n.
Proof.
  revert z. induction n as [|n IH]; intros z; cbn [be_bytes]; [done|].
  rewrite length_app, IH. simpl. lia.
Qed.

Lemma be_value_snoc (l : list byte) (b : byte) :
  be_value (l ++ [b]) = be_value l * 256 + Z_of_byte b.
Proof.
  unfold be_value. rewrite fold_left_app. reflexivity.
Qed.

Lemma be_value_be_bytes (n : nat) (z : Z) :
  be_value (be_bytes n z) = z mod 256 ^ Z.of_nat n.
Proof.
  revert z. induction n as [|n IH]; intros z.
  - simpl. rewrite Z.mod_1_r. reflexivity.
  - cbn [be_bytes]. rewrite be_value_snoc, IH, Z_of_byte_of_Z.
    rewrite Nat2Z.inj_succ, Z.pow_succ_r by lia.
    rewrite (Z.rem_mul_r z 256 (256 ^ Z.of_nat n)) by lia. lia.
Qed.

Lemma be_value_be_bytes_small (n : nat) (z : Z) :
  0 <= z < 256 ^ Z.of_nat n -> be_value (be_bytes n z) = z.
Proof.
  intros H. rewrite be_value_be_bytes. apply Z.mod_small. exact H.
Qed.

Arguments be_bytes : simpl never.

Lemma be_value_zeros (n : nat) : be_value (replicate n x00) = 0.
Proof.
  induction n as [|n IH]; [reflexivity|].
  replace (replicate (S n) x00) with (replicate n x00 ++ [x00]).
  - rewrite be_value_snoc, IH. reflexivity.
  - clear IH. induction n as [|n IH]; simpl; [done|]. f_equal. exact IH.
Qed.

(** ** Reading and writing files *)

Lemma read_at_Some (f : file) (pos len : Z) (b : list byte) :
  read_at f pos len = Some b ->
  0 <= pos /\ 0 <= len /\ pos + len <= fsize f /\
  b = take (Z.to_nat len) (drop (Z.to_nat pos) f).
Proof.
  unfold read_at. intros H.
  destruct (0 <=? pos) eqn:E1; [|done].
  destruct (0 <=? len) eqn:E2; [|done].
  destruct (pos + len <=? fsize f) eqn:E3; [|done].
  simpl in H. injection H as <-.
  apply Z.leb_le in E1, E2, E3. auto.
Qed.

Lemma read_at_in (f : file) (pos len : Z) :
  0 <= pos -> 0 <= len -> pos + len <= fsize f ->
  read_at f pos len = Some (take (Z.to_nat len) (drop (Z.to_nat pos) f)).
Proof.
  intros H1 H2 H3. unfold read_at.
  destruct (0 <=? pos) eqn:E1; [|lia].
  destruct (0 <=? len) eqn:E2; [|lia].
  destruct (pos + len <=? fsize f) eqn:E3; [|lia].
  reflexivity.
Qed.

(** Two files that agree on their first [n] bytes read the same inside
    them. *)
Lemma read_at_agree (f g : file) (n pos len : Z) :
  take (Z.to_nat n) f = take (Z.to_nat n) g ->
  n <= fsize f -> n <= fsize g ->
  0 <= pos -> 0 <= len -> pos + len <= n ->
  read_at f pos len = read_at g pos len.
Proof.
  intros Ht Hf Hg Hp Hl Hn.
  rewrite !read_at_in by lia. f_equal.
  assert (forall h : file, n <= fsize h ->
            take (Z.to_nat len) (drop (Z.to_nat pos) h) =
            take (Z.to_nat len) (drop (Z.to_nat pos) (take (Z.to_nat n) h))) as A.
  { intros h Hh. rewrite !take_drop_commute, take_take.
    f_equal. f_equal. lia. }
  rewrite (A f Hf), (A g Hg), Ht. reflexivity.
Qed.

Lemma take_app_prefix (f w : file) (n : Z) :
  n <= fsize f -> take (Z.to_nat n) (f ++ w) = take (Z.to_nat n) f.
Proof.
  intros H. unfold fsize in H. rewrite take_app_le by lia. reflexivity.
Qed.

Lemma fsize_app (f w : file) : fsize (f ++ w) = fsize f + fsize w.
Proof. unfold fsize. rewrite length_app. lia. Qed.

Lemma read_at_app_l (f w : file) (pos len : Z) (b : list byte) :
  read_at f pos len = Some b -> read_at (f ++ w) pos len = Some b.
Proof.
  intros H. pose proof (read_at_Some _ _ _ _ H) as (H1 & H2 & H3 & _).
  rewrite <- H. symmetry.
  apply (read_at_agree f (f ++ w) (fsize f)); try lia.
  - rewrite take_app_prefix by lia. reflexivity.
  - rewrite fsize_app. unfold fsize. lia.
Qed.

Lemma read_at_app_r (f w : file) :
  read_at (f ++ w) (fsize f) (fsize w) = Some w.
Proof.
  rewrite read_at_in; rewrite ?fsize_app; unfold fsize; try lia.
  rewrite !Nat2Z.id, drop_app_length, take_ge by lia. reflexivity.
Qed.

Lemma fsize_write_at (f : file) (pos : Z) (data : list byte) :
  0 <= pos -> pos + fsize data <= fsize f ->
  fsize (write_at f pos data) = fsize f.
Proof.
  unfold write_at, fsize. intros H1 H2.
  rewrite !length_app, length_take, length_drop. lia.
Qed.

Lemma take_write_at (f : file) (pos n : Z) (data : list byte) :
  0 <= n <= pos -> n <= fsize f ->
  take (Z.to_nat n) (write_at f pos data) = take (Z.to_nat n) f.
Proof.
  unfold write_at, fsize. intros H1 H2.
  rewrite take_app_le by (rewrite length_take; lia).
  rewrite take_take. f_equal. lia.
Qed.

Lemma read_at_write_at (f : file) (pos : Z) (a b : list byte) :
  0 <= pos -> pos + fsize (a ++ b) <= fsize f ->
  read_at (write_at f pos (a ++ b)) pos (fsize a) = Some a /\
  read_at (write_at f pos (a ++ b)) (pos + fsize a) (fsize b) = Some b.
Proof.
  intros H1 H2.
  pose proof (fsize_write_at f pos (a ++ b) H1 H2) as Hs.
  rewrite fsize_app in H2.
  assert (length (take (Z.to_nat pos) f) = Z.to_nat pos) as Hl
    by (rewrite length_take; unfold fsize in *; lia).
  split.
  - rewrite read_at_in by (unfold fsize in *; lia).
    unfold write_at, fsize. f_equal.
    rewrite drop_app_length' by (symmetry; exact Hl).
    rewrite <- app_assoc, Nat2Z.id, take_app_length. reflexivity.
  - rewrite read_at_in by (unfold fsize in *; lia).
    unfold write_at, fsize. f_equal.
    replace (Z.to_nat (pos + Z.of_nat (length a)))
      with (Z.to_nat pos + length a)%nat by lia.
    rewrite <- drop_drop, drop_app_length' by (symmetry; exact Hl).
    rewrite <- app_assoc, drop_app_length, Nat2Z.id, take_app_length.
    reflexivity.
Qed.

Lemma fsize_truncate (f : file) (n : Z) : 0 <= n -> fsize (truncate f n) = n.
Proof.
  unfold truncate, fsize. intros H.
  rewrite length_app, length_take, length_replicate. lia.
Qed.

Lemma take_truncate (f : file) (n m : Z) :
  0 <= m <= n -> m <= fsize f ->
  take (Z.to_nat m) (truncate f n) = take (Z.to_nat m) f.
Proof.
  unfold truncate, fsize. intros H1 H2.
  rewrite take_app_le by (rewrite length_take; lia).
  rewrite take_take. f_equal. lia.
Qed.

Lemma truncate_nil (n : Z) : truncate [] n = replicate (Z.to_nat n) x00.
Proof.
  unfold truncate. rewrite take_nil. simpl. f_equal. lia.
Qed.

Lemma read_at_zeros (n : nat) (pos len : Z) (b : list byte) :
  read_at (replicate n x00) pos len = Some b -> be_value b = 0.
Proof.
  intros H. apply read_at_Some in H as (_ & _ & _ & ->).
  rewrite drop_replicate, take_replicate. apply be_value_zeros.
Qed.

(** ** The segment slice and the heap *)

Lemma find_app_covers (off : Z) (ss ts : list segment) :
  find (covers off) (ss ++ ts) =
  match find (covers off) ss with
  | Some s => Some s
  | None => find (covers off) ts
  end.
Proof.
  induction ss as [|s ss IH]; simpl; [done|].
  destruct (covers off s); [done | exact IH].
Qed.

Lemma find_covers_none (off : Z) (ss : list segment) :
  Forall (fun s => covers off s = false) ss -> find (covers off) ss = None.
Proof.
  induction 1 as [|s ss Hs _ IH]; simpl; [done|]. rewrite Hs. exact IH.
Qed.

Lemma find_covers_Some (off : Z) (ss : list segment) (s : segment) :
  find (covers off) ss = Some s -> s ∈ ss /\ covers off s = true.
Proof.
  induction ss as [|t ss IH]; simpl; [done|].
  destruct (covers off t) eqn:E.
  - intros [= <-]. split; [left | exact E].
  - intros H. destruct (IH H) as [H1 H2]. split; [right; exact H1 | exact H2].
Qed.

Lemma omap_lookup_insert_notin (h : list segment) (p : nat) (a : segment)
    (ps : list nat) :
  p ∉ ps -> omap (fun q => <[p := a]> h !! q) ps = omap (fun q => h !! q) ps.
Proof.
  intros Hn. apply list_omap_ext.
  induction ps as [|q ps IH]; [constructor|].
  apply not_elem_of_cons in Hn as [Hq Hps].
  constructor; [|exact (IH Hps)].
  rewrite list_lookup_insert_ne by done. reflexivity.
Qed.

Lemma omap_lookup_app_valid (h : list segment) (s : segment) (ps : list nat) :
  Forall (fun q => is_Some (h !! q)) ps ->
  omap (fun q => (h ++ [s]) !! q) ps = omap (fun q => h !! q) ps.
Proof.
  intros Hv. apply list_omap_ext.
  induction Hv as [|q ps Hq _ IH]; constructor; [|exact IH].
  apply lookup_lt_is_Some in Hq.
  rewrite lookup_app_l by exact Hq. reflexivity.
Qed.

(** The slice ends in the active segment: what it holds before and after
    the active segment is updated in place. *)
Lemma live_snoc (l : Log) (ps : list nat) (p : nat) (a : segment) :
  segments l = ps ++ [p] -> heap l !! p = Some a ->
  live l = omap (fun q => heap l !! q) ps ++ [a].
Proof.
  intros Hs Ha. unfold live. rewrite Hs, omap_app. simpl. rewrite Ha.
  reflexivity.
Qed.

Lemma live_update (l : Log) (ps : list nat) (p : nat) (a a' : segment) (d : dir) :
  segments l = ps ++ [p] -> NoDup (segments l) -> heap l !! p = Some a ->
  live (mkLog d (LConfig l) (<[p := a']> (heap l)) (activeSegment l) (segments l))
  = omap (fun q => heap l !! q) ps ++ [a'].
Proof.
  intros Hs Hn Ha. unfold live. simpl. rewrite Hs, omap_app. simpl.
  rewrite Hs in Hn. apply NoDup_app in Hn as (_ & Hd & _).
  rewrite omap_lookup_insert_notin.
  - rewrite list_lookup_insert_eq by (eapply lookup_lt_Some; exact Ha).
    reflexivity.
  - intros Hin. apply (Hd p Hin). left.
Qed.

Lemma live_newSegment (l : Log) (s : segment) (d : dir) :
  Forall (fun q => is_Some (heap l !! q)) (segments l) ->
  live (mkLog d (LConfig l) (heap l ++ [s]) (Some (length (heap l)))
          (segments l ++ [length (heap l)]))
  = live l ++ [s].
Proof.
  intros Hv. unfold live. simpl. rewrite omap_app. simpl.
  rewrite omap_lookup_app_valid by exact Hv.
  rewrite lookup_app_r by lia. rewrite Nat.sub_diag. reflexivity.
Qed.

(** ** Chains of segments *)

Lemma chain_app (ss ts : list segment) :
  chain (ss ++ ts) <->
  chain ss /\ chain ts /\
  Forall (fun s => Forall (fun t => nextOffset s <= baseOffset t) ts) ss.
Proof.
  induction ss as [|s ss IH]; simpl.
  - intuition.
  - rewrite Forall_app, IH, Forall_cons. intuition.
Qed.

Lemma chain_singleton (s : segment) : chain [s].
Proof. simpl. split; [constructor | exact I]. Qed.

Lemma chain_filter (f : segment -> bool) (ss : list segment) :
  chain ss -> chain (List.filter f ss).
Proof.
  induction ss as [|s ss IH]; simpl; [done|].
  intros [H1 H2]. destruct (f s); simpl; [|exact (IH H2)].
  split; [|exact (IH H2)].
  apply Forall_forall. intros t Ht.
  apply list_elem_of_In, filter_In in Ht as [Ht _].
  rewrite Forall_forall in H1. apply H1, list_elem_of_In, Ht.
Qed.

(** In a chain the next offsets ascend towards the last segment. *)
Lemma chain_next_le_last (ss : list segment) (a s : segment) :
  chain (ss ++ [a]) -> Forall seg_range (ss ++ [a]) -> s ∈ ss ++ [a] ->
  nextOffset s <= nextOffset a.
Proof.
  intros Hc Hr Hs. apply chain_app in Hc as (_ & _ & Hc).
  apply Forall_app in Hr as [_ Hra]. rewrite Forall_singleton in Hra.
  apply elem_of_app in Hs as [Hs | Hs].
  - rewrite Forall_forall in Hc. specialize (Hc s Hs).
    rewrite Forall_singleton in Hc. unfold seg_range in Hra. lia.
  - rewrite list_elem_of_singleton in Hs. subst s. lia.
Qed.

(** ** Reads outside the log *)

Section ReadOutOfRange.
Context `{codec : RecordCodec}.

Lemma Log_Read_uncovered (l : Log) (off : Z) :
  Forall (fun s => covers off s = false) (live l) ->
  Log_Read_body l off = Err (ErrOffsetOutOfRange off).
Proof.
  intros H. unfold Log_Read_body. rewrite find_covers_none by exact H. reflexivity.
Qed.

Lemma Log_Read_beyond_last (l : Log) (a : segment) (off : Z) :
  chain (live l) -> Forall seg_range (live l) ->
  last (live l) = Some a -> nextOffset a <= off ->
  Log_Read_body l off = Err (ErrOffsetOutOfRange off).
Proof.
  intros Hc Hr Hl Hoff. apply Log_Read_uncovered.
  apply last_Some in Hl as [ss Hl]. rewrite Hl in *.
  apply Forall_forall. intros s Hs.
  pose proof (chain_next_le_last ss a s Hc Hr Hs) as Hle.
  unfold covers. apply andb_false_iff. right. apply Z.ltb_ge. lia.
Qed.

Lemma Log_Read_no_records (l : Log) (off : Z) :
  Forall (fun s => nextOffset s = baseOffset s) (live l) ->
  Log_Read_body l off = Err (ErrOffsetOutOfRange off).
Proof.
  intros He. apply Log_Read_uncovered.
  eapply Forall_impl; [exact He|]. intros s Hs. unfold covers. simpl in Hs.
  rewrite Hs. destruct (baseOffset s <=? off) eqn:E1; simpl; [|done].
  apply Z.leb_le in E1. apply Z.ltb_ge. lia.
Qed.

(** In ascending, disjoint ranges the scan finds the one segment that
    covers the offset. *)
Lemma chain_find_covers (ss : list segment) (s : segment) (off : Z) :
  chain ss -> s ∈ ss -> covers off s = true ->
  find (covers off) ss = Some s.
Proof.
  induction ss as [|t r IH]; intros Hc Hs Hcov; [by apply elem_of_nil in Hs|].
  destruct Hc as [Hle Hc]. cbn [find].
  apply elem_of_cons in Hs as [<- | Hs]; [rewrite Hcov; reflexivity|].
  destruct (covers off t) eqn:Ht; [|exact (IH Hc Hs Hcov)].
  rewrite Forall_forall in Hle. specialize (Hle s Hs).
  unfold covers in Ht, Hcov.
  apply andb_true_iff in Ht as [_ Ht]. apply Z.ltb_lt in Ht.
  apply andb_true_iff in Hcov as [Hcov _]. apply Z.leb_le in Hcov. lia.
Qed.

(** What the scan of [Log.Read] selects and reads: the first segment in
    slice order whose range holds the offset. *)
Lemma Log_Read_body_Ok (l : Log) (off : Z) (r : Record) :
  Log_Read_body l off = Ok r <-> record_at l off r.
Proof.
  unfold Log_Read_body, record_at. destruct (find (covers off) (live l)) as [s|] eqn:Hf.
  - pose proof (find_covers_Some off _ s Hf) as [_ Hc].
    apply andb_true_iff in Hc as [_ Hc]. apply Z.ltb_lt in Hc.
    destruct (nextOffset s <=? off) eqn:E; [apply Z.leb_le in E; lia|].
    split; [eauto|]. intros (s' & [= <-] & Hr). exact Hr.
  - split; [discriminate|]. intros (s' & Hs & _). discriminate.
Qed.

(** C3: [Log.Read] locks the mutex and defers [RUnlock]: it never returns,
    so it never returns [ErrOffsetOutOfRange].  On a free mutex the
    deferred call raises the fatal error once the scan has produced that
    error, carrying the offset, for an offset that no segment covers: every
    offset when no segment holds a record, and, with segments in ascending,
    unwrapped ranges, every offset from the last segment's next offset on. *)
Theorem read_out_of_range (l : Log) (off : Z) :
  (forall mu r mu', Log_Read mu l off <> Returned r mu') /\
  (Forall (fun s => covers off s = false) (live l) ->
   Log_Read Mutex.unlocked l off = Aborts (Err (ErrOffsetOutOfRange off))) /\
  (Forall (fun s => nextOffset s = baseOffset s) (live l) ->
   Log_Read Mutex.unlocked l off = Aborts (Err (ErrOffsetOutOfRange off))) /\
  (chain (live l) -> Forall seg_range (live l) ->
   forall a, last (live l) = Some a -> nextOffset a <= off ->
   Log_Read Mutex.unlocked l off = Aborts (Err (ErrOffsetOutOfRange off))).
Proof.
  unfold Log_Read. rewrite guarded_RUnlock_unlocked.
  split; [intros mu r mu'; apply guarded_RUnlock_no_return|].
  split; [intros H; rewrite (Log_Read_uncovered l off H); reflexivity|].
  split; [intros H; rewrite (Log_Read_no_records l off H); reflexivity|].
  intros Hc Hr a Hl Hoff.
  rewrite (Log_Read_beyond_last l a off Hc Hr Hl Hoff). reflexivity.
Qed.

End ReadOutOfRange.

(** ** Lock discipline *)

(** C9: the writing methods lock and unlock in exclusive mode, but [Read],
    [LowestOffset], [HighestOffset] and [Reader] take the exclusive lock
    and release a shared one; on an unlocked mutex that release is a
    run-time error, while the writing methods leave the mutex unlocked. *)
Theorem read_paths_mix_lock_modes :
  Forall (fun m => Mutex.same_mode (Mutex.lock_calls m) = true)
    [Mutex.MAppend; Mutex.MTruncate; Mutex.MClose; Mutex.MRemove; Mutex.MReset] /\
  Forall (fun m => Mutex.lock_calls m = [Mutex.Lock; Mutex.RUnlock] /\
                   Mutex.same_mode (Mutex.lock_calls m) = false /\
                   Mutex.run Mutex.unlocked (Mutex.lock_calls m) = Mutex.Fatal)
    [Mutex.MRead; Mutex.MLowestOffset; Mutex.MHighestOffset; Mutex.MReader] /\
  Mutex.run Mutex.unlocked (Mutex.lock_calls Mutex.MAppend)
    = Mutex.Held Mutex.unlocked.
Proof.
  split; [|split]; repeat constructor.
Qed.

Lemma truncate_id (f : file) (n : Z) : fsize f = n -> truncate f n = f.
Proof.
  unfold truncate, fsize. intros <-.
  rewrite Nat2Z.id, take_ge by lia.
  rewrite Nat.sub_diag. simpl. apply app_nil_r.
Qed.

Lemma reads_kept_refl (n : Z) (f : file) : reads_kept n f f.
Proof. intros pos len b _ H. exact H. Qed.

Lemma reads_kept_app (f w : file) : reads_kept (fsize f) f (f ++ w).
Proof. intros pos len b _ H. apply read_at_app_l. exact H. Qed.

Lemma reads_kept_write_at (f : file) (n pos : Z) (data : list byte) :
  n <= pos -> reads_kept n f (write_at f pos data).
Proof.
  intros Hn p len b Hp H.
  pose proof (read_at_Some _ _ _ _ H) as (H1 & H2 & H3 & _).
  rewrite <- H. symmetry.
  apply (read_at_agree f (write_at f pos data) (p + len)); try lia.
  - rewrite take_write_at by lia. reflexivity.
  - unfold write_at, fsize in *.
    rewrite !length_app, length_take. lia.
Qed.

(** ** Reads that survive a change of the directory *)

Lemma index_Read_kept (i i' : index) (d d' : dir) (rel : Z) (v : Z * Z) :
  index_Read i d rel = Ok v -> rel <> -1 ->
  ix_name i' = ix_name i -> ix_size i <= ix_size i' ->
  index_kept i d d' ->
  index_Read i' d' rel = Ok v.
Proof.
  unfold index_Read. intros H Hrel Hn Hs Hk.
  destruct (ix_size i =? 0) eqn:E0; [done|]. apply Z.eqb_neq in E0.
  destruct (rel =? -1) eqn:E1; [apply Z.eqb_eq in E1; done|].
  destruct ((rel <? 0) || (ix_size i <? rel * entWidth + entWidth)) eqn:E2; [done|].
  apply orb_false_iff in E2 as [E2 E3].
  apply Z.ltb_ge in E2, E3. unfold entWidth, offWidth, posWidth in *.
  destruct (indexes d !! ix_name i) as [xf|] eqn:Ef; [|done].
  destruct (Hk xf Ef) as (xf' & Hf' & Hr).
  destruct (read_at xf (rel * (4 + 8)) 4) as [ob|] eqn:Ro; [|done].
  destruct (read_at xf (rel * (4 + 8) + 4) 8) as [pb|] eqn:Rp; [|done].
  destruct (ix_size i' =? 0) eqn:E0'; [apply Z.eqb_eq in E0'; lia|].
  destruct ((rel <? 0) || (ix_size i' <? rel * (4 + 8) + (4 + 8))) eqn:E2'.
  { apply orb_true_iff in E2' as [E|E]; apply Z.ltb_lt in E; lia. }
  rewrite Hn, Hf'.
  rewrite (Hr (rel * (4 + 8)) 4 ob ltac:(lia) Ro).
  rewrite (Hr (rel * (4 + 8) + 4) 8 pb ltac:(lia) Rp). exact H.
Qed.

Lemma store_Read_kept (s s' : store) (d d' : dir) (pos : Z) (b : list byte) :
  store_Read s d pos = Ok b ->
  st_name s' = st_name s -> store_kept s d d' ->
  store_Read s' d' pos = Ok b.
Proof.
  unfold store_Read. intros H Hn Hk.
  destruct (stores d !! st_name s) as [sf|] eqn:Ef; [|done].
  destruct (Hk sf Ef) as (sf' & Hf' & Hr).
  destruct (read_at sf pos lenWidth) as [lb|] eqn:Rl; [|done].
  destruct (read_at sf (pos + lenWidth) (be_value lb)) as [bb|] eqn:Rb; [|done].
  rewrite Hn, Hf'.
  pose proof (read_at_Some _ _ _ _ Rl) as (? & ? & ? & _).
  pose proof (read_at_Some _ _ _ _ Rb) as (? & ? & ? & _).
  rewrite (Hr pos lenWidth lb ltac:(lia) Rl).
  rewrite (Hr (pos + lenWidth) (be_value lb) bb ltac:(lia) Rb). exact H.
Qed.

Section ReadKept.
Context `{codec : RecordCodec}.

Lemma segment_Read_kept (s s' : segment) (d d' : dir) (off : Z) (r : Record) :
  segment_Read s d off = Ok r ->
  to_int64 (wrap64 (off - baseOffset s)) <> -1 ->
  baseOffset s' = baseOffset s ->
  st_name (seg_store s') = st_name (seg_store s) ->
  ix_name (seg_index s') = ix_name (seg_index s) ->
  ix_size (seg_index s) <= ix_size (seg_index s') ->
  index_kept (seg_index s) d d' -> store_kept (seg_store s) d d' ->
  segment_Read s' d' off = Ok r.
Proof.
  unfold segment_Read. intros H Hrel Hb Hsn Hin Hsz Hik Hsk.
  destruct (index_Read (seg_index s) d _) as [[o pos]|] eqn:Ei; [|done].
  destruct (store_Read (seg_store s) d pos) as [p|] eqn:Es; [|done].
  rewrite Hb.
  rewrite (index_Read_kept _ _ _ _ _ _ Ei Hrel Hin Hsz Hik).
  rewrite (store_Read_kept _ _ _ _ _ _ Es Hsn Hsk). exact H.
Qed.

End ReadKept.

Lemma covers_rel (s : segment) (off : Z) :
  seg_range s -> covers off s = true ->
  0 <= off - baseOffset s /\ off < nextOffset s /\
  wrap64 (off - baseOffset s) = off - baseOffset s /\
  to_int64 (wrap64 (off - baseOffset s)) <> -1.
Proof.
  unfold seg_range, covers. intros Hr Hc.
  apply andb_true_iff in Hc as [H1 H2].
  apply Z.leb_le in H1. apply Z.ltb_lt in H2.
  assert (wrap64 (off - baseOffset s) = off - baseOffset s) as Hw
    by (unfold wrap64; apply Z.mod_small; lia).
  repeat split; try lia; try exact Hw.
  unfold to_int64. rewrite !Hw.
  destruct (off - baseOffset s <? 2 ^ 63); lia.
Qed.

(** ** Opening a segment *)

Lemma newSegment_shape (d : dir) (k : Z) (c : Config) :
  exists s d2,
    newSegment d k c = Ok (s, d2) /\
    baseOffset s = k /\ seg_named s /\ config s = c /\
    ix_mmap (seg_index s) = MaxIndexBytes c /\
    ix_size (seg_index s) = fsize (default [] (indexes d !! k)) /\
    st_size (seg_store s) = fsize (default [] (stores d !! k)) /\
    stores d2 = <[k := default [] (stores d !! k)]> (stores d) /\
    indexes d2 =
      <[k := truncate (default [] (indexes d !! k)) (MaxIndexBytes c)]> (indexes d) /\
    nextOffset s =
      match index_Read (seg_index s) d2 (-1) with
      | Err _ => k
      | Ok (off, _) => wrap64 (k + off + 1)
      end.
Proof.
  unfold newSegment, newIndex, newStore. simpl.
  eexists _, _. split; [reflexivity|]. simpl.
  repeat split; reflexivity.
Qed.

(** The last entry of an index whose file holds only zero bytes. *)
Lemma index_Read_last_zeros (i : index) (d : dir) (n : nat) :
  indexes d !! ix_name i = Some (replicate n x00) ->
  (exists e, index_Read i d (-1) = Err e) \/ index_Read i d (-1) = Ok (0, 0).
Proof.
  intros Hf. unfold index_Read. rewrite Hf.
  destruct (ix_size i =? 0); [left; eauto|]. simpl.
  destruct (_ || _); [left; eauto|].
  destruct (read_at _ _ offWidth) as [ob|] eqn:Ro; [|left; eauto].
  destruct (read_at _ _ posWidth) as [pb|] eqn:Rp; [|left; eauto].
  right. rewrite (read_at_zeros _ _ _ _ Ro), (read_at_zeros _ _ _ _ Rp).
  reflexivity.
Qed.

Lemma index_Read_empty (i : index) (d : dir) (rel : Z) :
  ix_size i = 0 -> index_Read i d rel = Err ErrIndexRange.
Proof. intros H. unfold index_Read. rewrite H. reflexivity. Qed.

(** The active segment named by the invariant is the one the pointer
    reaches. *)
Lemma log_inv_active (l : Log) (p : nat) (a : segment) :
  log_inv l -> activeSegment l = Some p -> heap l !! p = Some a ->
  exists ps,
    segments l = ps ++ [p] /\ active_ok (Dir l) (LConfig l) a /\
    (forall b, is_Some (indexes (Dir l) !! b) -> b <= baseOffset a) /\
    live l = omap (fun q => heap l !! q) ps ++ [a] /\
    seg_range a /\ seg_named a.
Proof.
  intros Hi Hp Ha.
  destruct (inv_active l Hi) as (ps & p' & a' & Hs & Hp' & Ha' & Hok & Hb).
  rewrite Hp in Hp'. injection Hp' as <-.
  rewrite Ha in Ha'. injection Ha' as <-.
  pose proof (live_snoc l ps p a Hs Ha) as Hl.
  exists ps. split; [exact Hs|]. split; [exact Hok|]. split; [exact Hb|].
  split; [exact Hl|]. split.
  - pose proof (inv_range l Hi) as Hr. rewrite Hl in Hr.
    apply Forall_app in Hr as [_ Hr]. rewrite Forall_singleton in Hr.
    exact Hr.
  - pose proof (inv_named l Hi) as Hr. rewrite Hl in Hr.
    apply Forall_app in Hr as [_ Hr]. rewrite Forall_singleton in Hr.
    exact Hr.
Qed.

(** The index file a new segment finds under the stem [nextOffset a] holds
    only zero bytes once it is mapped: it is new, or it is the file of the
    active segment that has no entry yet. *)
Lemma rollover_index_zeros (l : Log) (p : nat) (a : segment) :
  log_inv l -> activeSegment l = Some p -> heap l !! p = Some a ->
  let xf := default [] (indexes (Dir l) !! nextOffset a) in
  let cap := MaxIndexBytes (LConfig l) in
  truncate xf cap = replicate (Z.to_nat cap) x00 /\
  (fsize xf = 0 /\ indexes (Dir l) !! nextOffset a = None /\
   stores (Dir l) !! nextOffset a = None
   \/ fsize xf = cap /\ indexes (Dir l) !! nextOffset a = Some xf).
Proof.
  intros Hi Hp Ha xf cap.
  destruct (log_inv_active l p a Hi Hp Ha) as (ps & Hs & Hok & Hb & Hl & Hr & Hn).
  subst xf. destruct (indexes (Dir l) !! nextOffset a) as [f|] eqn:Ef; simpl.
  - pose proof (inv_idxlen l Hi _ _ Ef) as Hlen.
    pose proof (Hb (nextOffset a) ltac:(rewrite Ef; eauto)) as Hle.
    unfold seg_range in Hr.
    assert (nextOffset a = baseOffset a) as Heq by lia.
    destruct (act_index _ _ _ Hok) as (xf & Hxf & Hz).
    rewrite <- Heq, Ef in Hxf. injection Hxf as <-.
    split; [|right; split; [exact Hlen | reflexivity]].
    rewrite truncate_id by exact Hlen. apply Hz, Heq.
  - split; [apply truncate_nil|]. left. repeat split.
    destruct (stores (Dir l) !! nextOffset a) as [sf|] eqn:Es; [|reflexivity].
    pose proof (inv_stores l Hi (nextOffset a) ltac:(rewrite Es; eauto)) as [x Hx].
    rewrite Ef in Hx. discriminate.
Qed.

Lemma rollover_next (l : Log) (p : nat) (a s : segment) (d2 : dir) :
  log_inv l -> activeSegment l = Some p -> heap l !! p = Some a ->
  nextOffset a + 1 < 2 ^ 64 ->
  ix_name (seg_index s) = nextOffset a ->
  ix_size (seg_index s) = fsize (default [] (indexes (Dir l) !! nextOffset a)) ->
  indexes d2 =
    <[nextOffset a := truncate (default [] (indexes (Dir l) !! nextOffset a))
                        (MaxIndexBytes (LConfig l))]> (indexes (Dir l)) ->
  nextOffset s =
    match index_Read (seg_index s) d2 (-1) with
    | Err _ => nextOffset a
    | Ok (off, _) => wrap64 (nextOffset a + off + 1)
    end ->
  nextOffset a <= nextOffset s <= nextOffset a + 1 /\
  (ix_size (seg_index s) + entWidth <= MaxIndexBytes (LConfig l) ->
   nextOffset s = nextOffset a /\
   stores (Dir l) !! nextOffset a = None).
Proof.
  intros Hi Hp Ha Hlt Hn Hsz Hd2 Hnext.
  destruct (log_inv_active l p a Hi Hp Ha) as (ps & Hs & Hok & Hb & Hl & Hr & Hnm).
  destruct (rollover_index_zeros l p a Hi Hp Ha) as [Hz Hcase].
  unfold seg_range in Hr.
  assert (indexes d2 !! ix_name (seg_index s)
          = Some (replicate (Z.to_nat (MaxIndexBytes (LConfig l))) x00)) as Hf.
  { rewrite Hd2, Hn, lookup_insert_eq, Hz. reflexivity. }
  split.
  - destruct (index_Read_last_zeros _ _ _ Hf) as [[e He] | He];
      rewrite He in Hnext; rewrite Hnext; [lia|].
    unfold wrap64. rewrite Z.mod_small by lia. lia.
  - intros Hfit. destruct Hcase as [(H0 & _ & Hst) | (Hc & _)].
    + split; [|exact Hst].
      rewrite index_Read_empty in Hnext by lia. exact Hnext.
    + unfold entWidth, offWidth, posWidth in Hfit. lia.
Qed.

Lemma rollover_dir_incl (l : Log) (k : Z) (d2 : dir) :
  log_inv l ->
  stores d2 = <[k := default [] (stores (Dir l) !! k)]> (stores (Dir l)) ->
  indexes d2 =
    <[k := truncate (default [] (indexes (Dir l) !! k))
             (MaxIndexBytes (LConfig l))]> (indexes (Dir l)) ->
  dir_incl (Dir l) d2.
Proof.
  intros Hi Hs Hx. split; intros b f Hf.
  - rewrite Hs. destruct (decide (b = k)) as [->|Hne].
    + rewrite lookup_insert_eq, Hf. reflexivity.
    + rewrite lookup_insert_ne by done. exact Hf.
  - rewrite Hx. destruct (decide (b = k)) as [->|Hne].
    + rewrite lookup_insert_eq, Hf. simpl.
      rewrite truncate_id; [reflexivity|].
      exact (inv_idxlen l Hi _ _ Hf).
    + rewrite lookup_insert_ne by done. exact Hf.
Qed.

Lemma valid_snoc (h : list segment) (s : segment) (ps : list nat) :
  Forall (fun q => is_Some (h !! q)) ps ->
  Forall (fun q => is_Some ((h ++ [s]) !! q)) (ps ++ [length h]).
Proof.
  intros Hv. apply Forall_app. split.
  - eapply Forall_impl; [exact Hv|]. intros q Hq. simpl in *.
    apply lookup_lt_is_Some in Hq. apply lookup_lt_is_Some.
    rewrite length_app. simpl. lia.
  - apply Forall_singleton. apply lookup_lt_is_Some.
    rewrite length_app. simpl. lia.
Qed.

Lemma nodup_snoc (h : list segment) (ps : list nat) :
  NoDup ps -> Forall (fun q => is_Some (h !! q)) ps ->
  NoDup (ps ++ [length h]).
Proof.
  intros Hn Hv. apply NoDup_app. split; [exact Hn|]. split.
  - intros q Hq Hin. rewrite list_elem_of_singleton in Hin. subst q.
    rewrite Forall_forall in Hv. specialize (Hv _ Hq).
    apply lookup_lt_is_Some in Hv. lia.
  - apply NoDup_singleton.
Qed.

(** Rolling over keeps the invariant; the new segment starts at the old
    active segment's next offset. *)
Lemma rollover_inv (l : Log) (p : nat) (a : segment) :
  log_inv l -> activeSegment l = Some p -> heap l !! p = Some a ->
  nextOffset a + 1 < 2 ^ 64 ->
  exists l1 s,
    Log_newSegment l (nextOffset a) = Ok l1 /\ log_inv l1 /\
    LConfig l1 = LConfig l /\
    heap l1 = heap l ++ [s] /\
    segments l1 = segments l ++ [length (heap l)] /\
    activeSegment l1 = Some (length (heap l)) /\
    live l1 = live l ++ [s] /\
    baseOffset s = nextOffset a /\
    nextOffset a <= nextOffset s <= nextOffset a + 1 /\
    (ix_size (seg_index s) + entWidth <= MaxIndexBytes (LConfig l) ->
     nextOffset s = nextOffset a /\ st_size (seg_store s) = 0) /\
    dir_incl (Dir l) (Dir l1).
Proof.
  intros Hi Hp Ha Hlt.
  destruct (newSegment_shape (Dir l) (nextOffset a) (LConfig l))
    as (s & d2 & Hns & Hb & Hnm & Hcf & Hmm & Hsz & Hst & Hd2s & Hd2i & Hnext).
  destruct (log_inv_active l p a Hi Hp Ha) as (ps & Hs & Hok & Hbel & Hl & Hr & Hnma).
  destruct (rollover_index_zeros l p a Hi Hp Ha) as [Hz Hcase].
  assert (ix_name (seg_index s) = nextOffset a) as Hixn
    by (destruct Hnm as [_ Hx]; rewrite Hx; exact Hb).
  destruct (rollover_next l p a s d2 Hi Hp Ha Hlt Hixn Hsz Hd2i Hnext) as [Hnx Hfit].
  pose proof (rollover_dir_incl l _ d2 Hi Hd2s Hd2i) as Hincl.
  pose proof (live_newSegment l s d2 (inv_valid l Hi)) as Hlive.
  pose proof (inv_cfg l Hi) as (_ & Hcap & _). unfold is_uint64 in Hcap.
  unfold seg_range in Hr.
  unfold Log_newSegment. rewrite Hns. eexists _, s.
  split; [reflexivity|].
  split; [|simpl; repeat (split; [first [reflexivity | assumption]|]); try assumption].
  - constructor; simpl.
    + exact (inv_cfg l Hi).
    + apply nodup_snoc; [exact (inv_nodup l Hi) | exact (inv_valid l Hi)].
    + apply valid_snoc. exact (inv_valid l Hi).
    + exists (segments l), (length (heap l)), s.
      split; [reflexivity|]. split; [reflexivity|].
      split; [rewrite lookup_app_r, Nat.sub_diag by lia; reflexivity|].
      split.
      * constructor.
        -- exact Hcf.
        -- exact Hmm.
        -- rewrite Hb, Hd2s, lookup_insert_eq. eexists. split; [reflexivity|].
           exact Hst.
        -- rewrite Hb, Hd2i, lookup_insert_eq, Hz. eexists.
           split; [reflexivity|]. intros _. reflexivity.
        -- rewrite Hsz. unfold fsize. lia.
        -- intros Hf. destruct (Hfit Hf) as [Hn0 _].
           destruct Hcase as [(H0 & _) | (Hc & _)].
           ++ rewrite Hsz, H0, Hn0, Hb. lia.
           ++ rewrite Hsz, Hc in Hf.
              unfold entWidth, offWidth, posWidth in Hf. lia.
      * intros b Hsome. rewrite Hb. rewrite Hd2i in Hsome.
        destruct (decide (b = nextOffset a)) as [->|Hne]; [lia|].
        rewrite lookup_insert_ne in Hsome by done.
        specialize (Hbel b Hsome). lia.
    + rewrite Hlive. apply chain_app.
      split; [exact (inv_chain l Hi)|]. split; [apply chain_singleton|].
      apply Forall_forall. intros t Ht. apply Forall_singleton.
      rewrite Hb.
      pose proof (inv_chain l Hi) as Hch. pose proof (inv_range l Hi) as Hrg.
      rewrite Hl in Hch, Hrg, Ht.
      exact (chain_next_le_last _ a t Hch Hrg Ht).
    + rewrite Hlive. apply Forall_app.
      split; [exact (inv_named l Hi) | apply Forall_singleton; exact Hnm].
    + rewrite Hlive. apply Forall_app.
      split; [exact (inv_range l Hi)|]. apply Forall_singleton.
      unfold seg_range. rewrite Hb. lia.
    + intros b f Hf. rewrite Hd2i in Hf.
      destruct (decide (b = nextOffset a)) as [->|Hne].
      * rewrite lookup_insert_eq in Hf. injection Hf as <-.
        apply fsize_truncate. lia.
      * rewrite lookup_insert_ne in Hf by done.
        exact (inv_idxlen l Hi _ _ Hf).
    + intros b Hsome. rewrite Hd2s in Hsome. rewrite Hd2i.
      destruct (decide (b = nextOffset a)) as [->|Hne].
      * rewrite lookup_insert_eq. eauto.
      * rewrite lookup_insert_ne by done. rewrite lookup_insert_ne in Hsome by done.
        exact (inv_stores l Hi b Hsome).
  - split; [|exact Hincl].
    intros Hf. destruct (Hfit Hf) as [Hn0 Hnone]. split; [exact Hn0|].
    rewrite Hst, Hnone. reflexivity.
Qed.

(** ** Appending to a segment *)

Lemma read_at_app3 (f a b : file) :
  read_at (f ++ a ++ b) (fsize f) (fsize a) = Some a /\
  read_at (f ++ a ++ b) (fsize f + fsize a) (fsize b) = Some b.
Proof.
  split.
  - rewrite app_assoc.
    apply read_at_app_l, read_at_app_r.
  - rewrite app_assoc, <- fsize_app. apply read_at_app_r.
Qed.

Lemma fsize_be_bytes (n : nat) (z : Z) : fsize (be_bytes n z) = Z.of_nat n.
Proof. unfold fsize. rewrite be_bytes_length. reflexivity. Qed.

(** Reading back what [store.Append] wrote. *)
Lemma store_Read_Append (s : store) (d : dir) (sf p : file) :
  stores d !! st_name s = Some sf -> st_size s = fsize sf ->
  fsize p < 2 ^ 64 ->
  exists s' d',
    store_Append s d p = Ok (s', d', fsize p + 8, fsize sf) /\
    st_name s' = st_name s /\
    st_size s' = fsize (sf ++ be_bytes 8 (fsize p) ++ p) /\
    stores d' = <[st_name s := sf ++ be_bytes 8 (fsize p) ++ p]> (stores d) /\
    indexes d' = indexes d /\
    store_Read s' d' (fsize sf) = Ok p.
Proof.
  intros Hf Hsz Hp. unfold store_Append. rewrite Hf.
  rewrite length_app, be_bytes_length.
  replace (Z.of_nat (8 + length p)) with (fsize p + 8) by (unfold fsize; lia).
  fold (fsize p). rewrite Hsz.
  eexists _, _. split; [reflexivity|].
  cbn [st_name st_size stores indexes]. split; [reflexivity|].
  split.
  { unfold fsize. rewrite !length_app, be_bytes_length. lia. }
  split; [reflexivity|]. split; [reflexivity|].
  unfold store_Read. cbn [st_name st_size stores indexes].
  rewrite lookup_insert_eq.
  destruct (read_at_app3 sf (be_bytes 8 (fsize p)) p) as [R1 R2].
  rewrite fsize_be_bytes in R1, R2.
  unfold lenWidth. change (Z.of_nat 8) with 8 in R1, R2. rewrite R1.
  rewrite be_value_be_bytes_small by (unfold fsize in *; lia).
  rewrite R2. reflexivity.
Qed.

(** Reading back what [index.Write] wrote. *)
Lemma index_Read_Write (i : index) (d : dir) (xf : file) (j off pos : Z) :
  indexes d !! ix_name i = Some xf ->
  ix_size i = entWidth * j -> 0 <= j ->
  ix_size i + entWidth <= ix_mmap i -> ix_mmap i = fsize xf ->
  0 <= pos < 2 ^ 64 ->
  exists i' d',
    index_Write i d off pos = Ok (i', d') /\
    ix_name i' = ix_name i /\ ix_size i' = ix_size i + entWidth /\
    ix_mmap i' = ix_mmap i /\ stores d' = stores d /\
    indexes d' =
      <[ix_name i := write_at xf (ix_size i) (be_bytes 4 off ++ be_bytes 8 pos)]>
        (indexes d) /\
    index_Read i' d' j = Ok (off mod 2 ^ 32, pos).
Proof.
  intros Hf Hsz Hj Hfit Hmap Hpos. unfold index_Write.
  destruct (ix_mmap i <? ix_size i + entWidth) eqn:E; [apply Z.ltb_lt in E; lia|].
  rewrite Hf. eexists _, _. split; [reflexivity|].
  cbn [ix_name ix_size ix_mmap stores indexes].
  do 5 (split; [reflexivity|]).
  unfold index_Read. cbn [ix_name ix_size ix_mmap stores indexes].
  rewrite lookup_insert_eq.
  unfold entWidth, offWidth, posWidth in *.
  destruct (ix_size i + (4 + 8) =? 0) eqn:E0; [apply Z.eqb_eq in E0; lia|].
  destruct (j =? -1) eqn:E1; [apply Z.eqb_eq in E1; lia|].
  destruct ((j <? 0) || (ix_size i + (4 + 8) <? j * (4 + 8) + (4 + 8))) eqn:E2.
  { apply orb_true_iff in E2 as [E2|E2]; apply Z.ltb_lt in E2; lia. }
  assert (ix_size i + fsize (be_bytes 4 off ++ be_bytes 8 pos) <= fsize xf) as Hin.
  { rewrite fsize_app, !fsize_be_bytes. lia. }
  destruct (read_at_write_at xf (ix_size i) (be_bytes 4 off) (be_bytes 8 pos)
              ltac:(lia) Hin) as [R1 R2].
  rewrite (fsize_be_bytes 4) in R1, R2. rewrite (fsize_be_bytes 8) in R2.
  change (Z.of_nat 4) with 4 in R1, R2. change (Z.of_nat 8) with 8 in R2.
  replace (j * (4 + 8)) with (ix_size i) by lia.
  rewrite R1, R2.
  rewrite (be_value_be_bytes 4), (be_value_be_bytes_small 8) by (simpl; lia).
  reflexivity.
Qed.

Lemma index_Write_full (i : index) (d : dir) (off pos : Z) :
  ix_mmap i < ix_size i + entWidth ->
  index_Write i d off pos = Err ErrIndexFull.
Proof.
  intros H. unfold index_Write.
  destruct (ix_mmap i <? ix_size i + entWidth) eqn:E; [reflexivity|].
  apply Z.ltb_ge in E. lia.
Qed.

Lemma store_kept_Append (t s : store) (d d' : dir) (sf w : file) :
  stores d !! st_name s = Some sf ->
  stores d' = <[st_name s := sf ++ w]> (stores d) ->
  store_kept t d d'.
Proof.
  intros Hf Hd tf Ht. rewrite Hd.
  destruct (decide (st_name t = st_name s)) as [E|E].
  - rewrite E in *. rewrite Hf in Ht. injection Ht as <-.
    rewrite lookup_insert_eq. eexists. split; [reflexivity|].
    apply reads_kept_app.
  - rewrite lookup_insert_ne by done. eexists. split; [exact Ht|].
    apply reads_kept_refl.
Qed.

Lemma index_kept_same (i : index) (d d' : dir) :
  indexes d' = indexes d -> index_kept i d d'.
Proof.
  intros Hd xf Hx. rewrite Hd. eexists. split; [exact Hx | apply reads_kept_refl].
Qed.

Lemma index_kept_Write (t : index) (d d' : dir) (name n : Z) (xf e : file) :
  indexes d !! name = Some xf ->
  indexes d' = <[name := write_at xf n e]> (indexes d) ->
  ix_name t <> name \/ ix_size t <= n ->
  index_kept t d d'.
Proof.
  intros Hf Hd Ht tf Htf. rewrite Hd.
  destruct (decide (ix_name t = name)) as [E|E].
  - destruct Ht as [Ht|Ht]; [done|].
    rewrite E in *. rewrite Hf in Htf. injection Htf as <-.
    rewrite lookup_insert_eq. eexists. split; [reflexivity|].
    apply reads_kept_write_at. exact Ht.
  - rewrite lookup_insert_ne by done. eexists. split; [exact Htf|].
    apply reads_kept_refl.
Qed.

Lemma store_Read_ext (s : store) (d d' : dir) (pos : Z) :
  stores d' = stores d -> store_Read s d' pos = store_Read s d pos.
Proof. intros H. unfold store_Read. rewrite H. reflexivity. Qed.

Lemma is_Some_insert_same {A} (m : gmap Z A) (k b : Z) (x y : A) :
  m !! k = Some x -> (is_Some (<[k := y]> m !! b) <-> is_Some (m !! b)).
Proof.
  intros Hk. destruct (decide (b = k)) as [->|E].
  - rewrite lookup_insert_eq, Hk. split; eauto.
  - rewrite lookup_insert_ne by done. reflexivity.
Qed.

Lemma to_int64_small (j : Z) : 0 <= j < 2 ^ 63 -> to_int64 (wrap64 j) = j.
Proof.
  intros H. unfold to_int64, wrap64.
  rewrite Zmod_mod, Z.mod_small by lia.
  destruct (j <? 2 ^ 63) eqn:E; [reflexivity|]. apply Z.ltb_ge in E. lia.
Qed.

Section SegmentAppend.
Context `{codec : RecordCodec}.

Lemma marshal_fits (rec : Record) (off : Z) :
  payload_ok rec -> is_uint64 off ->
  fsize (marshal (mkRecord (Value rec) off)) < 2 ^ 64.
Proof.
  unfold payload_ok. intros Hp Ho.
  pose proof (marshal_size (mkRecord (Value rec) off) Ho) as H. simpl in H. lia.
Qed.

(** An append that finds the index full: the bytes are in the store, the
    segment keeps its offsets. *)
Lemma segment_Append_full (a : segment) (d : dir) (c : Config) (rec : Record) :
  active_ok d c a -> seg_named a -> seg_range a -> payload_ok rec ->
  MaxIndexBytes c < ix_size (seg_index a) + entWidth ->
  exists a' d' e,
    segment_Append a d rec = (a', d', Err e) /\
    baseOffset a' = baseOffset a /\ nextOffset a' = nextOffset a /\
    seg_named a' /\ active_ok d' c a' /\
    seg_index a' = seg_index a /\
    (forall t : store, store_kept t d d') /\
    indexes d' = indexes d /\
    (forall b, is_Some (stores d' !! b) <-> is_Some (stores d !! b)).
Proof.
  intros Hok Hnm Hr Hp Hfull.
  destruct (act_store _ _ _ Hok) as (sf & Hsf & Hsz).
  destruct Hnm as [Hsn Hxn]. rewrite <- Hsn in Hsf.
  assert (is_uint64 (nextOffset a)) as Hu by (unfold seg_range, is_uint64 in *; lia).
  pose proof (marshal_fits rec (nextOffset a) Hp Hu) as Hm.
  destruct (store_Read_Append (seg_store a) d sf _ Hsf Hsz Hm)
    as (st' & d1 & Hap & Hn' & Hsz' & Hd1s & Hd1i & _).
  unfold segment_Append. rewrite Hap.
  rewrite index_Write_full by (rewrite (act_mmap _ _ _ Hok); exact Hfull).
  eexists _, _, _. split; [reflexivity|].
  cbn [baseOffset nextOffset seg_store seg_index config].
  split; [reflexivity|]. split; [reflexivity|].
  split; [split; cbn [baseOffset nextOffset seg_store seg_index config];
          [rewrite Hn'; exact Hsn | exact Hxn]|].
  split.
  { constructor; cbn [baseOffset nextOffset seg_store seg_index config].
    - exact (act_config _ _ _ Hok).
    - exact (act_mmap _ _ _ Hok).
    - rewrite Hd1s, <- Hsn, lookup_insert_eq. eexists. split; [reflexivity|].
      exact Hsz'.
    - rewrite Hd1i. exact (act_index _ _ _ Hok).
    - exact (act_size_pos _ _ _ Hok).
    - exact (act_size _ _ _ Hok). }
  split; [reflexivity|].
  split; [intros t; exact (store_kept_Append t _ d d1 sf _ Hsf Hd1s)|].
  split; [exact Hd1i|].
  intros b. rewrite Hd1s. apply (is_Some_insert_same _ _ _ sf). exact Hsf.
Qed.

(** An append that fits: the record is stored, indexed and read back. *)
Lemma segment_Append_fit (a : segment) (d : dir) (c : Config) (rec : Record) :
  active_ok d c a -> seg_named a -> seg_range a -> payload_ok rec ->
  Config_ok c ->
  (forall b (f : file), indexes d !! b = Some f -> fsize f = MaxIndexBytes c) ->
  ix_size (seg_index a) + entWidth <= MaxIndexBytes c ->
  nextOffset a + 1 < 2 ^ 64 -> st_size (seg_store a) < 2 ^ 64 ->
  exists a' d',
    segment_Append a d rec = (a', d', Ok (nextOffset a)) /\
    baseOffset a' = baseOffset a /\ nextOffset a' = nextOffset a + 1 /\
    seg_named a' /\ active_ok d' c a' /\
    ix_size (seg_index a) <= ix_size (seg_index a') /\
    (forall t : store, store_kept t d d') /\
    (forall t : index,
       ix_name t <> baseOffset a \/ ix_size t <= ix_size (seg_index a) ->
       index_kept t d d') /\
    (forall b, is_Some (stores d' !! b) <-> is_Some (stores d !! b)) /\
    (forall b, is_Some (indexes d' !! b) <-> is_Some (indexes d !! b)) /\
    (forall b (f : file), indexes d' !! b = Some f -> fsize f = MaxIndexBytes c) /\
    segment_Read a' d' (nextOffset a) = Ok (mkRecord (Value rec) (nextOffset a)).
Proof.
  intros Hok Hnm Hr Hp Hc Hlen Hfit Hnext Hst.
  destruct (act_store _ _ _ Hok) as (sf & Hsf & Hsz).
  destruct (act_index _ _ _ Hok) as (xf & Hxf & _).
  pose proof (act_size _ _ _ Hok Hfit) as Hj.
  pose proof (act_mmap _ _ _ Hok) as Hmm.
  pose proof (act_size_pos _ _ _ Hok) as Hpos.
  pose proof (Hlen _ _ Hxf) as Hxlen.
  destruct Hnm as [Hsn Hxn]. rewrite <- Hsn in Hsf. rewrite <- Hxn in Hxf.
  destruct Hc as (_ & Hcap & _). unfold is_uint64 in Hcap.
  unfold seg_range in Hr.
  assert (is_uint64 (nextOffset a)) as Hu by (unfold is_uint64; lia).
  pose proof (marshal_fits rec (nextOffset a) Hp Hu) as Hm.
  destruct (store_Read_Append (seg_store a) d sf _ Hsf Hsz Hm)
    as (st' & d1 & Hap & Hn' & Hsz' & Hd1s & Hd1i & Hrd).
  set (j := nextOffset a - baseOffset a) in *.
  assert (0 <= j) as Hj0 by (unfold j; lia).
  rewrite <- Hd1i in Hxf.
  destruct (index_Read_Write (seg_index a) d1 xf j
              (wrap32 (wrap64 j)) (fsize sf) Hxf Hj Hj0
              ltac:(lia) ltac:(lia) ltac:(unfold fsize in *; lia))
    as (ix' & d2 & Hw & Hxn' & Hxsz' & Hxmm' & Hd2s & Hd2i & Hri).
  unfold segment_Append. rewrite Hap. fold j. rewrite Hw.
  assert (wrap64 (nextOffset a + 1) = nextOffset a + 1) as Hwr
    by (unfold wrap64; apply Z.mod_small; lia).
  rewrite Hwr.
  eexists _, _. split; [reflexivity|].
  cbn [baseOffset nextOffset seg_store seg_index config].
  split; [reflexivity|]. split; [reflexivity|].
  split; [split; cbn [baseOffset nextOffset seg_store seg_index config];
          [rewrite Hn'; exact Hsn | rewrite Hxn'; exact Hxn]|].
  rewrite Hd1i in Hd2i, Hxf.
  split.
  { constructor; cbn [baseOffset nextOffset seg_store seg_index config].
    - exact (act_config _ _ _ Hok).
    - rewrite Hxmm'. exact Hmm.
    - rewrite Hd2s, Hd1s, <- Hsn, lookup_insert_eq. eexists.
      split; [reflexivity | exact Hsz'].
    - rewrite Hd2i, <- Hxn, lookup_insert_eq. eexists.
      split; [reflexivity|]. intros Heq. lia.
    - rewrite Hxsz'. unfold entWidth, offWidth, posWidth. lia.
    - intros _. rewrite Hxsz', Hj. unfold j, entWidth, offWidth, posWidth. lia. }
  split; [rewrite Hxsz'; unfold entWidth, offWidth, posWidth; lia|].
  split.
  { intros t. eapply (store_kept_Append t (seg_store a) d d2 sf); [exact Hsf|].
    rewrite Hd2s. exact Hd1s. }
  split.
  { intros t Ht. eapply (index_kept_Write t d d2); [exact Hxf | exact Hd2i |].
    rewrite Hxn. exact Ht. }
  split.
  { intros b. rewrite Hd2s, Hd1s. apply (is_Some_insert_same _ _ _ sf). exact Hsf. }
  split.
  { intros b. rewrite Hd2i. apply (is_Some_insert_same _ _ _ xf). exact Hxf. }
  split.
  { intros b f Hf. rewrite Hd2i in Hf.
    destruct (decide (b = ix_name (seg_index a))) as [->|E].
    - rewrite lookup_insert_eq in Hf.
      assert (fsize (be_bytes 4 (wrap32 (wrap64 j)) ++ be_bytes 8 (fsize sf)) = 12)
        as He by (rewrite fsize_app, (fsize_be_bytes 4), (fsize_be_bytes 8); reflexivity).
      unfold entWidth, offWidth, posWidth in *.
      apply (inj Some) in Hf. rewrite <- Hf.
      rewrite fsize_write_at; [exact Hxlen | lia | rewrite He; lia].
    - rewrite lookup_insert_ne in Hf by done. exact (Hlen _ _ Hf). }
  unfold segment_Read. cbn [baseOffset nextOffset seg_store seg_index config].
  fold j. rewrite to_int64_small
    by (unfold entWidth, offWidth, posWidth in *; lia).
  rewrite Hri. rewrite (store_Read_ext st' d1 d2 _ Hd2s), Hrd.
  rewrite unmarshal_marshal by exact Hu. reflexivity.
Qed.

End SegmentAppend.

(** ** Updating the active segment in place *)

Lemma chain_replace_last (olds : list segment) (a a' : segment) :
  chain (olds ++ [a]) -> baseOffset a' = baseOffset a -> chain (olds ++ [a']).
Proof.
  intros Hc Hb. apply chain_app in Hc as (H1 & _ & H3). apply chain_app.
  split; [exact H1|]. split; [apply chain_singleton|].
  eapply Forall_impl; [exact H3|]. intros t Ht. simpl in Ht.
  rewrite Forall_singleton in Ht. apply Forall_singleton. rewrite Hb. exact Ht.
Qed.

Lemma update_active_inv (l : Log) (p : nat) (a a' : segment) (d' : dir)
    (olds : list segment) :
  log_inv l -> activeSegment l = Some p -> heap l !! p = Some a ->
  live l = olds ++ [a] ->
  live (mkLog d' (LConfig l) (<[p := a']> (heap l)) (activeSegment l) (segments l))
    = olds ++ [a'] ->
  baseOffset a' = baseOffset a ->
  nextOffset a <= nextOffset a' < 2 ^ 64 ->
  seg_named a' -> active_ok d' (LConfig l) a' ->
  (forall b, is_Some (stores d' !! b) <-> is_Some (stores (Dir l) !! b)) ->
  (forall b, is_Some (indexes d' !! b) <-> is_Some (indexes (Dir l) !! b)) ->
  (forall b (f : file), indexes d' !! b = Some f ->
                        fsize f = MaxIndexBytes (LConfig l)) ->
  log_inv (mkLog d' (LConfig l) (<[p := a']> (heap l)) (activeSegment l) (segments l)).
Proof.
  intros Hi Hp Ha Hl Hl' Hb Hn Hnm Hok Hds Hdi Hlen.
  destruct (log_inv_active l p a Hi Hp Ha) as (ps & Hs & _ & Hbel & _ & Hr & _).
  pose proof (inv_chain l Hi) as Hch. pose proof (inv_named l Hi) as Hnmd.
  pose proof (inv_range l Hi) as Hrg. rewrite Hl in Hch, Hnmd, Hrg.
  apply Forall_app in Hnmd as [Hnmd _]. apply Forall_app in Hrg as [Hrg _].
  constructor; cbn [Dir LConfig heap activeSegment segments].
  - exact (inv_cfg l Hi).
  - exact (inv_nodup l Hi).
  - eapply Forall_impl; [exact (inv_valid l Hi)|]. intros q Hq. simpl in *.
    apply lookup_lt_is_Some. rewrite length_insert.
    apply lookup_lt_is_Some. exact Hq.
  - exists ps, p, a'. split; [exact Hs|]. split; [exact Hp|].
    split; [apply list_lookup_insert_eq; eapply lookup_lt_Some; exact Ha|].
    split; [exact Hok|].
    intros b Hsome. rewrite Hb. apply Hbel, Hdi, Hsome.
  - rewrite Hl'. exact (chain_replace_last olds a a' Hch Hb).
  - rewrite Hl'. apply Forall_app. split; [exact Hnmd|].
    apply Forall_singleton. exact Hnm.
  - rewrite Hl'. apply Forall_app. split; [exact Hrg|].
    apply Forall_singleton. unfold seg_range in *. rewrite Hb. lia.
  - exact Hlen.
  - intros b Hsome. apply Hdi. apply (inv_stores l Hi). apply Hds. exact Hsome.
Qed.

Section LogReadKept.
Context `{codec : RecordCodec}.

(** A read that succeeded still succeeds, with the same record, after the
    last segment of the slice grew and files were appended to. *)
Lemma Log_Read_kept (l l' : Log) (olds : list segment) (a a' : segment)
    (off : Z) (r : Record) :
  live l = olds ++ [a] -> live l' = olds ++ [a'] ->
  chain (olds ++ [a]) -> Forall seg_range (olds ++ [a]) ->
  Forall seg_named (olds ++ [a]) ->
  baseOffset a' = baseOffset a -> nextOffset a <= nextOffset a' ->
  st_name (seg_store a') = st_name (seg_store a) ->
  ix_name (seg_index a') = ix_name (seg_index a) ->
  ix_size (seg_index a) <= ix_size (seg_index a') ->
  (forall t : store, store_kept t (Dir l) (Dir l')) ->
  (forall t : index,
     ix_name t <> baseOffset a \/ ix_size t <= ix_size (seg_index a) ->
     index_kept t (Dir l) (Dir l')) ->
  Log_Read_body l off = Ok r -> Log_Read_body l' off = Ok r.
Proof.
  intros Hl Hl' Hch Hrg Hnm Hb Hn Hsn Hxn Hsz Hsk Hik.
  unfold Log_Read_body. rewrite Hl, Hl', !find_app_covers.
  apply chain_app in Hch as (_ & _ & Hch).
  apply Forall_app in Hrg as [Hrgo Hrga]. rewrite Forall_singleton in Hrga.
  apply Forall_app in Hnm as [Hnmo Hnma]. rewrite Forall_singleton in Hnma.
  destruct (find (covers off) olds) as [t|] eqn:Ef.
  - apply find_covers_Some in Ef as [Ht Hc].
    destruct (nextOffset t <=? off); [done|]. intros H.
    rewrite Forall_forall in Hch, Hrgo, Hnmo.
    specialize (Hch t Ht). rewrite Forall_singleton in Hch.
    destruct (covers_rel t off (Hrgo t Ht) Hc) as (H0 & H1 & _ & Hrel).
    destruct (Hnmo t Ht) as [_ Htx].
    apply (segment_Read_kept t t (Dir l) (Dir l') off r H Hrel);
      [reflexivity | reflexivity | reflexivity | lia | | apply Hsk].
    apply Hik. left. rewrite Htx. lia.
  - simpl. destruct (covers off a) eqn:Hc; [|done].
    assert (covers off a' = true) as Hc'.
    { unfold covers in *. rewrite Hb.
      apply andb_true_iff in Hc as [H1 H2]. apply andb_true_iff.
      split; [exact H1|]. apply Z.ltb_lt in H2. apply Z.ltb_lt. lia. }
    rewrite Hc'.
    destruct (covers_rel a off Hrga Hc) as (H0 & H1 & _ & Hrel).
    destruct (nextOffset a <=? off) eqn:E; [done|].
    destruct (nextOffset a' <=? off) eqn:E'; [apply Z.leb_le in E'; lia|].
    intros H.
    apply (segment_Read_kept a a' (Dir l) (Dir l') off r H Hrel);
      [exact Hb | exact Hsn | exact Hxn | exact Hsz | | apply Hsk].
    apply Hik. right. lia.
Qed.

(** A record the last segment holds is what the log reads at its offset. *)
Lemma Log_Read_last (l : Log) (olds : list segment) (a : segment)
    (off : Z) (r : Record) :
  live l = olds ++ [a] -> chain (olds ++ [a]) ->
  baseOffset a <= off < nextOffset a ->
  segment_Read a (Dir l) off = Ok r ->
  Log_Read_body l off = Ok r.
Proof.
  intros Hl Hch Hoff Hr. unfold Log_Read_body. rewrite Hl, find_app_covers.
  apply chain_app in Hch as (_ & _ & Hch).
  rewrite find_covers_none.
  - simpl. unfold covers.
    destruct (baseOffset a <=? off) eqn:E1; [|apply Z.leb_gt in E1; lia].
    destruct (off <? nextOffset a) eqn:E2; [|apply Z.ltb_ge in E2; lia].
    simpl. destruct (nextOffset a <=? off) eqn:E3; [apply Z.leb_le in E3; lia|].
    exact Hr.
  - eapply Forall_impl; [exact Hch|]. intros t Ht. simpl in Ht.
    rewrite Forall_singleton in Ht. unfold covers.
    apply andb_false_iff. right. apply Z.ltb_ge. lia.
Qed.

End LogReadKept.

(** ** One append *)

Section AppendStep.
Context `{codec : RecordCodec}.

(** [l.activeSegment.Append(record)] under the invariant. *)
Lemma appendActive_step (l : Log) (p : nat) (a : segment) (rec : Record) :
  log_inv l -> activeSegment l = Some p -> heap l !! p = Some a ->
  payload_ok rec ->
  (ix_size (seg_index a) + entWidth <= MaxIndexBytes (LConfig l) ->
   nextOffset a + 1 < 2 ^ 64 /\ st_size (seg_store a) < 2 ^ 64) ->
  exists l' a' res,
    Log_appendActive l rec = Some (l', res) /\ log_inv l' /\
    LConfig l' = LConfig l /\ segments l' = segments l /\
    activeSegment l' = Some p /\ heap l' = <[p := a']> (heap l) /\
    baseOffset a' = baseOffset a /\
    (exists olds, live l = olds ++ [a] /\ live l' = olds ++ [a']) /\
    (forall off r, Log_Read_body l off = Ok r -> Log_Read_body l' off = Ok r) /\
    (ix_size (seg_index a) + entWidth <= MaxIndexBytes (LConfig l) ->
     is_ok res = true) /\
    match res with
    | Ok off => off = nextOffset a /\ nextOffset a' = nextOffset a + 1 /\
                Log_Read_body l' off = Ok (mkRecord (Value rec) off)
    | Err _ => nextOffset a' = nextOffset a
    end.
Proof.
  intros Hi Hp Ha Hpay Hroom.
  destruct (log_inv_active l p a Hi Hp Ha) as (ps & Hs & Hok & Hbel & Hl & Hr & Hnm).
  pose proof (inv_chain l Hi) as Hch. pose proof (inv_named l Hi) as Hnmd.
  pose proof (inv_range l Hi) as Hrg. rewrite Hl in Hch, Hnmd, Hrg.
  unfold Log_appendActive. rewrite Hp. simpl. rewrite Ha. simpl.
  destruct (Z_lt_le_dec (MaxIndexBytes (LConfig l))
              (ix_size (seg_index a) + entWidth)) as [Hfull | Hfit].
  - destruct (segment_Append_full a (Dir l) (LConfig l) rec Hok Hnm Hr Hpay Hfull)
      as (a' & d' & e & Hap & Hb & Hn & Hnm' & Hok' & Hix & Hsk & Hdi & Hds).
    rewrite Hap.
    pose proof (live_update l ps p a a' d' Hs (inv_nodup l Hi) Ha) as Hl'.
    rewrite <- Hp.
    assert (log_inv (mkLog d' (LConfig l) (<[p:=a']> (heap l))
                       (activeSegment l) (segments l))) as Hi'.
    { apply (update_active_inv l p a a' d' _ Hi Hp Ha Hl Hl' Hb); try assumption.
      - unfold seg_range in Hr. lia.
      - intros b. rewrite Hdi. reflexivity.
      - intros b f. rewrite Hdi. apply (inv_idxlen l Hi). }
    eexists _, a', _. split; [reflexivity|]. split; [exact Hi'|].
    cbn [Dir LConfig heap activeSegment segments].
    do 5 (split; [first [reflexivity | assumption]|]).
    split; [eexists; split; [exact Hl | exact Hl']|].
    split; [|split; [intros Hfit; lia | exact Hn]].
    intros off r. destruct Hnm as [Hsn Hxn]. destruct Hnm' as [Hsn' Hxn'].
    apply (Log_Read_kept l _ _ a a' off r Hl Hl' Hch Hrg Hnmd Hb);
      [lia | congruence | congruence | rewrite Hix; lia | exact Hsk |].
    intros t _. apply index_kept_same. exact Hdi.
  - destruct (Hroom Hfit) as [Hnext Hst].
    destruct (segment_Append_fit a (Dir l) (LConfig l) rec Hok Hnm Hr Hpay
                (inv_cfg l Hi) (inv_idxlen l Hi) Hfit Hnext Hst)
      as (a' & d' & Hap & Hb & Hn & Hnm' & Hok' & Hsz & Hsk & Hik & Hds & Hdi & Hlen & Hrd).
    rewrite Hap.
    pose proof (live_update l ps p a a' d' Hs (inv_nodup l Hi) Ha) as Hl'.
    rewrite <- Hp.
    assert (log_inv (mkLog d' (LConfig l) (<[p:=a']> (heap l))
                       (activeSegment l) (segments l))) as Hi'.
    { apply (update_active_inv l p a a' d' _ Hi Hp Ha Hl Hl' Hb); try assumption.
      unfold seg_range in Hr. lia. }
    eexists _, a', _. split; [reflexivity|]. split; [exact Hi'|].
    cbn [Dir LConfig heap activeSegment segments].
    do 5 (split; [first [reflexivity | assumption]|]).
    split; [eexists; split; [exact Hl | exact Hl']|].
    destruct Hnm as [Hsn Hxn]. destruct Hnm' as [Hsn' Hxn'].
    split.
    + intros off r.
      apply (Log_Read_kept l _ _ a a' off r Hl Hl' Hch Hrg Hnmd Hb);
        [lia | congruence | congruence | exact Hsz | exact Hsk | exact Hik].
    + split; [reflexivity|]. split; [reflexivity|]. split; [exact Hn|].
      apply (Log_Read_last _ _ a' _ _ Hl').
      * exact (chain_replace_last _ a a' Hch Hb).
      * unfold seg_range in Hr. lia.
      * exact Hrd.
Qed.

End AppendStep.

Lemma log_inv_has_active (l : Log) :
  log_inv l -> exists p a, activeSegment l = Some p /\ heap l !! p = Some a.
Proof.
  intros Hi. destruct (inv_active l Hi) as (ps & p & a & _ & Hp & Ha & _).
  eauto.
Qed.

Section AppendLog.
Context `{codec : RecordCodec}.

Lemma Log_Read_kept_rollover (l l1 : Log) (s : segment) (off : Z) (r : Record) :
  live l1 = live l ++ [s] -> Forall seg_range (live l) ->
  dir_incl (Dir l) (Dir l1) ->
  Log_Read_body l off = Ok r -> Log_Read_body l1 off = Ok r.
Proof.
  intros Hl Hrg [Hds Hdi]. unfold Log_Read_body. rewrite Hl, find_app_covers.
  destruct (find (covers off) (live l)) as [t|] eqn:Ef; [|done].
  apply find_covers_Some in Ef as [Ht Hc].
  destruct (nextOffset t <=? off); [done|]. intros H.
  rewrite Forall_forall in Hrg.
  destruct (covers_rel t off (Hrg t Ht) Hc) as (_ & _ & _ & Hrel).
  apply (segment_Read_kept t t (Dir l) (Dir l1) off r H Hrel);
    [reflexivity | reflexivity | reflexivity | lia | |].
  - intros xf Hx. exists xf. split; [apply Hdi, Hx | apply reads_kept_refl].
  - intros sf Hx. exists sf. split; [apply Hds, Hx | apply reads_kept_refl].
Qed.

(** [Log.Append] under the invariant: it returns, keeps the invariant and
    every readable record, and a returned offset is the active segment's
    next offset at entry, readable afterwards. *)
Lemma Log_Append_step (l : Log) (p : nat) (a : segment) (rec : Record) :
  log_inv l -> activeSegment l = Some p -> heap l !! p = Some a ->
  payload_ok rec -> nextOffset a + 1 < 2 ^ 64 ->
  exists l' p' a' res,
    Log_Append l rec = Some (l', res) /\ log_inv l' /\
    LConfig l' = LConfig l /\
    activeSegment l' = Some p' /\ heap l' !! p' = Some a' /\
    (if IsMaxed a
     then segments l' = segments l ++ [p'] /\ p' = length (heap l) /\
          baseOffset a' = nextOffset a /\
          length (heap l') = S (length (heap l)) /\
          live l' = live l ++ [a']
     else segments l' = segments l /\ p' = p /\ baseOffset a' = baseOffset a /\
          length (heap l') = length (heap l) /\
          exists olds, live l = olds ++ [a] /\ live l' = olds ++ [a']) /\
    nextOffset a <= nextOffset a' <= nextOffset a + 1 /\
    (forall off r, Log_Read_body l off = Ok r -> Log_Read_body l' off = Ok r) /\
    match res with
    | Ok off => off = nextOffset a /\ nextOffset a' = off + 1 /\
                Log_Read_body l' off = Ok (mkRecord (Value rec) off)
    | Err _ => True
    end.
Proof.
  intros Hi Hp Ha Hpay Hnext.
  destruct (log_inv_active l p a Hi Hp Ha) as (ps & Hs & Hok & Hbel & Hl & Hr & Hnm).
  pose proof (inv_cfg l Hi) as (Hcs & _ & _). unfold is_uint64 in Hcs.
  unfold Log_Append. rewrite Hp. cbn [mbind option_bind]. rewrite Ha.
  cbn [mbind option_bind].
  destruct (IsMaxed a) eqn:Hmax.
  - destruct (rollover_inv l p a Hi Hp Ha Hnext)
      as (l1 & s & Hns & Hi1 & Hc1 & Hh1 & Hs1 & Hp1 & Hl1 & Hb1 & Hn1 & Hfit1 & Hincl).
    rewrite Hns.
    assert (heap l1 !! length (heap l) = Some s) as Hs1'.
    { rewrite Hh1, lookup_app_r, Nat.sub_diag by lia. reflexivity. }
    destruct (appendActive_step l1 _ s rec Hi1 Hp1 Hs1' Hpay)
      as (l' & a' & res & Hap & Hi' & Hc' & Hsg' & Hp' & Hh' & Hb' & Hlv' & Hk' & Hfok & Hres).
    { rewrite Hc1. intros Hfit. destruct (Hfit1 Hfit) as [E1 E2]. lia. }
    rewrite Hap. exists l', (length (heap l)), a', res.
    split; [reflexivity|]. split; [exact Hi'|]. split; [congruence|].
    split; [exact Hp'|].
    split.
    { rewrite Hh'. apply list_lookup_insert_eq. eapply lookup_lt_Some. exact Hs1'. }
    split.
    { split; [congruence|]. split; [reflexivity|]. split; [congruence|].
      split; [rewrite Hh', length_insert, Hh1, length_app; simpl; lia|].
      destruct Hlv' as (olds & Ho & Ho'). rewrite Hl1 in Ho.
      apply app_inj_tail in Ho as [<- _]. exact Ho'. }
    assert (forall off r, Log_Read_body l off = Ok r -> Log_Read_body l' off = Ok r) as Hkept.
    { intros off r H. apply Hk'.
      exact (Log_Read_kept_rollover l l1 s off r Hl1 (inv_range l Hi) Hincl H). }
    destruct res as [off|e].
    + destruct Hres as (Hoff & Hn' & Hrd).
      assert (nextOffset s = nextOffset a) as Hsa.
      { destruct (Z_lt_le_dec (MaxIndexBytes (LConfig l))
                    (ix_size (seg_index s) + entWidth)) as [Hfull|Hfit].
        - exfalso.
          destruct (log_inv_active l1 _ s Hi1 Hp1 Hs1')
            as (_ & _ & Hoks & _ & _ & Hrs & Hnms).
          rewrite Hc1 in Hoks.
          destruct (segment_Append_full s (Dir l1) (LConfig l) rec
                      Hoks Hnms Hrs Hpay Hfull) as (x & y & e & He & _).
          unfold Log_appendActive in Hap. rewrite Hp1 in Hap. simpl in Hap.
          rewrite Hs1' in Hap. simpl in Hap. rewrite He in Hap. discriminate.
        - apply (Hfit1 Hfit). }
      split; [lia|]. split; [exact Hkept|].
      split; [congruence|]. split; [lia | exact Hrd].
    + split; [lia|]. split; [exact Hkept | exact I].
  - assert (st_size (seg_store a) < 2 ^ 64) as Hst.
    { unfold IsMaxed in Hmax. apply orb_false_iff in Hmax as [Hm _].
      apply Z.leb_gt in Hm. rewrite (act_config _ _ _ Hok) in Hm. lia. }
    destruct (appendActive_step l p a rec Hi Hp Ha Hpay ltac:(auto))
      as (l' & a' & res & Hap & Hi' & Hc' & Hsg' & Hp' & Hh' & Hb' & Hlv' & Hk' & Hfok & Hres).
    rewrite Hap. exists l', p, a', res.
    split; [reflexivity|]. split; [exact Hi'|]. split; [exact Hc'|].
    split; [exact Hp'|].
    split.
    { rewrite Hh'. apply list_lookup_insert_eq. eapply lookup_lt_Some. exact Ha. }
    split.
    { split; [exact Hsg'|]. split; [reflexivity|]. split; [exact Hb'|].
      split; [rewrite Hh', length_insert; reflexivity | exact Hlv']. }
    destruct res as [off|e].
    + destruct Hres as (Hoff & Hn' & Hrd).
      split; [lia|]. split; [exact Hk'|]. split; [exact Hoff|].
      split; [lia | exact Hrd].
    + split; [lia|]. split; [exact Hk' | exact I].
Qed.

End AppendLog.

(** ** A log over an empty directory *)

Lemma default_config_ok (c : Config) : Config_ok c -> Config_ok (default_config c).
Proof.
  unfold Config_ok, default_config, is_uint64. intros (H1 & H2 & H3).
  destruct (MaxStoreBytes c =? 0); simpl;
    destruct (MaxIndexBytes c =? 0); simpl; lia.
Qed.

Lemma default_config_store (c : Config) :
  MaxStoreBytes (default_config c) = MaxStoreBytes c.
Proof.
  unfold default_config.
  destruct (MaxStoreBytes c =? 0); simpl;
    destruct (MaxIndexBytes c =? 0); reflexivity.
Qed.

Lemma default_config_initial (c : Config) :
  InitialOffset (default_config c) = InitialOffset c.
Proof.
  unfold default_config.
  destruct (MaxStoreBytes c =? 0); simpl;
    destruct (MaxIndexBytes c =? 0); reflexivity.
Qed.

Lemma NewLog_empty (c : Config) :
  NewLog empty_dir c = Ok (fresh_log (default_config c)).
Proof. reflexivity. Qed.

Lemma fresh_log_inv (c : Config) : Config_ok c -> log_inv (fresh_log c).
Proof.
  intros Hc. pose proof Hc as (_ & Hcap & Hini). unfold is_uint64 in *.
  constructor; cbn [fresh_log Dir LConfig heap activeSegment segments].
  - exact Hc.
  - apply NoDup_singleton.
  - apply Forall_singleton. simpl. eauto.
  - exists [], O, (fresh_segment c).
    split; [reflexivity|]. split; [reflexivity|]. split; [reflexivity|].
    split.
    + constructor; cbn [fresh_segment baseOffset nextOffset seg_store seg_index
                          config st_size ix_size ix_mmap stores indexes].
      * reflexivity.
      * reflexivity.
      * rewrite lookup_singleton_eq. eexists. split; reflexivity.
      * rewrite lookup_singleton_eq. eexists. split; [reflexivity|].
        intros _. apply truncate_nil.
      * lia.
      * intros _. lia.
    + intros b [f Hf]. cbn [indexes] in Hf.
      apply lookup_singleton_Some in Hf as [<- _]. reflexivity.
  - change (chain [fresh_segment c]). apply chain_singleton.
  - change (Forall seg_named [fresh_segment c]).
    apply Forall_singleton. split; reflexivity.
  - change (Forall seg_range [fresh_segment c]).
    apply Forall_singleton. unfold seg_range. simpl. lia.
  - intros b f Hf. cbn [indexes] in Hf.
    apply lookup_singleton_Some in Hf as [_ <-].
    apply fsize_truncate. lia.
  - intros b [f Hf]. cbn [stores indexes] in *.
    apply lookup_singleton_Some in Hf as [<- _].
    rewrite lookup_singleton_eq. eauto.
Qed.

(** ** Sequences of appends *)

Lemma active_next_eq (l : Log) (p : nat) (a : segment) :
  activeSegment l = Some p -> heap l !! p = Some a ->
  active_next l = nextOffset a.
Proof. intros Hp Ha. unfold active_next. rewrite Hp, Ha. reflexivity. Qed.

Section AppendRuns.
Context `{codec : RecordCodec}.

Lemma appends_inv (rs : list Record) : forall l : Log,
  log_inv l -> Forall payload_ok rs ->
  active_next l + Z.of_nat (length rs) < 2 ^ 64 ->
  exists l' res,
    appends l rs = Some (l', res) /\ log_inv l' /\
    LConfig l' = LConfig l /\ length res = length rs /\
    active_next l <= active_next l' <= active_next l + Z.of_nat (length rs) /\
    (forall off r, Log_Read_body l off = Ok r -> Log_Read_body l' off = Ok r) /\
    (forall i rec off, rs !! i = Some rec -> res !! i = Some (Ok off) ->
       Log_Read_body l' off = Ok (mkRecord (Value rec) off)) /\
    (Forall (fun x => is_ok x = true) res ->
       res = Ok <$> seqZ (active_next l) (Z.of_nat (length rs))).
Proof.
  induction rs as [|rec rs IH]; intros l Hi Hpay Hb.
  - exists l, []. simpl. split; [reflexivity|]. split; [exact Hi|].
    split; [reflexivity|]. split; [reflexivity|]. split; [lia|].
    split; [auto|]. split; [intros i rec off H; done|]. intros _. reflexivity.
  - apply Forall_cons in Hpay as [Hp1 Hpay].
    destruct (log_inv_has_active l Hi) as (p & a & Hp & Ha).
    pose proof (active_next_eq l p a Hp Ha) as Hn.
    cbn [length] in Hb. rewrite Nat2Z.inj_succ in Hb.
    destruct (Log_Append_step l p a rec Hi Hp Ha Hp1 ltac:(lia))
      as (l1 & p1 & a1 & res1 & Hap & Hi1 & Hc1 & Hp1' & Ha1 & _ & Hn1 & Hk1 & Hres1).
    pose proof (active_next_eq l1 p1 a1 Hp1' Ha1) as Hn1'.
    destruct (IH l1 Hi1 Hpay ltac:(lia))
      as (l2 & ress & Haps & Hi2 & Hc2 & Hlen & Hn2 & Hk2 & Hrd2 & Hall).
    exists l2, (res1 :: ress). cbn [appends]. rewrite Hap.
    cbn [mbind option_bind]. rewrite Haps. cbn [mbind option_bind].
    split; [reflexivity|]. split; [exact Hi2|]. split; [congruence|].
    split; [simpl; congruence|].
    cbn [length]. rewrite Nat2Z.inj_succ.
    split; [lia|]. split; [auto|]. split.
    + intros [|i] rec' off Hrec Hoff; simpl in Hrec, Hoff.
      * injection Hrec as <-. injection Hoff as ->.
        destruct Hres1 as (-> & _ & Hrd). apply Hk2. exact Hrd.
      * exact (Hrd2 i rec' off Hrec Hoff).
    + intros Hok. apply Forall_cons in Hok as [Hok1 Hok].
      destruct res1 as [off|e]; [|discriminate].
      destruct Hres1 as (-> & Hn' & _).
      rewrite seqZ_cons by lia. rewrite fmap_cons. f_equal; [congruence|].
      rewrite (Hall Hok). f_equal. f_equal; lia.
Qed.

End AppendRuns.

(** ** The wire format round trip *)

Lemma decode_encode_varint (fuel : nat) : forall (z : Z) (rest : list byte),
  0 <= z < 128 ^ (Z.of_nat fuel + 1) ->
  Wire.decode_varint (Wire.encode_varint fuel z ++ rest) = Some (z, rest).
Proof.
  induction fuel as [|f IH]; intros z rest Hz.
  - simpl in *. rewrite Z_of_byte_of_Z, Z.mod_small by lia.
    destruct (z <? 128) eqn:E; [reflexivity | apply Z.ltb_ge in E; lia].
  - cbn [Wire.encode_varint]. destruct (z <? 128) eqn:E.
    + apply Z.ltb_lt in E. simpl. rewrite Z_of_byte_of_Z, Z.mod_small by lia.
      destruct (z <? 128) eqn:E'; [reflexivity | apply Z.ltb_ge in E'; lia].
    + apply Z.ltb_ge in E.
      pose proof (Z.mod_pos_bound z 128 ltac:(lia)) as Hm.
      cbn [app Wire.decode_varint].
      rewrite Z_of_byte_of_Z, Z.mod_small by lia.
      destruct (z mod 128 + 128 <? 128) eqn:E'; [apply Z.ltb_lt in E'; lia|].
      rewrite IH.
      * f_equal. f_equal. pose proof (Z.div_mod z 128 ltac:(lia)). lia.
      * rewrite Nat2Z.inj_succ in Hz.
        replace (Z.succ (Z.of_nat f) + 1) with (Z.succ (Z.of_nat f + 1)) in Hz by lia.
        rewrite Z.pow_succ_r in Hz by lia.
        split; [apply Z.div_pos; lia|].
        apply Z.div_lt_upper_bound; lia.
Qed.

Lemma decode_varint_varint (z : Z) (rest : list byte) :
  0 <= z -> Wire.decode_varint (Wire.varint z ++ rest) = Some (z, rest).
Proof.
  intros Hz. apply decode_encode_varint. split; [exact Hz|].
  rewrite Z2Nat.id by apply Z.log2_nonneg.
  destruct (Z.eq_dec z 0) as [->|Hne]; [reflexivity|].
  pose proof (Z.log2_spec z ltac:(lia)) as [_ Hs].
  eapply Z.lt_le_trans; [exact Hs|].
  replace (Z.succ (Z.log2 z)) with (Z.log2 z + 1) by lia.
  apply Z.pow_le_mono_l. lia.
Qed.

Lemma encode_varint_length (fuel : nat) (z : Z) :
  (length (Wire.encode_varint fuel z) <= fuel + 1)%nat.
Proof.
  revert z. induction fuel as [|f IH]; intros z; simpl; [lia|].
  destruct (z <? 128); simpl; [lia|]. specialize (IH (z / 128)). lia.
Qed.

Lemma varint_size (z : Z) : 0 <= z -> fsize (Wire.varint z) <= Z.log2 z + 1.
Proof.
  intros Hz. unfold fsize, Wire.varint.
  pose proof (encode_varint_length (Z.to_nat (Z.log2 z)) z).
  pose proof (Z.log2_nonneg z). lia.
Qed.

Lemma parse_value_field (fuel : nat) (v rest : list byte) (acc : Record) :
  Wire.parse_fields (S fuel)
    (Wire.tag_value :: Wire.varint (fsize v) ++ v ++ rest) acc
  = Wire.parse_fields fuel rest (mkRecord v (Offset acc)).
Proof.
  cbn [Wire.parse_fields].
  rewrite decode_varint_varint by (unfold fsize; lia).
  change (Z_of_byte Wire.tag_value =? 10) with true. cbv iota.
  destruct (fsize v <=? fsize (v ++ rest)) eqn:E.
  - unfold fsize. rewrite Nat2Z.id, drop_app_length, take_app_length. reflexivity.
  - apply Z.leb_gt in E. rewrite fsize_app in E. unfold fsize in E. lia.
Qed.

Lemma parse_offset_field (fuel : nat) (z : Z) (rest : list byte) (acc : Record) :
  0 <= z ->
  Wire.parse_fields (S fuel) (Wire.tag_offset :: Wire.varint z ++ rest) acc
  = Wire.parse_fields fuel rest (mkRecord (Value acc) z).
Proof.
  intros Hz. cbn [Wire.parse_fields].
  rewrite decode_varint_varint by exact Hz. reflexivity.
Qed.

Lemma parse_fields_nil (fuel : nat) (acc : Record) :
  Wire.parse_fields fuel [] acc = Some acc.
Proof. destruct fuel; reflexivity. Qed.

Lemma wire_parse_encode (fuel : nat) (r : Record) :
  0 <= Offset r -> (2 <= fuel)%nat ->
  Wire.parse_fields fuel (Wire.encode r) (mkRecord [] 0) = Some r.
Proof.
  intros Ho Hf. destruct r as [v o]. cbn [Offset] in Ho.
  destruct fuel as [|[|fuel]]; [lia | lia |].
  unfold Wire.encode. cbn [Value Offset].
  destruct v as [|b v]; destruct (o =? 0) eqn:E.
  - apply Z.eqb_eq in E as ->. reflexivity.
  - assert ([] ++ Wire.tag_offset :: Wire.varint o
            = Wire.tag_offset :: Wire.varint o ++ []) as ->
      by (rewrite app_nil_r; reflexivity).
    rewrite parse_offset_field by exact Ho. apply parse_fields_nil.
  - apply Z.eqb_eq in E as ->.
    assert ((Wire.tag_value :: Wire.varint (fsize (b :: v)) ++ b :: v) ++ []
            = Wire.tag_value :: Wire.varint (fsize (b :: v)) ++ (b :: v) ++ []) as ->
      by (rewrite !app_nil_r; reflexivity).
    rewrite parse_value_field. apply parse_fields_nil.
  - assert ((Wire.tag_value :: Wire.varint (fsize (b :: v)) ++ b :: v)
              ++ Wire.tag_offset :: Wire.varint o
            = Wire.tag_value :: Wire.varint (fsize (b :: v)) ++ (b :: v)
                ++ (Wire.tag_offset :: Wire.varint o ++ [])) as ->
      by (rewrite app_nil_r; cbn [app]; rewrite <- app_assoc; reflexivity).
    rewrite parse_value_field, parse_offset_field by exact Ho.
    apply parse_fields_nil.
Qed.

Lemma wire_decode_encode (r : Record) :
  is_uint64 (Offset r) -> Wire.decode (Wire.encode r) = Some r.
Proof.
  intros [Ho _]. unfold Wire.decode.
  destruct (le_lt_dec 2 (length (Wire.encode r))) as [H|H].
  - apply wire_parse_encode; assumption.
  - destruct r as [v o]. unfold Wire.encode in *. cbn [Value Offset] in *.
    destruct v as [|b v]; destruct (o =? 0) eqn:E.
    + apply Z.eqb_eq in E as ->. reflexivity.
    + cbn [app length] in H.
      destruct (Wire.varint o) as [|x xs] eqn:Ev; [|cbn [length] in H; lia].
      pose proof (decode_varint_varint o [] (proj1 (conj Ho I))) as Hd.
      rewrite Ev in Hd. discriminate.
    + rewrite length_app in H. cbn [length] in H. rewrite length_app in H.
      cbn [length] in H. lia.
    + rewrite length_app in H. cbn [length] in H. rewrite length_app in H.
      cbn [length] in H. lia.
Qed.

Lemma wire_encode_size (r : Record) :
  is_uint64 (Offset r) -> fsize (Wire.encode r) <= 2 * fsize (Value r) + 128.
Proof.
  intros [Ho Hlt]. unfold Wire.encode.
  assert (fsize (Wire.varint (Offset r)) <= 64) as Hvo.
  { pose proof (varint_size (Offset r) Ho) as H.
    destruct (Z.eq_dec (Offset r) 0) as [E|E]; [rewrite E in *; simpl in *; lia|].
    assert (Z.log2 (Offset r) < 64) by (apply Z.log2_lt_pow2; lia). lia. }
  assert (fsize (Wire.varint (fsize (Value r))) <= fsize (Value r) + 1) as Hvl.
  { pose proof (varint_size (fsize (Value r)) ltac:(unfold fsize; lia)) as H.
    pose proof (Z.log2_le_lin (fsize (Value r)) ltac:(unfold fsize; lia)). lia. }
  rewrite fsize_app.
  assert (fsize (if Offset r =? 0 then []
                 else Wire.tag_offset :: Wire.varint (Offset r)) <= 65) as H2.
  { destruct (Offset r =? 0); [unfold fsize; simpl; lia|].
    unfold fsize in *. cbn [length]. lia. }
  assert (fsize match Value r with
                | [] => []
                | _ :: _ => Wire.tag_value :: Wire.varint (fsize (Value r)) ++ Value r
                end <= 2 * fsize (Value r) + 2) as H1.
  { destruct (Value r) as [|b v] eqn:Ev; [unfold fsize; simpl; lia|].
    unfold fsize in *. cbn [length] in *. rewrite length_app. cbn [length]. lia. }
  lia.
Qed.

(** The protobuf codec of [Record]. *)
#[export] Instance wire_codec : RecordCodec :=
  Build_RecordCodec Wire.encode Wire.decode wire_decode_encode wire_encode_size.

(** ** Limits that leave room for a record *)

Lemma IsMaxed_spec (s : segment) :
  IsMaxed s = true <->
  MaxStoreBytes (config s) <= st_size (seg_store s) \/
  MaxIndexBytes (config s) < ix_size (seg_index s) + entWidth.
Proof.
  unfold IsMaxed. rewrite orb_true_iff, Z.leb_le, Z.ltb_lt. reflexivity.
Qed.


Section RoomyRuns.
Context `{codec : RecordCodec}.

Lemma Log_Append_roomy (l : Log) (p : nat) (a : segment) (rec : Record)
    (l' : Log) (res : result Z) :
  log_inv l -> activeSegment l = Some p -> heap l !! p = Some a ->
  payload_ok rec -> nextOffset a + 1 < 2 ^ 64 ->
  roomy (LConfig l) -> active_clean l ->
  Log_Append l rec = Some (l', res) -> is_ok res = true.
Proof.
  intros Hi Hp Ha Hpay Hnext [Hst Hix] Hclean.
  destruct (log_inv_active l p a Hi Hp Ha) as (ps & Hs & Hok & Hbel & Hl & Hr & Hnm).
  pose proof (inv_cfg l Hi) as (Hcs & _ & _). unfold is_uint64 in Hcs.
  pose proof (act_config _ _ _ Hok) as Hcfg.
  unfold Log_Append. rewrite Hp. cbn [mbind option_bind]. rewrite Ha.
  cbn [mbind option_bind].
  destruct (IsMaxed a) eqn:Hmax.
  - assert (baseOffset a < nextOffset a) as Hne.
    { unfold seg_range in Hr.
      destruct (Z.eq_dec (nextOffset a) (baseOffset a)) as [E|E]; [|lia].
      destruct (Hclean p a Hp Ha E) as [E1 E2].
      apply IsMaxed_spec in Hmax. rewrite Hcfg, E1, E2 in Hmax.
      unfold entWidth, offWidth, posWidth in *. lia. }
    assert (indexes (Dir l) !! nextOffset a = None) as Hnone.
    { destruct (indexes (Dir l) !! nextOffset a) eqn:E; [|reflexivity].
      pose proof (Hbel (nextOffset a) ltac:(rewrite E; eauto)). lia. }
    destruct (rollover_inv l p a Hi Hp Ha Hnext)
      as (l1 & s & Hns & Hi1 & Hc1 & Hh1 & Hs1 & Hp1 & Hl1 & Hb1 & Hn1 & Hfit1 & Hincl).
    rewrite Hns.
    assert (heap l1 !! length (heap l) = Some s) as Hs1'.
    { rewrite Hh1, lookup_app_r, Nat.sub_diag by lia. reflexivity. }
    assert (ix_size (seg_index s) = 0) as Hz.
    { destruct (newSegment_shape (Dir l) (nextOffset a) (LConfig l))
        as (s0 & d2 & Hns0 & _ & _ & _ & _ & Hsz & _).
      unfold Log_newSegment in Hns. rewrite Hns0 in Hns. injection Hns as <-.
      cbn [heap] in Hh1. apply app_inj_tail in Hh1 as [_ ->].
      rewrite Hsz, Hnone. reflexivity. }
    destruct (appendActive_step l1 _ s rec Hi1 Hp1 Hs1' Hpay)
      as (l2 & a' & res2 & Hap & _ & _ & _ & _ & _ & _ & _ & _ & Hfok & _).
    { rewrite Hc1. intros Hfit. destruct (Hfit1 Hfit) as [E1 E2]. lia. }
    rewrite Hap. intros [= <- <-]. apply Hfok. rewrite Hc1, Hz. lia.
  - apply orb_false_iff in Hmax as [Hm1 Hm2].
    apply Z.leb_gt in Hm1. apply Z.ltb_ge in Hm2. rewrite Hcfg in Hm1, Hm2.
    destruct (appendActive_step l p a rec Hi Hp Ha Hpay ltac:(intros _; lia))
      as (l2 & a' & res2 & Hap & _ & _ & _ & _ & _ & _ & _ & _ & Hfok & _).
    rewrite Hap. intros [= <- <-]. apply Hfok. exact Hm2.
Qed.

Lemma appends_roomy (rs : list Record) : forall (l l' : Log) (res : list (result Z)),
  log_inv l -> roomy (LConfig l) -> active_clean l -> Forall payload_ok rs ->
  active_next l + Z.of_nat (length rs) < 2 ^ 64 ->
  appends l rs = Some (l', res) -> Forall (fun x => is_ok x = true) res.
Proof.
  induction rs as [|rec rs IH]; intros l l' res Hi Hroom Hclean Hpay Hb Hap.
  - simpl in Hap. injection Hap as <- <-. constructor.
  - apply Forall_cons in Hpay as [Hp1 Hpay].
    destruct (log_inv_has_active l Hi) as (p & a & Hp & Ha).
    pose proof (active_next_eq l p a Hp Ha) as Hn.
    cbn [length] in Hb. rewrite Nat2Z.inj_succ in Hb.
    destruct (log_inv_active l p a Hi Hp Ha) as (_ & _ & _ & _ & _ & Hr & _).
    destruct (Log_Append_step l p a rec Hi Hp Ha Hp1 ltac:(lia))
      as (l1 & p1 & a1 & res1 & Hap1 & Hi1 & Hc1 & Hp1' & Ha1 & Hmax & Hn1 & _ & Hres1).
    pose proof (Log_Append_roomy l p a rec l1 res1 Hi Hp Ha Hp1 ltac:(lia)
                  Hroom Hclean Hap1) as Hok1.
    cbn [appends] in Hap. rewrite Hap1 in Hap. cbn [mbind option_bind] in Hap.
    destruct (appends l1 rs) as [[l2 ress]|] eqn:Haps; [|discriminate].
    cbn [mbind option_bind] in Hap. injection Hap as <- <-.
    constructor; [exact Hok1|].
    destruct res1 as [off|e]; [|discriminate].
    destruct Hres1 as (-> & Hn' & _).
    pose proof (active_next_eq l1 p1 a1 Hp1' Ha1) as Hn1'.
    apply (IH l1 l2 ress Hi1); [rewrite Hc1; exact Hroom | | exact Hpay | lia | exact Haps].
    intros q b Hq Hb' Hempty. rewrite Hp1' in Hq. injection Hq as <-.
    rewrite Ha1 in Hb'. injection Hb' as <-.
    unfold seg_range in Hr.
    destruct (IsMaxed a); destruct Hmax as (_ & _ & Hbase & _); lia.
Qed.

End RoomyRuns.

(** ** Appending and reading back *)

Section AppendRead.
Context `{codec : RecordCodec}.

(** C2: on a log created over an empty directory with initial offset 0,
    [N] append calls that all succeed return exactly 0, 1, ..., N-1 in
    order, and they all succeed when the limits leave room for a record;
    in every state of such a log an append that succeeds returns the active
    segment's next offset at entry and leaves the next offset of the
    segment that is active afterwards one above it, rollover or not. *)
Theorem append_offsets_sequential (c : Config) (rs : list Record) :
  Config_ok c -> InitialOffset c = 0 -> Forall payload_ok rs ->
  Z.of_nat (length rs) < 2 ^ 64 ->
  exists l l' res,
    NewLog empty_dir c = Ok l /\ appends l rs = Some (l', res) /\
    (Forall (fun x => is_ok x = true) res ->
     res = Ok <$> seqZ 0 (Z.of_nat (length rs))) /\
    (roomy (default_config c) ->
     res = Ok <$> seqZ 0 (Z.of_nat (length rs))) /\
    (forall (m : Log) (rec : Record),
       log_inv m -> payload_ok rec -> active_next m + 1 < 2 ^ 64 ->
       exists m' res1, Log_Append m rec = Some (m', res1) /\
         forall off, res1 = Ok off ->
           off = active_next m /\ active_next m' = off + 1).
Proof.
  intros Hc Hi0 Hpay Hlen.
  pose proof (fresh_log_inv _ (default_config_ok c Hc)) as Hinv.
  assert (active_next (fresh_log (default_config c)) = 0) as Hn0.
  { unfold active_next. simpl. rewrite default_config_initial. exact Hi0. }
  destruct (appends_inv rs (fresh_log (default_config c)) Hinv Hpay
              ltac:(rewrite Hn0; lia))
    as (l' & res & Hap & _ & _ & _ & _ & _ & _ & Hall).
  exists (fresh_log (default_config c)), l', res.
  split; [apply NewLog_empty|]. split; [exact Hap|].
  split; [rewrite <- Hn0; exact Hall|].
  split.
  { intros Hroom. rewrite <- Hn0. apply Hall.
    apply (appends_roomy rs _ l' res Hinv Hroom); [| exact Hpay | lia | exact Hap].
    intros q b Hq Hb _. cbn [fresh_log activeSegment heap] in Hq, Hb.
    injection Hq as <-. injection Hb as <-. split; reflexivity. }
  intros m rec Hm Hp Hb.
  destruct (log_inv_has_active m Hm) as (p & a & Hpa & Ha).
  pose proof (active_next_eq m p a Hpa Ha) as Hn.
  destruct (Log_Append_step m p a rec Hm Hpa Ha Hp ltac:(lia))
    as (m' & p' & a' & res1 & Hap1 & _ & _ & Hp' & Ha' & _ & _ & _ & Hres).
  exists m', res1. split; [exact Hap1|]. intros off ->.
  destruct Hres as (-> & Hn' & _).
  rewrite (active_next_eq m' p' a' Hp' Ha'). split; [symmetry; exact Hn | lia].
Qed.

Lemma appended_records_stored (c : Config) (rs : list Record) :
  Config_ok c -> Forall payload_ok rs ->
  InitialOffset c + Z.of_nat (length rs) < 2 ^ 64 ->
  (exists l l' res,
     NewLog empty_dir c = Ok l /\ appends l rs = Some (l', res) /\
     log_inv l' /\
     forall i rec off,
       rs !! i = Some rec -> res !! i = Some (Ok off) ->
       Log_Read_body l' off = Ok (mkRecord (Value rec) off)) /\
  (forall m : Log,
     log_inv m -> active_next m + Z.of_nat (length rs) < 2 ^ 64 ->
     exists m' res,
       appends m rs = Some (m', res) /\ log_inv m' /\
       (forall i rec off,
          rs !! i = Some rec -> res !! i = Some (Ok off) ->
          Log_Read_body m' off = Ok (mkRecord (Value rec) off)) /\
       (forall off r, Log_Read_body m off = Ok r -> Log_Read_body m' off = Ok r)).
Proof.
  intros Hc Hpay Hlen. split.
  - pose proof (fresh_log_inv _ (default_config_ok c Hc)) as Hinv.
    assert (active_next (fresh_log (default_config c)) = InitialOffset c) as Hn0.
    { unfold active_next. simpl. apply default_config_initial. }
    destruct (appends_inv rs (fresh_log (default_config c)) Hinv Hpay
                ltac:(rewrite Hn0; lia))
      as (l' & res & Hap & Hi' & _ & _ & _ & _ & Hrd & _).
    exists (fresh_log (default_config c)), l', res.
    split; [apply NewLog_empty|]. split; [exact Hap|].
    split; [exact Hi' | exact Hrd].
  - intros m Hm Hb.
    destruct (appends_inv rs m Hm Hpay Hb)
      as (m' & res & Hap & Hi' & _ & _ & _ & Hk & Hrd & _).
    exists m', res. auto.
Qed.

(** C1: on a log created over an empty directory, after any sequence of
    append calls, the log holds at every offset that one of them returned
    the payload appended by that call, stamped with that offset: the segment
    that the scan of [Log.Read] selects reads it.  [Log.Read] itself never
    returns it: on a free mutex the deferred [RUnlock] raises the fatal
    error after the record was read, and on a taken mutex the call waits. *)
Theorem read_returns_appended (c : Config) (rs : list Record) :
  Config_ok c -> Forall payload_ok rs ->
  InitialOffset c + Z.of_nat (length rs) < 2 ^ 64 ->
  exists l l' res,
    NewLog empty_dir c = Ok l /\ appends l rs = Some (l', res) /\
    forall i rec off,
      rs !! i = Some rec -> res !! i = Some (Ok off) ->
      record_at l' off (mkRecord (Value rec) off) /\
      Log_Read Mutex.unlocked l' off
      = Aborts (Ok (mkRecord (Value rec) off)) /\
      forall mu r mu', Log_Read mu l' off <> Returned r mu'.
Proof.
  intros Hc Hpay Hlen.
  destruct (appended_records_stored c rs Hc Hpay Hlen)
    as ((l & l' & res & Hn & Hap & _ & Hrd) & _).
  exists l, l', res. split; [exact Hn|]. split; [exact Hap|].
  intros i rec off Hi Hr. pose proof (Hrd i rec off Hi Hr) as Hb.
  split; [apply Log_Read_body_Ok; exact Hb|].
  unfold Log_Read. rewrite guarded_RUnlock_unlocked, Hb.
  split; [reflexivity|]. intros mu r mu'. apply guarded_RUnlock_no_return.
Qed.

End AppendRead.

Lemma hello_payload_ok : payload_ok hello.
Proof. unfold payload_ok, fsize. simpl. lia. Qed.

Lemma zero_config_ok : Config_ok (mkConfig 0 0 0).
Proof. unfold Config_ok, is_uint64. simpl. lia. Qed.

Lemma test_config_ok : Config_ok (mkConfig 32 0 0).
Proof. unfold Config_ok, is_uint64. simpl. lia. Qed.

Lemma append_offsets_sequential_witness :
  exists l l' res,
    NewLog empty_dir (mkConfig 32 0 0) = Ok l /\
    appends l [hello; hello; hello] = Some (l', res) /\
    res = [Ok 0; Ok 1; Ok 2].
Proof.
  destruct (append_offsets_sequential (mkConfig 32 0 0) [hello; hello; hello]
              test_config_ok eq_refl
              ltac:(repeat constructor; exact hello_payload_ok)
              ltac:(simpl; lia))
    as (l & l' & res & Hn & Hap & Hseq & _).
  exists l, l', res. split; [exact Hn|]. split; [exact Hap|].
  apply Hseq.
  rewrite NewLog_empty in Hn. injection Hn as <-.
  vm_compute in Hap. injection Hap as <- <-.
  repeat constructor.
Defined.

Lemma read_returns_appended_witness :
  exists l l' res,
    NewLog empty_dir (mkConfig 32 0 0) = Ok l /\
    appends l [hello; hello; hello] = Some (l', res) /\
    res !! 1%nat = Some (Ok 1) /\
    record_at l' 1 (mkRecord (Value hello) 1) /\
    Log_Read Mutex.unlocked l' 1 = Aborts (Ok (mkRecord (Value hello) 1)).
Proof.
  destruct (read_returns_appended (mkConfig 32 0 0) [hello; hello; hello]
              test_config_ok
              ltac:(repeat constructor; exact hello_payload_ok)
              ltac:(simpl; lia))
    as (l & l' & res & Hn & Hap & Hrd).
  exists l, l', res. split; [exact Hn|]. split; [exact Hap|].
  assert (res !! 1%nat = Some (Ok 1)) as H1.
  { rewrite NewLog_empty in Hn. injection Hn as <-.
    vm_compute in Hap. injection Hap as <- <-. reflexivity. }
  split; [exact H1|].
  destruct (Hrd 1%nat hello 1 eq_refl H1) as (Ha & Hb & _).
  split; [exact Ha | exact Hb].
Defined.

(** The log of the examples: three records appended with
    [MaxStoreBytes = 32], which rolls over once. *)
Definition example_log : Log :=
  match appends (fresh_log (default_config (mkConfig 32 0 0)))
          [hello; hello; hello] with
  | Some (l, _) => l
  | None => fresh_log (mkConfig 32 0 0)
  end.

Lemma lowest_highest_offset_witness :
  Log_LowestOffset Mutex.unlocked example_log = Aborts (Some (Ok 0)) /\
  Log_HighestOffset Mutex.unlocked example_log = Aborts (Some (Ok 2)).
Proof.
  pose (first := default (fresh_segment (mkConfig 32 0 0)) (head (live example_log))).
  pose (last_ := default (fresh_segment (mkConfig 32 0 0)) (last (live example_log))).
  destruct (lowest_highest_offset example_log first last_) as (H1 & H2 & _).
  - vm_compute. reflexivity.
  - vm_compute. reflexivity.
  - unfold is_uint64. vm_compute. split; [discriminate | reflexivity].
  - split; [exact H1 | exact H2].
Defined.

Lemma example_log_inv : log_inv example_log.
Proof.
  pose proof (fresh_log_inv _ (default_config_ok _ test_config_ok)) as Hinv.
  destruct (appends_inv [hello; hello; hello] _ Hinv
              ltac:(repeat constructor; exact hello_payload_ok)
              ltac:(vm_compute; reflexivity))
    as (l' & res & Hap & Hi & _).
  unfold example_log. rewrite Hap. exact Hi.
Qed.

Lemma read_out_of_range_witness :
  Log_Read Mutex.unlocked example_log 3 = Aborts (Err (ErrOffsetOutOfRange 3)).
Proof.
  destruct (read_out_of_range example_log 3) as (_ & H & _).
  apply H. vm_compute. repeat constructor.
Defined.

(** ** Rollover *)

Section Rollover.
Context `{codec : RecordCodec}.

(** C5: when the active segment is maxed (store size at or above
    [MaxStoreBytes], or index size plus one entry width above
    [MaxIndexBytes]) the next append first creates a segment whose base
    offset is the old active segment's next offset, makes it the active
    one and appends there; when it is not maxed, no segment is created.
    The records the log held stay where they were; when the call returns
    an offset, it is the old next offset and the new active segment holds
    the record there; and the call does return it when the limits leave
    room for a record and the active segment is not an empty one over used
    files. *)
Theorem rollover_when_maxed (l : Log) (rec : Record) (p : nat) (a : segment) :
  log_inv l -> activeSegment l = Some p -> heap l !! p = Some a ->
  payload_ok rec -> nextOffset a + 1 < 2 ^ 64 ->
  (IsMaxed a = true <->
   MaxStoreBytes (config a) <= st_size (seg_store a) \/
   MaxIndexBytes (config a) < ix_size (seg_index a) + entWidth) /\
  exists l' p' a' res,
    Log_Append l rec = Some (l', res) /\
    activeSegment l' = Some p' /\ heap l' !! p' = Some a' /\
    (IsMaxed a = true ->
     segments l' = segments l ++ [p'] /\ p' = length (heap l) /\
     length (heap l') = S (length (heap l)) /\
     baseOffset a' = nextOffset a /\ live l' = live l ++ [a']) /\
    (IsMaxed a = false ->
     segments l' = segments l /\ p' = p /\
     length (heap l') = length (heap l)) /\
    (forall off r, record_at l off r -> record_at l' off r) /\
    (forall off, res = Ok off ->
       off = nextOffset a /\
       baseOffset a' <= off < nextOffset a' /\
       find (covers off) (live l') = Some a' /\
       segment_Read a' (Dir l') off = Ok (mkRecord (Value rec) off)) /\
    (roomy (LConfig l) -> active_clean l -> res = Ok (nextOffset a)).
Proof.
  intros Hi Hp Ha Hpay Hnext. split; [apply IsMaxed_spec|].
  destruct (log_inv_active l p a Hi Hp Ha) as (_ & _ & _ & _ & _ & Hr & _).
  destruct (Log_Append_step l p a rec Hi Hp Ha Hpay Hnext)
    as (l' & p' & a' & res & Hap & Hi' & _ & Hp' & Ha' & Hmax & Hn & Hk & Hres).
  exists l', p', a', res.
  split; [exact Hap|]. split; [exact Hp'|]. split; [exact Ha'|].
  split; [|split; [|split; [|split]]].
  - intros E. rewrite E in Hmax.
    destruct Hmax as (H1 & H2 & H3 & H4 & H5). auto.
  - intros E. rewrite E in Hmax.
    destruct Hmax as (H1 & H2 & H3 & H4 & H5). auto.
  - intros off r H. apply Log_Read_body_Ok, Hk, Log_Read_body_Ok, H.
  - intros off ->. destruct Hres as (-> & Hn' & Hrd).
    split; [reflexivity|].
    assert (baseOffset a' <= nextOffset a < nextOffset a') as Hin.
    { unfold seg_range in Hr.
      destruct (IsMaxed a); destruct Hmax as (_ & _ & Hb & _); lia. }
    split; [exact Hin|].
    apply Log_Read_body_Ok in Hrd as (s & Hf & Hrd).
    assert (s = a') as ->; [|split; [exact Hf | exact Hrd]].
    destruct (find_covers_Some _ _ _ Hf) as [Hs Hc].
    apply andb_true_iff in Hc as [Hc1 Hc2].
    apply Z.leb_le in Hc1. apply Z.ltb_lt in Hc2.
    destruct (log_inv_active l' p' a' Hi' Hp' Ha')
      as (ps' & Hs' & _ & _ & Hl' & _ & _).
    rewrite Hl' in Hs. apply elem_of_app in Hs as [Hs | Hs].
    + pose proof (inv_chain l' Hi') as Hch. rewrite Hl' in Hch.
      apply chain_app in Hch as (_ & _ & Hch).
      rewrite Forall_forall in Hch. specialize (Hch s Hs).
      rewrite Forall_singleton in Hch. lia.
    + apply list_elem_of_singleton in Hs. exact Hs.
  - intros Hroom Hclean.
    pose proof (Log_Append_roomy l p a rec l' res Hi Hp Ha Hpay Hnext
                  Hroom Hclean Hap) as Hok.
    destruct res as [off|e]; [|discriminate].
    destruct Hres as (-> & _). reflexivity.
Qed.

End Rollover.

(** The log of the examples one append earlier: its only segment is maxed
    (44 bytes stored against [MaxStoreBytes = 32]). *)
Definition example_log2 : Log :=
  match appends (fresh_log (default_config (mkConfig 32 0 0))) [hello; hello] with
  | Some (l, _) => l
  | None => fresh_log (mkConfig 32 0 0)
  end.

Lemma example_log2_inv : log_inv example_log2.
Proof.
  pose proof (fresh_log_inv _ (default_config_ok _ test_config_ok)) as Hinv.
  destruct (appends_inv [hello; hello] _ Hinv
              ltac:(repeat constructor; exact hello_payload_ok)
              ltac:(vm_compute; reflexivity))
    as (l' & res & Hap & Hi & _).
  unfold example_log2. rewrite Hap. exact Hi.
Qed.

Lemma example_log2_roomy : roomy (LConfig example_log2).
Proof. split; vm_compute; [reflexivity | discriminate]. Qed.

Lemma example_log2_clean : active_clean example_log2.
Proof.
  intros p a Hp Ha. vm_compute in Hp. injection Hp as <-.
  vm_compute in Ha. injection Ha as <-. vm_compute. discriminate.
Qed.

Lemma rollover_when_maxed_witness :
  exists l' a',
    Log_Append example_log2 hello = Some (l', Ok 2) /\
    segments l' = segments example_log2 ++ [1%nat] /\
    (forall off r, record_at example_log2 off r -> record_at l' off r) /\
    baseOffset a' = 2 /\
    find (covers 2) (live l') = Some a' /\
    segment_Read a' (Dir l') 2 = Ok (mkRecord (Value hello) 2).
Proof.
  pose (a := default (fresh_segment (mkConfig 32 0 0)) (heap example_log2 !! O)).
  destruct (rollover_when_maxed example_log2 hello O a example_log2_inv)
    as (_ & l' & p' & a' & res & Hap & _ & _ & Hmax & _ & Hk & Hrd & Hok).
  - vm_compute. reflexivity.
  - vm_compute. reflexivity.
  - exact hello_payload_ok.
  - vm_compute. reflexivity.
  - pose proof (Hok example_log2_roomy example_log2_clean) as Hres.
    change (res = Ok 2) in Hres. subst res.
    exists l', a'. split; [exact Hap|].
    destruct (Hmax ltac:(vm_compute; reflexivity)) as (Hs & -> & _ & Hb & _).
    split; [exact Hs|]. split; [exact Hk|].
    destruct (Hrd 2 eq_refl) as (_ & _ & Hf & Hr).
    split; [exact Hb|]. split; [exact Hf | exact Hr].
Defined.

(** With the zero-value configuration the fresh log's only segment is maxed
    while empty; the append creates a segment at the same base offset,
    which reopens the two files, and returns [ErrIndexFull]: no offset of
    the log holds the record stamped with that offset. *)
Lemma rollover_append_fails :
  let l := fresh_log (default_config (mkConfig 0 0 0)) in
  NewLog empty_dir (mkConfig 0 0 0) = Ok l /\ log_inv l /\
  exists a l',
    activeSegment l = Some O /\ heap l !! O = Some a /\
    IsMaxed a = true /\ nextOffset a + 1 < 2 ^ 64 /\
    Log_Append l hello = Some (l', Err ErrIndexFull) /\
    (fun s => (baseOffset s, nextOffset s)) <$> live l' = [(0, 0); (0, 1)] /\
    forall off, ~ record_at l' off (mkRecord (Value hello) off).
Proof.
  intros l. split; [apply NewLog_empty|].
  split; [apply fresh_log_inv, default_config_ok, zero_config_ok|].
  eexists _, _. split; [reflexivity|]. split; [reflexivity|].
  split; [vm_compute; reflexivity|]. split; [vm_compute; reflexivity|].
  split; [vm_compute; reflexivity|]. split; [vm_compute; reflexivity|].
  intros off (s & Hf & Hr).
  destruct (find_covers_Some _ _ _ Hf) as [Hs Hc].
  apply andb_true_iff in Hc as [Hc1 Hc2].
  apply Z.leb_le in Hc1. apply Z.ltb_lt in Hc2.
  match type of Hs with _ ∈ ?ss => set (ll := ss) in Hs end.
  vm_compute in ll. subst ll.
  rewrite !elem_of_cons in Hs. rewrite elem_of_nil in Hs.
  destruct Hs as [-> | [-> | []]]; cbn in Hc1, Hc2; [lia|].
  assert (off = 0) as -> by lia.
  vm_compute in Hr. discriminate.
Qed.

(** ** A zero store limit *)

Lemma IsMaxed_zero_limit (s : segment) :
  MaxStoreBytes (config s) = 0 -> 0 <= st_size (seg_store s) -> IsMaxed s = true.
Proof.
  intros Hc Hs. apply IsMaxed_spec. left. lia.
Qed.

Lemma active_maxed_zero_limit (l : Log) (p : nat) (a : segment) :
  log_inv l -> MaxStoreBytes (LConfig l) = 0 ->
  activeSegment l = Some p -> heap l !! p = Some a -> IsMaxed a = true.
Proof.
  intros Hi Hz Hp Ha.
  destruct (log_inv_active l p a Hi Hp Ha) as (_ & _ & Hok & _).
  destruct (act_store _ _ _ Hok) as (sf & _ & Hsz).
  apply IsMaxed_zero_limit.
  - rewrite (act_config _ _ _ Hok). exact Hz.
  - rewrite Hsz. unfold fsize. lia.
Qed.

Section ZeroLimit.
Context `{codec : RecordCodec}.

Lemma appends_zero_limit (rs : list Record) : forall l : Log,
  log_inv l -> MaxStoreBytes (LConfig l) = 0 -> Forall payload_ok rs ->
  active_next l + Z.of_nat (length rs) < 2 ^ 64 ->
  exists l' res news,
    appends l rs = Some (l', res) /\
    live l' = live l ++ news /\ length news = length rs /\
    length (segments l') = (length (segments l) + length rs)%nat /\
    forall i off, res !! i = Some (Ok off) ->
      exists s, news !! i = Some s /\
                baseOffset s = off /\ nextOffset s = off + 1.
Proof.
  induction rs as [|rec rs IH]; intros l Hi Hz Hpay Hb.
  - exists l, [], []. simpl. rewrite app_nil_r.
    split; [reflexivity|]. split; [reflexivity|]. split; [reflexivity|].
    split; [lia|]. intros i off H. done.
  - apply Forall_cons in Hpay as [Hp1 Hpay].
    destruct (log_inv_has_active l Hi) as (p & a & Hp & Ha).
    pose proof (active_next_eq l p a Hp Ha) as Hn.
    pose proof (active_maxed_zero_limit l p a Hi Hz Hp Ha) as Hmax.
    cbn [length] in Hb. rewrite Nat2Z.inj_succ in Hb.
    destruct (Log_Append_step l p a rec Hi Hp Ha Hp1 ltac:(lia))
      as (l1 & p1 & a1 & res1 & Hap & Hi1 & Hc1 & Hp1' & Ha1 & Hm & Hn1 & _ & Hres1).
    rewrite Hmax in Hm. destruct Hm as (Hs1 & _ & Hb1 & _ & Hl1).
    pose proof (active_next_eq l1 p1 a1 Hp1' Ha1) as Hn1'.
    destruct (IH l1 Hi1 ltac:(congruence) Hpay ltac:(lia))
      as (l2 & ress & news & Haps & Hl2 & Hlen & Hseg & Hnews).
    exists l2, (res1 :: ress), (a1 :: news). cbn [appends]. rewrite Hap.
    cbn [mbind option_bind]. rewrite Haps. cbn [mbind option_bind].
    split; [reflexivity|].
    split; [rewrite Hl2, Hl1, <- app_assoc; reflexivity|].
    split; [simpl; congruence|].
    split; [rewrite Hseg, Hs1, length_app; simpl; lia|].
    intros [|i] off Hoff; simpl in Hoff.
    + injection Hoff as ->. destruct Hres1 as (-> & Hn' & _).
      exists a1. split; [reflexivity|]. split; [exact Hb1 | exact Hn'].
    + exact (Hnews i off Hoff).
Qed.

(** C10: with [MaxStoreBytes = 0] the limit stays 0 after
    [NewLog] and every segment is maxed whatever it holds; every append
    creates a segment before writing, so [N] append calls on an empty log
    leave [N + 1] segments; and every record whose append succeeded is
    alone in the segment created for it, whose base offset is the record's
    offset, and is read back there. *)
Theorem zero_limit_segment_per_append (c : Config) (rs : list Record) :
  Config_ok c -> MaxStoreBytes c = 0 -> Forall payload_ok rs ->
  InitialOffset c + Z.of_nat (length rs) < 2 ^ 64 ->
  exists l l' res,
    NewLog empty_dir c = Ok l /\ MaxStoreBytes (LConfig l) = 0 /\
    appends l rs = Some (l', res) /\
    (forall s, MaxStoreBytes (config s) = 0 -> 0 <= st_size (seg_store s) ->
               IsMaxed s = true) /\
    length (segments l') = S (length rs) /\ length (live l') = S (length rs) /\
    forall i rec off,
      rs !! i = Some rec -> res !! i = Some (Ok off) ->
      exists s, live l' !! S i = Some s /\
                baseOffset s = off /\ nextOffset s = off + 1 /\
                find (covers off) (live l') = Some s /\
                segment_Read s (Dir l') off = Ok (mkRecord (Value rec) off).
Proof.
  intros Hc Hz Hpay Hlen.
  pose proof (fresh_log_inv _ (default_config_ok c Hc)) as Hinv.
  assert (MaxStoreBytes (default_config c) = 0) as Hz'
    by (rewrite default_config_store; exact Hz).
  assert (active_next (fresh_log (default_config c)) = InitialOffset c) as Hn0.
  { unfold active_next. simpl. apply default_config_initial. }
  destruct (appends_zero_limit rs _ Hinv Hz' Hpay ltac:(rewrite Hn0; lia))
    as (l' & res & news & Hap & Hl & Hnl & Hseg & Hnews).
  destruct (appends_inv rs _ Hinv Hpay ltac:(rewrite Hn0; lia))
    as (l'' & res' & Hap' & Hi' & _ & _ & _ & _ & Hrd & _).
  rewrite Hap in Hap'. injection Hap' as <- <-.
  exists (fresh_log (default_config c)), l', res.
  split; [apply NewLog_empty|]. split; [exact Hz'|]. split; [exact Hap|].
  split; [exact IsMaxed_zero_limit|].
  split; [rewrite Hseg; reflexivity|].
  split; [rewrite Hl, length_app, Hnl; reflexivity|].
  intros i rec off Hrec Hoff.
  destruct (Hnews i off Hoff) as (s & Hs & Hb & Hn).
  assert (live l' !! S i = Some s) as Hsi by (rewrite Hl; exact Hs).
  assert (find (covers off) (live l') = Some s) as Hf.
  { apply chain_find_covers; [exact (inv_chain l' Hi') | |].
    - apply list_elem_of_lookup. eauto.
    - unfold covers. apply andb_true_iff.
      split; [apply Z.leb_le | apply Z.ltb_lt]; lia. }
  exists s. split; [exact Hsi|].
  split; [exact Hb|]. split; [exact Hn|]. split; [exact Hf|].
  pose proof (Hrd i rec off Hrec Hoff) as Hr.
  apply Log_Read_body_Ok in Hr as (s' & Hf' & Hr).
  rewrite Hf in Hf'. injection Hf' as <-. exact Hr.
Qed.

End ZeroLimit.

Lemma zero_limit_segment_per_append_witness :
  exists l l' res,
    NewLog empty_dir (mkConfig 0 0 0) = Ok l /\
    appends l [hello; hello; hello] = Some (l', res) /\
    length (segments l') = 4%nat /\
    res !! 2%nat = Some (Ok 2) /\
    exists s, live l' !! 3%nat = Some s /\ baseOffset s = 2 /\
              segment_Read s (Dir l') 2 = Ok (mkRecord (Value hello) 2).
Proof.
  destruct (zero_limit_segment_per_append (mkConfig 0 0 0) [hello; hello; hello]
              zero_config_ok eq_refl
              ltac:(repeat constructor; exact hello_payload_ok)
              ltac:(simpl; lia))
    as (l & l' & res & Hn & _ & Hap & _ & Hseg & _ & Hrec).
  exists l, l', res. split; [exact Hn|]. split; [exact Hap|].
  split; [exact Hseg|].
  assert (res !! 2%nat = Some (Ok 2)) as H2.
  { rewrite NewLog_empty in Hn. injection Hn as <-.
    vm_compute in Hap. injection Hap as <- <-. reflexivity. }
  split; [exact H2|].
  destruct (Hrec 2%nat hello 2 eq_refl H2) as (s & Hs & Hb & _ & _ & Hrd).
  exists s. split; [exact Hs|]. split; [exact Hb | exact Hrd].
Defined.

(** With the zero-value configuration the first append on an empty log
    fails: the segment it creates reopens the files of the empty first
    segment, takes the pre-sized index for full and for holding one entry,
    and the record, stamped with offset 1, lands in the store of the
    segment whose base offset is 0. *)
Lemma zero_config_first_append :
  exists l l',
    NewLog empty_dir (mkConfig 0 0 0) = Ok l /\
    appends l [hello] = Some (l', [Err ErrIndexFull]) /\
    (fun s => (baseOffset s, nextOffset s)) <$> live l' = [(0, 0); (0, 1)] /\
    (exists s, live l' !! 1%nat = Some s /\
               segment_Read s (Dir l') 0 = Ok (mkRecord (Value hello) 1)) /\
    ~ (exists s, s ∈ live l' /\ baseOffset s = 1).
Proof.
  eexists _, _. split; [apply NewLog_empty|].
  split; [vm_compute; reflexivity|].
  split; [vm_compute; reflexivity|].
  split; [eexists; split; [vm_compute; reflexivity | vm_compute; reflexivity]|].
  intros (s & Hs & Hb).
  assert (baseOffset s ∈ baseOffset <$> [fresh_segment (mkConfig 0 1024 0);
            mkSegment (mkStore 0 23) (mkIndex 0 1024 1024) 0 1 (mkConfig 0 1024 0)])
    as Hin by (apply list_elem_of_fmap_2; exact Hs).
  rewrite Hb in Hin. simpl in Hin.
  rewrite !elem_of_cons in Hin. rewrite elem_of_nil in Hin.
  unfold fresh_segment in Hin. simpl in Hin. lia.
Qed.

(** ** Truncation *)

Lemma kept_test (lowest : Z) (s : segment) :
  (nextOffset s <=? wrap64 (lowest + 1)) = negb (kept lowest s).
Proof. unfold kept. rewrite negb_involutive. reflexivity. Qed.

Lemma omap_lookup_cons (h : list segment) (p : nat) (ps : list nat) :
  omap (fun q => h !! q) (p :: ps)
  = match h !! p with
    | Some s => s :: omap (fun q => h !! q) ps
    | None => omap (fun q => h !! q) ps
    end.
Proof. reflexivity. Qed.

Lemma segment_Remove_other (s : segment) (d : dir) (b : Z) :
  seg_named s -> baseOffset s <> b ->
  stores (segment_Remove_ok s d) !! b = stores d !! b /\
  indexes (segment_Remove_ok s d) !! b = indexes d !! b.
Proof.
  intros [Hsn Hxn] Hne.
  unfold segment_Remove_ok, segment_Close, index_Close. rewrite Hsn, Hxn.
  destruct (indexes d !! baseOffset s); cbn [stores indexes];
    rewrite ?lookup_delete_ne by done; rewrite ?lookup_insert_ne by done; auto.
Qed.

Lemma truncate_loop_spec (h : list segment) (lowest : Z) (ps : list nat) :
  forall d : dir,
  Forall seg_named (omap (fun q => h !! q) ps) ->
  omap (fun q => h !! q) (truncate_loop_ok h lowest ps d).1
    = List.filter (kept lowest) (omap (fun q => h !! q) ps) /\
  (truncate_loop_ok h lowest ps d).1
    = List.filter (fun q => match h !! q with
                            | Some s => kept lowest s
                            | None => false
                            end) ps /\
  forall b,
    (forall s, s ∈ omap (fun q => h !! q) ps -> kept lowest s = false ->
               baseOffset s <> b) ->
    stores (truncate_loop_ok h lowest ps d).2 !! b = stores d !! b /\
    indexes (truncate_loop_ok h lowest ps d).2 !! b = indexes d !! b.
Proof.
  induction ps as [|p ps IH]; intros d Hnm.
  - simpl. auto.
  - rewrite omap_lookup_cons in *. cbn [truncate_loop_ok List.filter].
    destruct (h !! p) as [s|] eqn:Hp.
    + apply Forall_cons in Hnm as [Hs Hnm].
      rewrite kept_test. destruct (kept lowest s) eqn:E; cbn [negb].
      * destruct (truncate_loop_ok h lowest ps d) as [keep d'] eqn:Et.
        specialize (IH d Hnm). rewrite Et in IH. cbn [fst snd] in *.
        destruct IH as (H1 & H2 & H3).
        split; [rewrite omap_lookup_cons, Hp, H1; cbn [List.filter];
                rewrite E; reflexivity|].
        split; [rewrite H2; cbn [List.filter]; rewrite ?Hp, ?E; reflexivity|].
        intros b Hb. apply H3. intros t Ht. apply Hb. right. exact Ht.
      * destruct (IH (segment_Remove_ok s d) Hnm) as (H1 & H2 & H3).
        split; [cbn [List.filter]; rewrite E; exact H1|].
        split; [cbn [List.filter]; rewrite ?Hp, ?E; exact H2|].
        intros b Hb.
        destruct (H3 b) as [H4 H5].
        { intros t Ht. apply Hb. right. exact Ht. }
        rewrite H4, H5. apply segment_Remove_other; [exact Hs|].
        apply Hb; [left | exact E].
    + destruct (IH d Hnm) as (H1 & H2 & H3).
      split; [exact H1|]. split; [cbn [List.filter]; rewrite ?Hp; exact H2|].
      exact H3.
Qed.

Lemma find_filter_covers (f : segment -> bool) (off : Z) (ss : list segment) :
  (forall s, s ∈ ss -> covers off s = true -> f s = true) ->
  find (covers off) (List.filter f ss) = find (covers off) ss.
Proof.
  induction ss as [|s ss IH]; intros H; [reflexivity|].
  cbn [List.filter find].
  assert (find (covers off) (List.filter f ss) = find (covers off) ss) as IH'.
  { apply IH. intros t Ht. apply H. right. exact Ht. }
  destruct (covers off s) eqn:Ec.
  - rewrite (H s ltac:(left) Ec). cbn [find]. rewrite Ec. reflexivity.
  - destruct (f s); cbn [find]; rewrite ?Ec; exact IH'.
Qed.

Lemma find_filter_none (f : segment -> bool) (off : Z) (ss : list segment) :
  (forall s, s ∈ ss -> covers off s = true -> f s = false) ->
  find (covers off) (List.filter f ss) = None.
Proof.
  induction ss as [|s ss IH]; intros H; [reflexivity|].
  cbn [List.filter].
  assert (find (covers off) (List.filter f ss) = None) as IH'.
  { apply IH. intros t Ht. apply H. right. exact Ht. }
  destruct (f s) eqn:Ef; [|exact IH'].
  cbn [find]. destruct (covers off s) eqn:Ec; [|exact IH'].
  rewrite (H s ltac:(left) Ec) in Ef. discriminate.
Qed.

(** In a chain at most one range holds a given offset. *)
Lemma chain_covers_unique (ss : list segment) (s t : segment) (off : Z) :
  chain ss -> s ∈ ss -> t ∈ ss ->
  covers off s = true -> covers off t = true ->
  nextOffset s = nextOffset t /\ baseOffset s = baseOffset t.
Proof.
  unfold covers. intros Hc Hs Ht Hcs Hct.
  apply andb_true_iff in Hcs as [Hs1 Hs2]. apply andb_true_iff in Hct as [Ht1 Ht2].
  apply Z.leb_le in Hs1, Ht1. apply Z.ltb_lt in Hs2, Ht2.
  induction ss as [|x ss IH]; [inversion Hs|].
  destruct Hc as [Hx Hc]. rewrite Forall_forall in Hx.
  apply elem_of_cons in Hs as [->|Hs]; apply elem_of_cons in Ht as [->|Ht].
  - auto.
  - specialize (Hx t Ht). simpl in Hx. lia.
  - specialize (Hx s Hs). simpl in Hx. lia.
  - exact (IH Hc Hs Ht).
Qed.

Lemma fmap_inj_NoDup (ss : list segment) (s t : segment) :
  NoDup (baseOffset <$> ss) -> s ∈ ss -> t ∈ ss ->
  baseOffset s = baseOffset t -> s = t.
Proof.
  induction ss as [|x ss IH]; intros Hn Hs Ht Hb; [inversion Hs|].
  rewrite fmap_cons in Hn. apply NoDup_cons in Hn as [Hx Hn].
  apply elem_of_cons in Hs as [->|Hs]; apply elem_of_cons in Ht as [->|Ht].
  - reflexivity.
  - exfalso. apply Hx. rewrite Hb. apply list_elem_of_fmap_2. exact Ht.
  - exfalso. apply Hx. rewrite <- Hb. apply list_elem_of_fmap_2. exact Hs.
  - exact (IH Hn Hs Ht Hb).
Qed.

Section TruncateRead.
Context `{codec : RecordCodec}.

Lemma segment_Read_ext (s : segment) (d d' : dir) (off : Z) :
  stores d' !! st_name (seg_store s) = stores d !! st_name (seg_store s) ->
  indexes d' !! ix_name (seg_index s) = indexes d !! ix_name (seg_index s) ->
  segment_Read s d' off = segment_Read s d off.
Proof.
  intros Hs Hx. unfold segment_Read, index_Read, store_Read.
  rewrite Hs, Hx. reflexivity.
Qed.

End TruncateRead.

Lemma truncate_loop_keep (h : list segment) (lowest : Z) (ps : list nat) :
  forall d : dir,
  (truncate_loop_ok h lowest ps d).1
    = List.filter (fun q => match h !! q with
                            | Some s => kept lowest s
                            | None => false
                            end) ps /\
  omap (fun q => h !! q) (truncate_loop_ok h lowest ps d).1
    = List.filter (kept lowest) (omap (fun q => h !! q) ps).
Proof.
  induction ps as [|p ps IH]; intros d.
  - simpl. auto.
  - rewrite omap_lookup_cons. cbn [truncate_loop_ok List.filter].
    destruct (h !! p) as [s|] eqn:Hp.
    + rewrite kept_test. destruct (kept lowest s) eqn:E; cbn [negb].
      * destruct (truncate_loop_ok h lowest ps d) as [keep d'] eqn:Et.
        specialize (IH d). rewrite Et in IH. cbn [fst snd] in *.
        destruct IH as (H1 & H2).
        split; [rewrite H1; reflexivity|].
        rewrite omap_lookup_cons, Hp, H2. cbn [List.filter]. rewrite E.
        reflexivity.
      * destruct (IH (segment_Remove_ok s d)) as (H1 & H2).
        split; [exact H1|]. cbn [List.filter]. rewrite E. exact H2.
    + exact (IH d).
Qed.

Lemma truncate_loop_all_kept (h : list segment) (lowest : Z) (ps : list nat)
    (d : dir) :
  Forall (fun q => exists s, h !! q = Some s /\ kept lowest s = true) ps ->
  truncate_loop_ok h lowest ps d = (ps, d).
Proof.
  induction ps as [|p ps IH]; intros Hk; [reflexivity|].
  apply Forall_cons in Hk as [(s & Hp & E) Hk].
  cbn [truncate_loop_ok]. rewrite Hp, kept_test, E. cbn [negb].
  rewrite (IH Hk). reflexivity.
Qed.

Lemma truncate_loop_survivors (h : list segment) (lowest : Z) (ps : list nat) :
  forall d : dir,
  Forall (fun q => exists s, h !! q = Some s /\ kept lowest s = true)
         (truncate_loop_ok h lowest ps d).1.
Proof.
  induction ps as [|p ps IH]; intros d; [constructor|].
  cbn [truncate_loop_ok]. destruct (h !! p) as [s|] eqn:Hp; [|apply IH].
  rewrite kept_test. destruct (kept lowest s) eqn:E; cbn [negb]; [|apply IH].
  specialize (IH d). destruct (truncate_loop_ok h lowest ps d) as [keep d'].
  cbn [fst] in *. constructor; [eauto | exact IH].
Qed.

Lemma truncate_loop_none_kept (h : list segment) (lowest : Z) (ps : list nat) :
  forall d : dir,
  Forall (fun s => kept lowest s = false) (omap (fun q => h !! q) ps) ->
  (truncate_loop_ok h lowest ps d).1 = [].
Proof.
  induction ps as [|p ps IH]; intros d Hk; [reflexivity|].
  rewrite omap_lookup_cons in Hk. cbn [truncate_loop_ok].
  destruct (h !! p) as [s|] eqn:Hp; [|apply IH; exact Hk].
  apply Forall_cons in Hk as [E Hk]. rewrite kept_test, E. cbn [negb].
  apply IH. exact Hk.
Qed.

Lemma segment_Remove_absent (s : segment) (d : dir) (b : Z) :
  (stores d !! b = None -> stores (segment_Remove_ok s d) !! b = None) /\
  (indexes d !! b = None -> indexes (segment_Remove_ok s d) !! b = None).
Proof.
  unfold segment_Remove_ok, segment_Close, index_Close.
  destruct (indexes d !! ix_name (seg_index s)) eqn:E; cbn [stores indexes];
    split; intros H; apply lookup_delete_None; auto.
  destruct (decide (ix_name (seg_index s) = b)) as [Hb|Hb]; [auto|].
  right. rewrite lookup_insert_ne by exact Hb. exact H.
Qed.

Lemma segment_Remove_gone (s : segment) (d : dir) :
  stores (segment_Remove_ok s d) !! st_name (seg_store s) = None /\
  indexes (segment_Remove_ok s d) !! ix_name (seg_index s) = None.
Proof.
  unfold segment_Remove_ok. cbn [stores indexes].
  split; apply lookup_delete_eq.
Qed.

Lemma truncate_loop_absent (h : list segment) (lowest : Z) (ps : list nat) (b : Z) :
  forall d : dir,
  (stores d !! b = None -> stores (truncate_loop_ok h lowest ps d).2 !! b = None) /\
  (indexes d !! b = None -> indexes (truncate_loop_ok h lowest ps d).2 !! b = None).
Proof.
  induction ps as [|p ps IH]; intros d; [simpl; auto|].
  cbn [truncate_loop_ok]. destruct (h !! p) as [s|]; [|apply IH].
  destruct (nextOffset s <=? wrap64 (lowest + 1)).
  - destruct (IH (segment_Remove_ok s d)) as [H1 H2].
    destruct (segment_Remove_absent s d b) as [H3 H4]. auto.
  - specialize (IH d). destruct (truncate_loop_ok h lowest ps d) as [keep d'].
    exact IH.
Qed.

Lemma truncate_loop_gone (h : list segment) (lowest : Z) (ps : list nat)
    (s : segment) :
  forall d : dir,
  s ∈ omap (fun q => h !! q) ps -> kept lowest s = false ->
  stores (truncate_loop_ok h lowest ps d).2 !! st_name (seg_store s) = None /\
  indexes (truncate_loop_ok h lowest ps d).2 !! ix_name (seg_index s) = None.
Proof.
  induction ps as [|p ps IH]; intros d Hs Hk.
  - simpl in Hs. apply elem_of_nil in Hs. done.
  - rewrite omap_lookup_cons in Hs. cbn [truncate_loop_ok].
    destruct (h !! p) as [t|]; [|apply IH; assumption].
    rewrite kept_test. destruct (kept lowest t) eqn:E; cbn [negb].
    + apply elem_of_cons in Hs as [->|Hs]; [congruence|].
      specialize (IH d Hs Hk).
      destruct (truncate_loop_ok h lowest ps d) as [keep d']. exact IH.
    + apply elem_of_cons in Hs as [->|Hs]; [|apply IH; assumption].
      destruct (segment_Remove_gone t d) as [H1 H2].
      split.
      * apply (truncate_loop_absent h lowest ps _ (segment_Remove_ok t d)), H1.
      * apply (truncate_loop_absent h lowest ps _ (segment_Remove_ok t d)), H2.
Qed.

Lemma kept_mono (a b : Z) (s : segment) :
  wrap64 (a + 1) <= wrap64 (b + 1) -> kept b s = true -> kept a s = true.
Proof.
  unfold kept. intros Hab Hk. apply negb_true_iff in Hk. apply negb_true_iff.
  apply Z.leb_gt in Hk. apply Z.leb_gt. lia.
Qed.

Lemma filter_filter_sub {A} (f g : A -> bool) (l : list A) :
  (forall x, g x = true -> f x = true) ->
  List.filter g (List.filter f l) = List.filter g l.
Proof.
  intros Hsub. induction l as [|x l IH]; [reflexivity|].
  cbn [List.filter]. destruct (f x) eqn:Ef.
  - cbn [List.filter]. rewrite IH. reflexivity.
  - rewrite IH. destruct (g x) eqn:Eg; [|reflexivity].
    rewrite (Hsub x Eg) in Ef. discriminate.
Qed.

Lemma elem_of_List_filter {A} (f : A -> bool) (l : list A) (x : A) :
  x ∈ List.filter f l <-> x ∈ l /\ f x = true.
Proof.
  induction l as [|y l IH]; cbn [List.filter].
  - rewrite elem_of_nil. tauto.
  - destruct (f y) eqn:E; rewrite ?elem_of_cons, IH; split.
    + intros [->|[H1 H2]]; auto.
    + intros [[->|H1] H2]; auto.
    + intros [H1 H2]; auto.
    + intros [[->|H1] H2]; [congruence | auto].
Qed.

Lemma dir_eq (d d' : dir) :
  stores d = stores d' -> indexes d = indexes d' -> d = d'.
Proof. destruct d, d'. simpl. intros -> ->. reflexivity. Qed.

Lemma NoDup_fmap_eq {A B} (f : A -> B) (l : list A) (x y : A) :
  NoDup (f <$> l) -> x ∈ l -> y ∈ l -> f x = f y -> x = y.
Proof.
  induction l as [|z l IH]; intros Hnd Hx Hy Hf.
  - apply elem_of_nil in Hx. done.
  - cbn [fmap list_fmap] in Hnd. apply NoDup_cons in Hnd as [Hz Hnd].
    apply elem_of_cons in Hx as [->|Hx]; apply elem_of_cons in Hy as [->|Hy].
    + reflexivity.
    + exfalso. apply Hz. rewrite Hf. apply list_elem_of_fmap. eauto.
    + exfalso. apply Hz. rewrite <- Hf. apply list_elem_of_fmap. eauto.
    + apply IH; assumption.
Qed.

Lemma NoDup_List_filter {A} (f : A -> bool) (l : list A) :
  NoDup l -> NoDup (List.filter f l).
Proof.
  induction l as [|x l IH]; intros Hnd; [constructor|].
  apply NoDup_cons in Hnd as [Hx Hnd]. cbn [List.filter].
  destruct (f x); [|apply IH; exact Hnd].
  apply NoDup_cons. split; [|apply IH; exact Hnd].
  intros Hin. apply elem_of_List_filter in Hin as [Hin _]. auto.
Qed.

Lemma truncate_loop_dir (h : list segment) (lowest : Z) (ps : list nat)
    (d : dir) (b : Z) :
  Forall seg_named (omap (fun q => h !! q) ps) ->
  (stores (truncate_loop_ok h lowest ps d).2 !! b = None /\
   indexes (truncate_loop_ok h lowest ps d).2 !! b = None /\
   exists s, s ∈ omap (fun q => h !! q) ps /\ kept lowest s = false /\
             baseOffset s = b) \/
  (stores (truncate_loop_ok h lowest ps d).2 !! b = stores d !! b /\
   indexes (truncate_loop_ok h lowest ps d).2 !! b = indexes d !! b /\
   forall s, s ∈ omap (fun q => h !! q) ps -> kept lowest s = false ->
             baseOffset s <> b).
Proof.
  intros Hnm.
  destruct (decide (b ∈ baseOffset <$>
              List.filter (fun s => negb (kept lowest s)) (omap (fun q => h !! q) ps)))
    as [Hin|Hout].
  - left. apply list_elem_of_fmap in Hin as (s & -> & Hs).
    apply elem_of_List_filter in Hs as [Hs Hk]. apply negb_true_iff in Hk.
    rewrite Forall_forall in Hnm. destruct (Hnm s Hs) as [Hsn Hxn].
    destruct (truncate_loop_gone h lowest ps s d Hs Hk) as [G1 G2].
    rewrite Hsn in G1. rewrite Hxn in G2. eauto 6.
  - right.
    assert (forall s, s ∈ omap (fun q => h !! q) ps -> kept lowest s = false ->
                      baseOffset s <> b) as Hno.
    { intros s Hs Hk <-. apply Hout. apply list_elem_of_fmap.
      exists s. split; [reflexivity|]. apply elem_of_List_filter.
      rewrite Hk. auto. }
    destruct (truncate_loop_spec h lowest ps d Hnm) as (_ & _ & Hb).
    destruct (Hb b Hno) as [-> ->]. auto.
Qed.

Lemma NoDup_fmap_filter {A B} (f : A -> B) (g : A -> bool) (l : list A) :
  NoDup (f <$> l) -> NoDup (f <$> List.filter g l).
Proof.
  induction l as [|x l IH]; intros Hnd; [constructor|].
  cbn [fmap list_fmap] in Hnd. apply NoDup_cons in Hnd as [Hx Hnd].
  cbn [List.filter]. destruct (g x); [|apply IH; exact Hnd].
  cbn [fmap list_fmap]. apply NoDup_cons. split; [|apply IH; exact Hnd].
  intros Hin. apply Hx. apply list_elem_of_fmap in Hin as (y & Hy & Hin).
  apply elem_of_List_filter in Hin as [Hin _].
  apply list_elem_of_fmap. eauto.
Qed.

(** *** The removals that find their files *)

Lemma segment_Remove_found (s : segment) (d : dir) :
  has_files d s -> segment_Remove s d = (segment_Remove_ok s d, Ok tt).
Proof.
  intros [[sf Hs] [xf Hx]].
  unfold segment_Remove, segment_Remove_ok, os_Remove, segment_Close, index_Close.
  rewrite Hx. cbn [indexes stores]. rewrite lookup_insert_eq.
  cbn [indexes stores]. rewrite Hs. reflexivity.
Qed.

Lemma truncate_loop_found (h : list segment) (lowest : Z) (ps : list nat) :
  forall d : dir,
  Forall seg_named (omap (fun q => h !! q) ps) ->
  NoDup (baseOffset <$> omap (fun q => h !! q) ps) ->
  Forall (has_files d) (omap (fun q => h !! q) ps) ->
  truncate_loop h lowest ps d = (truncate_loop_ok h lowest ps d, Ok tt).
Proof.
  induction ps as [|p ps IH]; intros d Hnm Hnd Hf; [reflexivity|].
  rewrite omap_lookup_cons in Hnm, Hnd, Hf.
  cbn [truncate_loop truncate_loop_ok].
  destruct (h !! p) as [s|] eqn:Hp; [|exact (IH d Hnm Hnd Hf)].
  apply Forall_cons in Hnm as [Hs Hnm]. apply Forall_cons in Hf as [Hfs Hf].
  cbn [fmap list_fmap] in Hnd. apply NoDup_cons in Hnd as [Hsn Hnd].
  destruct (nextOffset s <=? wrap64 (lowest + 1)).
  - rewrite (segment_Remove_found s d Hfs). apply IH; [exact Hnm | exact Hnd |].
    apply Forall_forall. intros t Ht.
    rewrite Forall_forall in Hf, Hnm.
    destruct (Hnm t Ht) as [Htn Htx]. destruct (Hf t Ht) as [F1 F2].
    assert (baseOffset s <> baseOffset t) as Hne.
    { intros E. apply Hsn. rewrite E. apply list_elem_of_fmap. eauto. }
    destruct (segment_Remove_other s d (baseOffset t) Hs Hne) as [E1 E2].
    unfold has_files. rewrite Htn, Htx, E1, E2, <- Htn at 1.
    rewrite <- Htx. auto.
  - rewrite (IH d Hnm Hnd Hf).
    destruct (truncate_loop_ok h lowest ps d) as [keep d']. reflexivity.
Qed.

(** Without an error the loop keeps the pointers that pass the test; with
    one, [Log.Truncate] leaves [l.segments] as it was. *)
Lemma truncate_loop_kept (h : list segment) (lowest : Z) (ps : list nat) :
  forall (d d' : dir) (keep : list nat),
  truncate_loop h lowest ps d = (keep, d', Ok tt) ->
  keep = List.filter (fun q => match h !! q with
                               | Some s => kept lowest s
                               | None => false
                               end) ps /\
  omap (fun q => h !! q) keep
    = List.filter (kept lowest) (omap (fun q => h !! q) ps).
Proof.
  induction ps as [|p ps IH]; intros d d' keep Ht.
  - cbn in Ht. injection Ht as <- _. auto.
  - rewrite omap_lookup_cons. cbn [truncate_loop List.filter] in Ht |- *.
    destruct (h !! p) as [s|] eqn:Hp; [|exact (IH d d' keep Ht)].
    rewrite kept_test in Ht. destruct (kept lowest s) eqn:E; cbn [negb] in Ht.
    + destruct (truncate_loop h lowest ps d) as [[keep0 d0] r0] eqn:Et.
      injection Ht as <- <- ->.
      destruct (IH d d0 keep0 Et) as [H1 H2].
      split; [rewrite H1; reflexivity|].
      rewrite omap_lookup_cons, Hp, H2. cbn [List.filter]. rewrite E.
      reflexivity.
    + destruct (segment_Remove s d) as [d1 [[]|e]]; [|discriminate].
      destruct (IH d1 d' keep Ht) as [H1 H2].
      split; [exact H1|]. cbn [List.filter]. rewrite E. exact H2.
Qed.

Lemma truncate_loop_untouched (h : list segment) (lowest : Z) (ps : list nat)
    (d : dir) :
  Forall (fun q => exists s, h !! q = Some s /\ kept lowest s = true) ps ->
  truncate_loop h lowest ps d = (ps, d, Ok tt).
Proof.
  induction ps as [|p ps IH]; intros Hk; [reflexivity|].
  apply Forall_cons in Hk as [(s & Hp & E) Hk].
  cbn [truncate_loop]. rewrite Hp, kept_test, E. cbn [negb].
  rewrite (IH Hk). reflexivity.
Qed.

Lemma Log_Truncate_live (l l' : Log) (lowest : Z) (r : result unit) :
  Log_Truncate l lowest = (l', r) ->
  heap l' = heap l /\ activeSegment l' = activeSegment l /\
  LConfig l' = LConfig l /\
  match r with
  | Ok _ => live l' = List.filter (kept lowest) (live l)
  | Err _ => segments l' = segments l
  end.
Proof.
  unfold Log_Truncate. intros Ht.
  destruct (truncate_loop (heap l) lowest (segments l) (Dir l))
    as [[keep d] [[]|e]] eqn:Et; injection Ht as <- <-; cbn.
  - repeat split; try reflexivity.
    apply (truncate_loop_kept _ _ _ _ _ _ Et).
  - auto.
Qed.

Lemma Log_Truncate_shape (l : Log) (lowest : Z) :
  Log_Truncate_ok l lowest
  = mkLog (truncate_loop_ok (heap l) lowest (segments l) (Dir l)).2 (LConfig l)
          (heap l) (activeSegment l)
          (truncate_loop_ok (heap l) lowest (segments l) (Dir l)).1.
Proof.
  unfold Log_Truncate_ok.
  destruct (truncate_loop_ok (heap l) lowest (segments l) (Dir l)). reflexivity.
Qed.

Lemma live_Truncate (l : Log) (lowest : Z) :
  Forall seg_named (live l) ->
  live (Log_Truncate_ok l lowest) = List.filter (kept lowest) (live l).
Proof.
  intros Hnm. rewrite Log_Truncate_shape. unfold live at 1. cbn [heap segments].
  apply (truncate_loop_spec (heap l) lowest (segments l) (Dir l) Hnm).
Qed.

Lemma Log_Truncate_found (l : Log) (lowest : Z) :
  Forall seg_named (live l) -> NoDup (baseOffset <$> live l) ->
  Forall (has_files (Dir l)) (live l) ->
  Log_Truncate l lowest = (Log_Truncate_ok l lowest, Ok tt).
Proof.
  intros Hnm Hnd Hf. unfold Log_Truncate, Log_Truncate_ok.
  rewrite (truncate_loop_found (heap l) lowest (segments l) (Dir l) Hnm Hnd Hf).
  destruct (truncate_loop_ok (heap l) lowest (segments l) (Dir l)). reflexivity.
Qed.

Lemma Log_Truncate_ok_removed (l : Log) (lowest : Z) (s : segment) :
  s ∈ live l -> kept lowest s = false ->
  stores (Dir (Log_Truncate_ok l lowest)) !! st_name (seg_store s) = None /\
  indexes (Dir (Log_Truncate_ok l lowest)) !! ix_name (seg_index s) = None.
Proof.
  intros Hs Hk. rewrite Log_Truncate_shape. cbn [Dir].
  apply truncate_loop_gone; assumption.
Qed.

Lemma Log_Truncate_ok_kept (l : Log) (lowest : Z) (s : segment) :
  Forall seg_named (live l) -> NoDup (baseOffset <$> live l) ->
  s ∈ live l -> kept lowest s = true ->
  stores (Dir (Log_Truncate_ok l lowest)) !! st_name (seg_store s)
  = stores (Dir l) !! st_name (seg_store s) /\
  indexes (Dir (Log_Truncate_ok l lowest)) !! ix_name (seg_index s)
  = indexes (Dir l) !! ix_name (seg_index s).
Proof.
  intros Hnm Hnd Hs Hk. rewrite Log_Truncate_shape. cbn [Dir].
  pose proof Hnm as Hnm'. rewrite Forall_forall in Hnm'.
  destruct (Hnm' s Hs) as [-> ->].
  destruct (truncate_loop_spec (heap l) lowest (segments l) (Dir l) Hnm)
    as (_ & _ & Hd).
  apply Hd. intros t Ht Hkt Hb.
  rewrite (NoDup_fmap_eq baseOffset (live l) t s Hnd Ht Hs Hb) in Hkt.
  congruence.
Qed.

Lemma Log_Truncate_ok_files (l : Log) (lowest : Z) :
  Forall seg_named (live l) -> NoDup (baseOffset <$> live l) ->
  Forall (has_files (Dir l)) (live l) ->
  Forall seg_named (live (Log_Truncate_ok l lowest)) /\
  NoDup (baseOffset <$> live (Log_Truncate_ok l lowest)) /\
  Forall (has_files (Dir (Log_Truncate_ok l lowest)))
         (live (Log_Truncate_ok l lowest)).
Proof.
  intros Hnm Hnd Hf. rewrite (live_Truncate l lowest Hnm).
  split; [|split].
  - apply Forall_forall. intros s Hs. apply elem_of_List_filter in Hs as [Hs _].
    rewrite Forall_forall in Hnm. auto.
  - apply NoDup_fmap_filter. exact Hnd.
  - apply Forall_forall. intros s Hs. apply elem_of_List_filter in Hs as [Hs Hk].
    destruct (Log_Truncate_ok_kept l lowest s Hnm Hnd Hs Hk) as [E1 E2].
    rewrite Forall_forall in Hf. destruct (Hf s Hs) as [F1 F2].
    unfold has_files. rewrite E1, E2. auto.
Qed.

Lemma Log_Truncate_inv (l : Log) (lowest : Z) (p : nat) (a : segment) :
  log_inv l -> NoDup (baseOffset <$> live l) ->
  activeSegment l = Some p -> heap l !! p = Some a ->
  kept lowest a = true ->
  log_inv (Log_Truncate_ok l lowest).
Proof.
  intros Hi Hnd Hp Ha Hk.
  destruct (log_inv_active l p a Hi Hp Ha) as (ps & Hs & Hok & Hbel & Hl & Hr & Hnm).
  pose proof (inv_named _ Hi) as Hnms.
  pose proof (live_Truncate l lowest Hnms) as Hlv.
  assert (a ∈ live l) as Hain by (rewrite Hl; apply elem_of_app; right; left).
  assert (forall b,
    (stores (Dir (Log_Truncate_ok l lowest)) !! b = None /\
     indexes (Dir (Log_Truncate_ok l lowest)) !! b = None /\ b <> baseOffset a) \/
    (stores (Dir (Log_Truncate_ok l lowest)) !! b = stores (Dir l) !! b /\
     indexes (Dir (Log_Truncate_ok l lowest)) !! b = indexes (Dir l) !! b)) as Hdir.
  { intros b. rewrite Log_Truncate_shape. cbn [Dir].
    destruct (truncate_loop_dir (heap l) lowest (segments l) (Dir l) b Hnms)
      as [(H1 & H2 & s & Hs' & Hks & Hb)|(H1 & H2 & _)]; [left | right; auto].
    split; [exact H1|]. split; [exact H2|]. intros E.
    assert (s = a) as ->
      by (apply (NoDup_fmap_eq baseOffset (live l) s a Hnd Hs' Hain); congruence).
    congruence. }
  assert (stores (Dir (Log_Truncate_ok l lowest)) !! baseOffset a
          = stores (Dir l) !! baseOffset a /\
          indexes (Dir (Log_Truncate_ok l lowest)) !! baseOffset a
          = indexes (Dir l) !! baseOffset a) as [Has Hai].
  { destruct (Hdir (baseOffset a)) as [(_ & _ & E)|E]; [done | exact E]. }
  assert (segments (Log_Truncate_ok l lowest)
          = List.filter (fun q => match heap l !! q with
                                  | Some s => kept lowest s
                                  | None => false
                                  end) ps ++ [p]) as Hsg.
  { rewrite Log_Truncate_shape. cbn [segments].
    destruct (truncate_loop_keep (heap l) lowest (segments l) (Dir l)) as [-> _].
    rewrite Hs, List.filter_app. cbn [List.filter]. rewrite Ha, Hk. reflexivity. }
  assert (heap (Log_Truncate_ok l lowest) = heap l) as Hh
    by (rewrite Log_Truncate_shape; reflexivity).
  assert (LConfig (Log_Truncate_ok l lowest) = LConfig l) as Hc
    by (rewrite Log_Truncate_shape; reflexivity).
  assert (activeSegment (Log_Truncate_ok l lowest) = activeSegment l) as Hact
    by (rewrite Log_Truncate_shape; reflexivity).
  constructor.
  - rewrite Hc. exact (inv_cfg _ Hi).
  - rewrite Log_Truncate_shape. cbn [segments].
    destruct (truncate_loop_keep (heap l) lowest (segments l) (Dir l)) as [-> _].
    apply NoDup_List_filter. exact (inv_nodup _ Hi).
  - rewrite Hh. rewrite Log_Truncate_shape. cbn [segments].
    eapply Forall_impl; [apply truncate_loop_survivors|].
    intros q (s & Hq & _). rewrite Hq. eauto.
  - eexists _, p, a. split; [exact Hsg|]. split; [congruence|].
    split; [rewrite Hh; exact Ha|]. rewrite Hc. split.
    + constructor.
      * exact (act_config _ _ _ Hok).
      * exact (act_mmap _ _ _ Hok).
      * rewrite Has. exact (act_store _ _ _ Hok).
      * rewrite Hai. exact (act_index _ _ _ Hok).
      * exact (act_size_pos _ _ _ Hok).
      * exact (act_size _ _ _ Hok).
    + intros b Hb. apply Hbel.
      destruct (Hdir b) as [(_ & E & _)|[_ E]]; rewrite E in Hb;
        [destruct Hb; discriminate | exact Hb].
  - rewrite Hlv. apply chain_filter. exact (inv_chain _ Hi).
  - rewrite Hlv. apply Forall_forall. intros s Hs'.
    apply elem_of_List_filter in Hs' as [Hs' _].
    rewrite Forall_forall in Hnms. apply Hnms, Hs'.
  - rewrite Hlv. apply Forall_forall. intros s Hs'.
    apply elem_of_List_filter in Hs' as [Hs' _].
    pose proof (inv_range _ Hi) as Hrg. rewrite Forall_forall in Hrg.
    apply Hrg, Hs'.
  - intros b f Hf. rewrite Hc.
    destruct (Hdir b) as [(_ & E & _)|[_ E]]; rewrite E in Hf; [discriminate|].
    exact (inv_idxlen _ Hi b f Hf).
  - intros b Hb.
    destruct (Hdir b) as [(E & _ & _)|[E1 E2]].
    + rewrite E in Hb. destruct Hb; discriminate.
    + rewrite E1 in Hb. rewrite E2. exact (inv_stores _ Hi b Hb).
Qed.

Section TruncateLog.
Context `{codec : RecordCodec}.

(** C4: on a log whose segments have distinct base offsets and their two
    files in the directory, for a boundary below 2^64 - 1,
    [Truncate(lowest)] returns no error, removes exactly the segments whose
    next offset is at most [lowest + 1], deletes their files and keeps the
    rest, with their files, in order.  Afterwards no segment covers an
    offset that only removed segments held; an offset of a surviving
    segment, those at or below [lowest] included, is found in that segment
    and read there as before; and so is every offset above [lowest]. *)
Theorem truncate_whole_segments (l : Log) (lowest : Z) :
  chain (live l) -> Forall seg_named (live l) ->
  NoDup (baseOffset <$> live l) ->
  Forall (has_files (Dir l)) (live l) ->
  0 <= lowest -> lowest + 1 < 2 ^ 64 ->
  exists l',
    Log_Truncate l lowest = (l', Ok tt) /\
    live l' = List.filter (fun s => negb (nextOffset s <=? lowest + 1)) (live l) /\
    segments l'
    = List.filter (fun q => match heap l !! q with
                            | Some s => negb (nextOffset s <=? lowest + 1)
                            | None => false
                            end) (segments l) /\
    (forall s, s ∈ live l -> nextOffset s <= lowest + 1 ->
       stores (Dir l') !! st_name (seg_store s) = None /\
       indexes (Dir l') !! ix_name (seg_index s) = None) /\
    (forall s, s ∈ live l -> lowest + 1 < nextOffset s ->
       stores (Dir l') !! st_name (seg_store s)
       = stores (Dir l) !! st_name (seg_store s) /\
       indexes (Dir l') !! ix_name (seg_index s)
       = indexes (Dir l) !! ix_name (seg_index s)) /\
    (forall off,
       (forall s, s ∈ live l -> covers off s = true ->
                  nextOffset s <= lowest + 1) ->
       find (covers off) (live l') = None) /\
    (forall off s,
       find (covers off) (live l) = Some s -> lowest + 1 < nextOffset s ->
       find (covers off) (live l') = Some s /\
       segment_Read s (Dir l') off = segment_Read s (Dir l) off) /\
    (forall off, lowest < off ->
       find (covers off) (live l') = find (covers off) (live l) /\
       forall s, find (covers off) (live l) = Some s ->
                 segment_Read s (Dir l') off = segment_Read s (Dir l) off).
Proof.
  intros Hch Hnm Hnd Hf H0 H1.
  assert (wrap64 (lowest + 1) = lowest + 1) as Hw
    by (unfold wrap64; apply Z.mod_small; lia).
  assert (forall s, kept lowest s = negb (nextOffset s <=? lowest + 1)) as Hkept
    by (intros s; unfold kept; rewrite Hw; reflexivity).
  assert (forall s, lowest + 1 < nextOffset s -> kept lowest s = true) as Hyes.
  { intros s Hs. rewrite Hkept. apply negb_true_iff, Z.leb_gt. exact Hs. }
  assert (forall s, nextOffset s <= lowest + 1 -> kept lowest s = false) as Hno.
  { intros s Hs. rewrite Hkept. apply negb_false_iff, Z.leb_le. exact Hs. }
  pose proof (live_Truncate l lowest Hnm) as Hlv.
  assert (forall off s,
            find (covers off) (live l) = Some s -> kept lowest s = true ->
            find (covers off) (live (Log_Truncate_ok l lowest)) = Some s /\
            segment_Read s (Dir (Log_Truncate_ok l lowest)) off
            = segment_Read s (Dir l) off) as Hsame.
  { intros off s Hfs Hk.
    destruct (find_covers_Some _ _ _ Hfs) as [Hs Hc]. split.
    - rewrite Hlv, find_filter_covers; [exact Hfs|].
      intros t Ht Hct.
      destruct (chain_covers_unique _ t s off Hch Ht Hs Hct Hc) as [_ E].
      rewrite (NoDup_fmap_eq baseOffset (live l) t s Hnd Ht Hs E). exact Hk.
    - destruct (Log_Truncate_ok_kept l lowest s Hnm Hnd Hs Hk) as [E1 E2].
      apply segment_Read_ext; assumption. }
  exists (Log_Truncate_ok l lowest).
  split; [apply Log_Truncate_found; assumption|].
  split.
  { rewrite Hlv. clear -Hkept.
    induction (live l) as [|s ss IH]; [reflexivity|].
    cbn [List.filter]. rewrite Hkept, IH. reflexivity. }
  split.
  { rewrite Log_Truncate_shape. cbn [segments].
    destruct (truncate_loop_spec (heap l) lowest (segments l) (Dir l) Hnm)
      as (_ & -> & _).
    clear -Hkept. induction (segments l) as [|q qs IH]; [reflexivity|].
    cbn [List.filter]. rewrite IH.
    destruct (heap l !! q); [rewrite Hkept|]; reflexivity. }
  split.
  { intros s Hs Hn. apply Log_Truncate_ok_removed; auto. }
  split.
  { intros s Hs Hn. apply Log_Truncate_ok_kept; auto. }
  split.
  { intros off H. rewrite Hlv. apply find_filter_none.
    intros s Hs Hc. apply Hno, H; assumption. }
  split.
  { intros off s Hfs Hn. apply Hsame; auto. }
  intros off Hoff.
  destruct (find (covers off) (live l)) as [s|] eqn:Hfs.
  - assert (kept lowest s = true) as Hk.
    { apply Hyes. destruct (find_covers_Some _ _ _ Hfs) as [_ Hc].
      unfold covers in Hc. apply andb_true_iff in Hc as [_ Hc].
      apply Z.ltb_lt in Hc. lia. }
    destruct (Hsame off s Hfs Hk) as [E1 E2].
    split; [exact E1|]. intros s' [= <-]. exact E2.
  - split; [|intros s' [=]].
    rewrite Hlv. apply find_filter_none. intros s Hs Hc.
    apply list_elem_of_In in Hs.
    rewrite (List.find_none _ _ Hfs s Hs) in Hc. discriminate.
Qed.

End TruncateLog.

Lemma example_log_bases : NoDup (baseOffset <$> live example_log).
Proof.
  assert (baseOffset <$> live example_log = [0; 2]) as ->
    by (vm_compute; reflexivity).
  apply NoDup_cons. split; [|apply NoDup_singleton].
  rewrite list_elem_of_singleton. discriminate.
Qed.

Lemma example_log_files : Forall (has_files (Dir example_log)) (live example_log).
Proof.
  apply Forall_forall. intros s Hs.
  assert (baseOffset s = 0 \/ baseOffset s = 2) as Hb.
  { apply (list_elem_of_fmap_2 baseOffset) in Hs.
    assert (baseOffset <$> live example_log = [0; 2]) as E
      by (vm_compute; reflexivity).
    rewrite E, !elem_of_cons, elem_of_nil in Hs. tauto. }
  pose proof (inv_named _ example_log_inv) as Hnm.
  rewrite Forall_forall in Hnm. destruct (Hnm s Hs) as [Hsn Hxn].
  unfold has_files. rewrite Hsn, Hxn.
  destruct Hb as [-> | ->]; split; vm_compute; eauto.
Qed.

Lemma truncate_whole_segments_witness :
  exists l' s,
    Log_Truncate example_log 1 = (l', Ok tt) /\
    (fun s => (baseOffset s, nextOffset s)) <$> live l' = [(2, 3)] /\
    find (covers 0) (live l') = None /\
    stores (Dir l') !! 0 = None /\
    find (covers 2) (live l') = Some s /\
    segment_Read s (Dir l') 2 = Ok (mkRecord (Value hello) 2).
Proof.
  destruct (truncate_whole_segments example_log 1
              (inv_chain _ example_log_inv) (inv_named _ example_log_inv)
              example_log_bases example_log_files ltac:(lia) ltac:(lia))
    as (l' & Ht & Hlive & _ & Hfiles & _ & Hgone & Hkeep & _).
  pose (s0 := default (fresh_segment (mkConfig 32 0 0)) (live example_log !! 0%nat)).
  pose (s1 := default (fresh_segment (mkConfig 32 0 0)) (live example_log !! 1%nat)).
  assert (live example_log = [s0; s1]) as Hl by (vm_compute; reflexivity).
  exists l', s1. split; [exact Ht|].
  split; [rewrite Hlive; vm_compute; reflexivity|].
  split.
  { apply Hgone. intros s Hs Hc. rewrite Hl in Hs.
    rewrite !elem_of_cons, elem_of_nil in Hs.
    destruct Hs as [-> | [-> | []]]; [vm_compute; discriminate|].
    vm_compute in Hc. discriminate. }
  split.
  { destruct (Hfiles s0) as [E _].
    - rewrite Hl. left.
    - vm_compute. discriminate.
    - exact E. }
  destruct (Hkeep 2 s1) as [E1 E2].
  - vm_compute. reflexivity.
  - vm_compute. reflexivity.
  - split; [exact E1|]. rewrite E2. vm_compute. reflexivity.
Defined.

(** A log whose three records share one segment: truncating at 1 removes
    nothing, and the segment still holds the records of the offsets 0 and
    1, which it covers. *)
Lemma truncate_keeps_straddling_segment :
  exists l res l' s,
    appends (fresh_log (default_config (mkConfig 100 0 0))) [hello; hello; hello]
      = Some (l, res) /\
    (fun s => (baseOffset s, nextOffset s)) <$> live l = [(0, 3)] /\
    Log_Truncate l 1 = (l', Ok tt) /\
    live l' = [s] /\ baseOffset s = 0 /\ nextOffset s = 3 /\
    find (covers 0) (live l') = Some s /\
    segment_Read s (Dir l') 0 = Ok (mkRecord (Value hello) 0) /\
    find (covers 1) (live l') = Some s /\
    segment_Read s (Dir l') 1 = Ok (mkRecord (Value hello) 1).
Proof.
  eexists _, _, _, _. split; [vm_compute; reflexivity|].
  split; [vm_compute; reflexivity|].
  split; [vm_compute; reflexivity|].
  split; [vm_compute; reflexivity|].
  repeat split; vm_compute; reflexivity.
Qed.

(** ** Closing and opening again *)

Lemma index_Read_same (i i' : index) (d d' : dir) (xf xf' : file) (rel : Z) :
  ix_name i' = ix_name i -> ix_size i' = ix_size i ->
  indexes d !! ix_name i = Some xf -> indexes d' !! ix_name i = Some xf' ->
  ix_size i <= fsize xf -> ix_size i <= fsize xf' ->
  take (Z.to_nat (ix_size i)) xf = take (Z.to_nat (ix_size i)) xf' ->
  index_Read i' d' rel = index_Read i d rel.
Proof.
  intros Hn Hs Hf Hf' Hl Hl' Ht. unfold index_Read. rewrite Hn, Hs, Hf, Hf'.
  destruct (ix_size i =? 0); [reflexivity|].
  set (out := if rel =? -1 then ix_size i / entWidth - 1 else rel).
  destruct ((out <? 0) || (ix_size i <? out * entWidth + entWidth)) eqn:E;
    [reflexivity|].
  apply orb_false_iff in E as [E1 E2]. apply Z.ltb_ge in E1, E2.
  unfold entWidth, offWidth, posWidth in *.
  rewrite (read_at_agree xf' xf (ix_size i) (out * (4 + 8)) 4) by (auto; lia).
  rewrite (read_at_agree xf' xf (ix_size i) (out * (4 + 8) + 4) 8) by (auto; lia).
  reflexivity.
Qed.

Lemma segment_Close_dir (s : segment) (d : dir) :
  seg_named s ->
  stores (segment_Close s d) = stores d /\
  (forall b, b <> baseOffset s ->
     indexes (segment_Close s d) !! b = indexes d !! b) /\
  indexes (segment_Close s d) !! baseOffset s
    = (fun f => truncate f (ix_size (seg_index s))) <$> (indexes d !! baseOffset s).
Proof.
  intros [_ Hxn]. unfold segment_Close, index_Close. rewrite Hxn.
  destruct (indexes d !! baseOffset s) as [f|] eqn:Ef; cbn [stores indexes].
  - split; [reflexivity|]. split.
    + intros b Hb. rewrite lookup_insert_ne by done. reflexivity.
    + rewrite lookup_insert_eq. reflexivity.
  - split; [reflexivity|]. split; [reflexivity|]. rewrite Ef. reflexivity.
Qed.

Lemma Log_Close_dir (ss : list segment) : forall d : dir,
  NoDup (baseOffset <$> ss) -> Forall seg_named ss ->
  stores (fold_left (fun d s => segment_Close s d) ss d) = stores d /\
  (forall b, b ∉ baseOffset <$> ss ->
     indexes (fold_left (fun d s => segment_Close s d) ss d) !! b
     = indexes d !! b) /\
  (forall s, s ∈ ss ->
     indexes (fold_left (fun d s => segment_Close s d) ss d) !! baseOffset s
     = (fun f => truncate f (ix_size (seg_index s))) <$> (indexes d !! baseOffset s)).
Proof.
  induction ss as [|s ss IH]; intros d Hnd Hnm; cbn [fold_left].
  - split; [reflexivity|]. split; [reflexivity|]. intros s Hs. inversion Hs.
  - rewrite fmap_cons in Hnd. apply NoDup_cons in Hnd as [Hs Hnd].
    apply Forall_cons in Hnm as [Hsn Hnm].
    destruct (segment_Close_dir s d Hsn) as (C1 & C2 & C3).
    destruct (IH (segment_Close s d) Hnd Hnm) as (H1 & H2 & H3).
    split; [rewrite H1; exact C1|]. split.
    + intros b Hb. rewrite fmap_cons in Hb. apply not_elem_of_cons in Hb as [Hb1 Hb2].
      rewrite (H2 b Hb2). apply C2. exact Hb1.
    + intros t Ht. apply elem_of_cons in Ht as [->|Ht].
      * rewrite (H2 _ Hs). exact C3.
      * rewrite (H3 t Ht). rewrite C2; [reflexivity|].
        intros E. apply Hs. rewrite <- E. apply list_elem_of_fmap_2. exact Ht.
Qed.

Lemma every_other_twice (bs : list Z) : every_other (twice bs) = bs.
Proof.
  induction bs as [|b bs IH]; [reflexivity|].
  cbn [twice every_other]. rewrite IH. reflexivity.
Qed.

Lemma twice_Permutation (bs : list Z) : twice bs ≡ₚ bs ++ bs.
Proof.
  induction bs as [|b bs IH]; [reflexivity|].
  cbn [twice app]. rewrite IH. constructor.
  rewrite <- Permutation_middle. reflexivity.
Qed.

Lemma elem_of_twice (bs : list Z) (x : Z) : x ∈ twice bs -> x ∈ bs.
Proof.
  intros H. rewrite twice_Permutation in H.
  apply elem_of_app in H as [H|H]; exact H.
Qed.

Lemma twice_Sorted (bs : list Z) :
  StronglySorted Z.lt bs -> Sorted Z.le (twice bs).
Proof.
  intros H. apply StronglySorted_Sorted.
  induction H as [|b bs Hs IH Hb]; [constructor|].
  cbn [twice].
  assert (Forall (Z.le b) (twice bs)) as Hle.
  { apply Forall_forall. intros x Hx. apply elem_of_twice in Hx.
    rewrite Forall_forall in Hb. specialize (Hb x Hx). lia. }
  constructor; [constructor; [exact IH | exact Hle]|].
  constructor; [lia | exact Hle].
Qed.

Lemma StronglySorted_lt_NoDup (bs : list Z) : StronglySorted Z.lt bs -> NoDup bs.
Proof.
  induction 1 as [|b bs Hs IH Hb]; constructor; [|exact IH].
  intros Hin. rewrite Forall_forall in Hb. specialize (Hb b Hin). lia.
Qed.

Lemma bases_ascending (ss : list segment) :
  chain ss -> Forall (fun s => baseOffset s < nextOffset s) ss ->
  StronglySorted Z.lt (baseOffset <$> ss).
Proof.
  induction ss as [|s ss IH]; intros Hc Hne; [constructor|].
  destruct Hc as [Hs Hc]. apply Forall_cons in Hne as [Hn Hne].
  rewrite fmap_cons. constructor; [exact (IH Hc Hne)|].
  apply Forall_fmap. eapply Forall_impl; [exact Hs|].
  intros t Ht. simpl in *. lia.
Qed.

Lemma keys_Permutation (m : gmap Z (list byte)) (bs : list Z) :
  NoDup bs -> dom m = list_to_set bs -> (map_to_list m).*1 ≡ₚ bs.
Proof.
  intros Hnd Hdom. apply NoDup_Permutation.
  - apply NoDup_fst_map_to_list.
  - exact Hnd.
  - intros x. rewrite <- (elem_of_list_to_set (C := gset Z) x bs), <- Hdom.
    rewrite elem_of_dom, list_elem_of_fmap. split.
    + intros [[k v] [-> H]]. apply elem_of_map_to_list in H. simpl. eauto.
    + intros [v H]. exists (x, v). split; [reflexivity|].
      apply elem_of_map_to_list. exact H.
Qed.

Lemma sorted_stems (d : dir) (bs : list Z) :
  StronglySorted Z.lt bs ->
  dom (stores d) = list_to_set bs -> dom (indexes d) = list_to_set bs ->
  every_other (merge_sort Z.le (file_stems d)) = bs.
Proof.
  intros Hs Hds Hdi.
  pose proof (StronglySorted_lt_NoDup bs Hs) as Hnd.
  assert (merge_sort Z.le (file_stems d) = twice bs) as ->;
    [|apply every_other_twice].
  apply (Sorted_unique Z.le).
  - apply Sorted_merge_sort. apply _.
  - apply twice_Sorted. exact Hs.
  - rewrite merge_sort_Permutation, twice_Permutation. unfold file_stems.
    rewrite (keys_Permutation _ bs Hnd Hds), (keys_Permutation _ bs Hnd Hdi).
    reflexivity.
Qed.

(** Opening a closed segment again: the last entry gives back its next
    offset. *)
Lemma reopen_segment (d : dir) (b n : Z) (c : Config) (sf xf : list byte)
    (ob : list byte) :
  stores d !! b = Some sf -> indexes d !! b = Some xf ->
  fsize xf = entWidth * n -> 1 <= n -> entWidth * n <= MaxIndexBytes c ->
  read_at xf (entWidth * n - entWidth) offWidth = Some ob ->
  be_value ob = n - 1 -> 0 <= b -> b + n < 2 ^ 64 ->
  exists s' d2,
    newSegment d b c = Ok (s', d2) /\
    baseOffset s' = b /\ nextOffset s' = b + n /\ seg_named s' /\
    ix_size (seg_index s') = entWidth * n /\
    stores d2 = stores d /\
    indexes d2 = <[b := truncate xf (MaxIndexBytes c)]> (indexes d).
Proof.
  intros Hsf Hxf Hlen Hn Hcap Hob Hval Hb Hbn.
  destruct (newSegment_shape d b c)
    as (s' & d2 & Hns & Hbase & Hnm & _ & _ & Hsz & _ & Hd2s & Hd2i & Hnext).
  rewrite Hsf in Hd2s. rewrite Hxf in Hd2i, Hsz.
  change (default [] (Some sf)) with sf in Hd2s.
  change (default [] (Some xf)) with xf in Hd2i, Hsz.
  rewrite Hlen in Hsz.
  exists s', d2. split; [exact Hns|]. split; [exact Hbase|].
  split; [|split; [exact Hnm|split; [exact Hsz|split; [|exact Hd2i]]]].
  - rewrite Hnext. clear Hnext. unfold index_Read.
    destruct Hnm as [_ Hxn]. rewrite Hxn, Hbase, Hsz, Hd2i, lookup_insert_eq.
    unfold entWidth, offWidth, posWidth in *.
    destruct ((4 + 8) * n =? 0) eqn:E0; [apply Z.eqb_eq in E0; lia|].
    change (-1 =? -1) with true. cbv iota.
    replace ((4 + 8) * n / (4 + 8)) with n
      by (rewrite Z.mul_comm, Z.div_mul; lia).
    destruct ((n - 1 <? 0) || ((4 + 8) * n <? (n - 1) * (4 + 8) + (4 + 8))) eqn:E.
    { apply orb_true_iff in E as [E|E]; apply Z.ltb_lt in E; lia. }
    assert (take (Z.to_nat ((4 + 8) * n)) (truncate xf (MaxIndexBytes c))
            = take (Z.to_nat ((4 + 8) * n)) xf) as Ht
      by (apply take_truncate; lia).
    rewrite (read_at_agree _ xf ((4 + 8) * n) ((n - 1) * (4 + 8)) 4 Ht)
      by (rewrite ?fsize_truncate; lia).
    replace ((n - 1) * (4 + 8)) with ((4 + 8) * n - (4 + 8)) by lia.
    rewrite Hob.
    rewrite (read_at_in _ ((4 + 8) * n - (4 + 8) + 4) 8)
      by (rewrite ?fsize_truncate; lia).
    rewrite Hval. unfold wrap64. rewrite Z.mod_small by lia. lia.
  - rewrite Hd2s. apply insert_id. exact Hsf.
Qed.

Lemma open_segments_reopen (ss : list segment) : forall l0 : Log,
  NoDup (baseOffset <$> ss) -> Forall seg_range ss ->
  Forall (fun q => is_Some (heap l0 !! q)) (segments l0) ->
  Forall (closed_seg (Dir l0) (MaxIndexBytes (LConfig l0))) ss ->
  exists l1 ss',
    open_segments l0 (baseOffset <$> ss) = Ok l1 /\
    LConfig l1 = LConfig l0 /\
    live l1 = live l0 ++ ss' /\
    length (segments l1) = (length (segments l0) + length ss)%nat /\
    Forall2 reopened ss ss' /\
    stores (Dir l1) = stores (Dir l0) /\
    (forall b, b ∉ baseOffset <$> ss ->
       indexes (Dir l1) !! b = indexes (Dir l0) !! b) /\
    (forall s, s ∈ ss ->
       indexes (Dir l1) !! baseOffset s
       = (fun f => truncate f (MaxIndexBytes (LConfig l0)))
           <$> (indexes (Dir l0) !! baseOffset s)).
Proof.
  induction ss as [|s ss IH]; intros l0 Hnd Hrg Hv Hcl.
  - exists l0, []. cbn [fmap list_fmap open_segments length].
    rewrite app_nil_r, Nat.add_0_r.
    do 4 (split; [reflexivity|]). split; [constructor|].
    split; [reflexivity|]. split; [reflexivity|]. intros s Hs. inversion Hs.
  - rewrite fmap_cons in Hnd. apply NoDup_cons in Hnd as [Hs Hnd].
    apply Forall_cons in Hrg as [Hrs Hrg].
    apply Forall_cons in Hcl as [(Hne & Hsz & Hcap & sf & xf & ob & Hsf & Hxf & Hlen & Hob & Hval) Hcl].
    unfold seg_range in Hrs.
    destruct (reopen_segment (Dir l0) (baseOffset s) (nextOffset s - baseOffset s)
                (LConfig l0) sf xf ob Hsf Hxf)
      as (s' & d2 & Hns & Hb' & Hn' & Hnm' & Hsz' & Hd2s & Hd2i);
      [congruence | lia | lia | rewrite <- Hsz; exact Hob | exact Hval | lia | lia |].
    set (l0' := mkLog d2 (LConfig l0) (heap l0 ++ [s'])
                  (Some (length (heap l0))) (segments l0 ++ [length (heap l0)])).
    assert (Log_newSegment l0 (baseOffset s) = Ok l0') as Hnew
      by (unfold Log_newSegment; rewrite Hns; reflexivity).
    destruct (IH l0' Hnd Hrg) as (l1 & ss' & Hop & Hc1 & Hl1 & Hlen1 & Hre & Hst & Hoth & Hidx).
    { apply valid_snoc. exact Hv. }
    { cbn [l0' Dir LConfig]. apply Forall_forall. intros t Ht.
      rewrite Forall_forall in Hcl.
      destruct (Hcl t Ht) as (H1 & H2 & H3 & sf' & xf' & ob' & H4 & H5 & H6).
      assert (baseOffset t <> baseOffset s) as Hts.
      { intros E. apply Hs. rewrite <- E. apply list_elem_of_fmap_2. exact Ht. }
      split; [exact H1|]. split; [exact H2|]. split; [exact H3|].
      exists sf', xf', ob'. rewrite Hd2s, Hd2i, lookup_insert_ne by done.
      auto. }
    exists l1, (s' :: ss'). rewrite fmap_cons. cbn [open_segments].
    rewrite Hnew. split; [exact Hop|]. split; [exact Hc1|].
    split.
    { rewrite Hl1. unfold l0'. rewrite (live_newSegment l0 s' d2 Hv).
      rewrite <- app_assoc. reflexivity. }
    split.
    { rewrite Hlen1. cbn [l0' segments length]. rewrite length_app. simpl. lia. }
    split.
    { constructor; [|exact Hre]. unfold reopened.
      split; [exact Hb'|]. split; [rewrite Hn'; lia|]. split; [exact Hnm'|].
      rewrite Hsz', Hsz. reflexivity. }
    split; [rewrite Hst; exact Hd2s|].
    split.
    { intros b Hb. apply not_elem_of_cons in Hb as [Hb1 Hb2].
      rewrite (Hoth b Hb2). cbn [l0' Dir]. rewrite Hd2i.
      rewrite lookup_insert_ne by done. reflexivity. }
    intros t Ht. apply elem_of_cons in Ht as [->|Ht].
    + rewrite (Hoth _ Hs). cbn [l0' Dir]. rewrite Hd2i, lookup_insert_eq, Hxf.
      reflexivity.
    + rewrite (Hidx t Ht). cbn [l0' Dir LConfig]. rewrite Hd2i.
      rewrite lookup_insert_ne; [reflexivity|].
      intros E. apply Hs. rewrite E. apply list_elem_of_fmap_2. exact Ht.
Qed.

Lemma reopened_head (ss ss' : list segment) :
  Forall2 reopened ss ss' ->
  baseOffset <$> head ss' = baseOffset <$> head ss.
Proof.
  intros [|s s' ? ? (Hb & _) _]; [reflexivity|]. simpl. rewrite Hb. reflexivity.
Qed.

Lemma reopened_last (ss ss' : list segment) :
  Forall2 reopened ss ss' ->
  nextOffset <$> last ss' = nextOffset <$> last ss.
Proof.
  induction 1 as [|s s' ss ss' (_ & Hn & _) H IH]; [reflexivity|].
  rewrite !last_cons.
  destruct (last ss) as [x|], (last ss') as [y|]; simpl in *;
    try discriminate; [exact IH | rewrite Hn; reflexivity].
Qed.

Lemma reopened_find (off : Z) (ss ss' : list segment) :
  Forall2 reopened ss ss' ->
  match find (covers off) ss, find (covers off) ss' with
  | Some s, Some s' => reopened s s' /\ s ∈ ss
  | None, None => True
  | _, _ => False
  end.
Proof.
  induction 1 as [|s s' ss ss' Hr H IH]; [exact I|].
  cbn [find]. pose proof Hr as (Hb & Hn & _).
  assert (covers off s' = covers off s) as ->
    by (unfold covers; rewrite Hb, Hn; reflexivity).
  destruct (covers off s); [split; [exact Hr | left]|].
  destruct (find (covers off) ss), (find (covers off) ss'); try exact IH.
  destruct IH as [IH1 IH2]. split; [exact IH1 | right; exact IH2].
Qed.

Lemma newSegment_next (d : dir) (b : Z) (c : Config) :
  exists s d2,
    newSegment d b c = Ok (s, d2) /\ baseOffset s = b /\
    (fsize (default [] (indexes d !! b)) = 0 -> nextOffset s = b) /\
    (forall (xf ob : list byte) (n : Z),
       indexes d !! b = Some xf -> fsize xf = entWidth * n -> 1 <= n ->
       entWidth * n <= MaxIndexBytes c ->
       read_at xf (entWidth * n - entWidth) offWidth = Some ob ->
       nextOffset s = wrap64 (b + be_value ob + 1)).
Proof.
  destruct (newSegment_shape d b c)
    as (s & d2 & Hns & Hbase & Hnm & _ & _ & Hsz & _ & _ & Hd2i & Hnext).
  exists s, d2. split; [exact Hns|]. split; [exact Hbase|]. split.
  - intros H0. rewrite Hnext, index_Read_empty; [reflexivity|]. congruence.
  - intros xf ob n Hxf Hlen Hn Hcap Hob.
    rewrite Hxf in Hd2i, Hsz. change (default [] (Some xf)) with xf in Hd2i, Hsz.
    rewrite Hlen in Hsz.
    rewrite Hnext. clear Hnext. unfold index_Read.
    destruct Hnm as [_ Hxn]. rewrite Hxn, Hbase, Hsz, Hd2i, lookup_insert_eq.
    unfold entWidth, offWidth, posWidth in *.
    destruct ((4 + 8) * n =? 0) eqn:E0; [apply Z.eqb_eq in E0; lia|].
    change (-1 =? -1) with true. cbv iota.
    replace ((4 + 8) * n / (4 + 8)) with n
      by (rewrite Z.mul_comm, Z.div_mul; lia).
    destruct ((n - 1 <? 0) || ((4 + 8) * n <? (n - 1) * (4 + 8) + (4 + 8))) eqn:E.
    { apply orb_true_iff in E as [E|E]; apply Z.ltb_lt in E; lia. }
    assert (take (Z.to_nat ((4 + 8) * n)) (truncate xf (MaxIndexBytes c))
            = take (Z.to_nat ((4 + 8) * n)) xf) as Ht
      by (apply take_truncate; lia).
    rewrite (read_at_agree _ xf ((4 + 8) * n) ((n - 1) * (4 + 8)) 4 Ht)
      by (rewrite ?fsize_truncate; lia).
    replace ((n - 1) * (4 + 8)) with ((4 + 8) * n - (4 + 8)) by lia.
    rewrite Hob.
    rewrite (read_at_in _ ((4 + 8) * n - (4 + 8) + 4) 8)
      by (rewrite ?fsize_truncate; lia).
    reflexivity.
Qed.

Lemma on_disk_nonempty (l : Log) :
  log_on_disk l -> Forall (fun s => baseOffset s < nextOffset s) (live l).
Proof.
  intros H. eapply Forall_impl; [exact (od_segs l H)|].
  intros s Hs. exact (disk_nonempty _ _ _ Hs).
Qed.

Lemma on_disk_bases (l : Log) :
  log_on_disk l -> StronglySorted Z.lt (baseOffset <$> live l).
Proof.
  intros H. apply bases_ascending; [exact (od_chain l H) | exact (on_disk_nonempty l H)].
Qed.

(** The directory after [Log.Close]. *)
Lemma closed_dir (l : Log) :
  log_on_disk l ->
  stores (Dir (Log_Close l)) = stores (Dir l) /\
  dom (indexes (Dir (Log_Close l))) = dom (indexes (Dir l)) /\
  (forall s, s ∈ live l ->
     exists xf : list byte,
       indexes (Dir l) !! baseOffset s = Some xf /\
       indexes (Dir (Log_Close l)) !! baseOffset s
       = Some (truncate xf (ix_size (seg_index s)))) /\
  Forall (closed_seg (Dir (Log_Close l)) (MaxIndexBytes (LConfig l))) (live l).
Proof.
  intros H. unfold Log_Close. cbn [Dir].
  pose proof (StronglySorted_lt_NoDup _ (on_disk_bases l H)) as Hnd.
  destruct (Log_Close_dir (live l) (Dir l) Hnd (od_named l H)) as (Hs & Ho & Hi).
  pose proof (od_segs l H) as Hsegs. rewrite Forall_forall in Hsegs.
  assert (forall s, s ∈ live l ->
            exists xf : list byte,
              indexes (Dir l) !! baseOffset s = Some xf /\
              indexes (fold_left (fun d s => segment_Close s d) (live l) (Dir l))
                !! baseOffset s
              = Some (truncate xf (ix_size (seg_index s)))) as Hx.
  { intros s Hsin. destruct (disk_index _ _ _ (Hsegs s Hsin)) as (xf & ob & Hxf & _).
    exists xf. split; [exact Hxf|]. rewrite (Hi s Hsin), Hxf. reflexivity. }
  split; [exact Hs|]. split; [|split; [exact Hx|]].
  - apply set_eq. intros b. rewrite !elem_of_dom.
    destruct (decide (b ∈ baseOffset <$> live l)) as [Hb|Hb].
    + apply list_elem_of_fmap in Hb as (s & -> & Hsin).
      destruct (Hx s Hsin) as (xf & H1 & H2). rewrite H1, H2. split; eauto.
    + rewrite (Ho b Hb). reflexivity.
  - apply Forall_forall. intros s Hsin.
    pose proof (Hsegs s Hsin) as Hd.
    destruct (disk_store _ _ _ Hd) as (sf & Hsf).
    destruct (disk_index _ _ _ Hd) as (xf & ob & Hxf & Hle & Hob & Hval).
    destruct (Hx s Hsin) as (xf' & Hxf' & Hcl). rewrite Hxf in Hxf'.
    injection Hxf' as <-.
    pose proof (disk_size _ _ _ Hd) as Hsz.
    pose proof (disk_nonempty _ _ _ Hd) as Hne.
    assert (0 <= ix_size (seg_index s))
      by (rewrite Hsz; unfold entWidth, offWidth, posWidth; lia).
    split; [exact Hne|]. split; [exact Hsz|].
    split; [exact (disk_cap _ _ _ Hd)|].
    exists sf, (truncate xf (ix_size (seg_index s))), ob.
    split; [rewrite Hs; exact Hsf|]. split; [exact Hcl|].
    split; [apply fsize_truncate; lia|]. split; [|exact Hval].
    rewrite <- Hob.
    apply (read_at_agree _ xf (ix_size (seg_index s)));
      rewrite ?fsize_truncate; unfold entWidth, offWidth, posWidth in *; try lia.
    apply take_truncate; lia.
Qed.

Section Reopen.
Context `{codec : RecordCodec}.

Lemma reopen_on_disk (l : Log) (c : Config) :
  log_on_disk l -> default_config c = LConfig l ->
  (forall (d : dir) (b : Z) (cfg : Config),
     exists s d2,
       newSegment d b cfg = Ok (s, d2) /\ baseOffset s = b /\
       (fsize (default [] (indexes d !! b)) = 0 -> nextOffset s = b) /\
       (forall (xf ob : list byte) (n : Z),
          indexes d !! b = Some xf -> fsize xf = entWidth * n -> 1 <= n ->
          entWidth * n <= MaxIndexBytes cfg ->
          read_at xf (entWidth * n - entWidth) offWidth = Some ob ->
          nextOffset s = wrap64 (b + be_value ob + 1))) /\
  exists l',
    NewLog (Dir (Log_Close l)) c = Ok l' /\
    Forall2 reopened (live l) (live l') /\
    Log_LowestOffset_body l' = Log_LowestOffset_body l /\
    Log_HighestOffset_body l' = Log_HighestOffset_body l /\
    forall off, Log_Read_body l' off = Log_Read_body l off.
Proof.
  intros H Hc. split; [exact newSegment_next|].
  destruct (closed_dir l H) as (Hst & Hdom & Hx & Hcl).
  pose proof (on_disk_bases l H) as Hsorted.
  pose proof (StronglySorted_lt_NoDup _ Hsorted) as Hnd.
  set (l0 := mkLog (Dir (Log_Close l)) (default_config c) [] None []).
  destruct (open_segments_reopen (live l) l0 Hnd (od_range l H))
    as (l1 & ss' & Hop & Hc1 & Hl1 & Hlen & Hre & Hst1 & _ & Hidx).
  { constructor. }
  { cbn [l0 Dir LConfig]. rewrite Hc. exact Hcl. }
  assert (NewLog (Dir (Log_Close l)) c = Ok l1) as Hnew.
  { unfold NewLog, setup. fold l0. cbn [l0 Dir].
    rewrite (sorted_stems _ _ Hsorted);
      [| rewrite Hst; exact (od_stores l H) | rewrite Hdom; exact (od_indexes l H)].
    fold l0. rewrite Hop.
    destruct (segments l1) eqn:Es; [|reflexivity].
    cbn [l0 segments length] in Hlen.
    assert (length (live l) <> 0%nat) as Hz
      by (pose proof (od_some l H); destruct (live l); [done | simpl; lia]).
    simpl in Hlen. lia. }
  change (live l0) with (@nil segment) in Hl1. rewrite app_nil_l in Hl1.
  exists l1. split; [exact Hnew|]. rewrite Hl1.
  split; [exact Hre|].
  split.
  { unfold Log_LowestOffset_body. rewrite Hl1.
    pose proof (reopened_head _ _ Hre) as Hh.
    destruct (head ss') as [x|], (head (live l)) as [y|]; cbn in Hh |- *;
      [injection Hh as ->; reflexivity | discriminate | discriminate | reflexivity]. }
  split.
  { unfold Log_HighestOffset_body. rewrite Hl1.
    pose proof (reopened_last _ _ Hre) as Hh.
    destruct (last ss') as [x|], (last (live l)) as [y|]; cbn in Hh |- *;
      [injection Hh as ->; reflexivity | discriminate | discriminate | reflexivity]. }
  intros off. unfold Log_Read_body. rewrite Hl1.
  pose proof (reopened_find off _ _ Hre) as Hf.
  destruct (find (covers off) (live l)) as [s|], (find (covers off) ss') as [s'|];
    try contradiction; [|reflexivity].
  destruct Hf as [(Hb & Hn & [Hsn' Hxn'] & Hsz) Hsin]. rewrite Hn.
  destruct (nextOffset s <=? off); [reflexivity|].
  pose proof (od_named l H) as Hnm. rewrite Forall_forall in Hnm.
  destruct (Hnm s Hsin) as [Hsn Hxn].
  pose proof (od_segs l H) as Hsegs. rewrite Forall_forall in Hsegs.
  pose proof (Hsegs s Hsin) as Hd.
  destruct (disk_index _ _ _ Hd) as (xf & ob & Hxf & Hle & _).
  destruct (Hx s Hsin) as (xf0 & Hxf0 & Hxc). rewrite Hxf in Hxf0.
  injection Hxf0 as <-.
  pose proof (Hidx s Hsin) as Hx1. cbn [l0 Dir LConfig] in Hx1.
  rewrite Hxc in Hx1. cbn [fmap option_fmap option_map] in Hx1.
  pose proof (disk_size _ _ _ Hd) as Hsize.
  pose proof (disk_nonempty _ _ _ Hd) as Hne.
  pose proof (disk_cap _ _ _ Hd) as Hcap. rewrite <- Hc in Hcap.
  assert (0 <= ix_size (seg_index s))
    by (rewrite Hsize; unfold entWidth, offWidth, posWidth; lia).
  unfold segment_Read. rewrite Hb.
  rewrite <- Hxn in Hxf, Hx1.
  rewrite (index_Read_same (seg_index s) (seg_index s') (Dir l) (Dir l1)
             xf _ _ ltac:(congruence) Hsz Hxf Hx1 Hle).
  - destruct (index_Read (seg_index s) (Dir l) _) as [[o pos]|]; [|reflexivity].
    unfold store_Read. rewrite Hst1. cbn [l0 Dir]. rewrite Hst.
    replace (st_name (seg_store s')) with (st_name (seg_store s)) by congruence.
    reflexivity.
  - rewrite fsize_truncate by lia. exact Hcap.
  - rewrite take_truncate; [|lia|rewrite fsize_truncate; lia].
    rewrite take_truncate by lia. reflexivity.
Qed.

End Reopen.

(** * Further properties of the code *)

(** ** What an append can return *)

Section AppendOutcome.
Context `{codec : RecordCodec}.

Lemma segment_Append_outcome (a : segment) (d : dir) (c : Config) (rec : Record)
    (a' : segment) (d' : dir) (res : result Z) :
  active_ok d c a -> seg_named a ->
  segment_Append a d rec = (a', d', res) ->
  match res with
  | Ok off => off = nextOffset a /\
              ix_size (seg_index a) + entWidth <= MaxIndexBytes c
  | Err e => e = ErrIndexFull /\
             MaxIndexBytes c < ix_size (seg_index a) + entWidth
  end.
Proof.
  intros Hok [Hsn Hin] Hap.
  destruct (act_store _ _ _ Hok) as (sf & Hsf & _).
  destruct (act_index _ _ _ Hok) as (xf & Hxf & _).
  pose proof (act_mmap _ _ _ Hok) as Hmm.
  unfold segment_Append, store_Append in Hap. rewrite Hsn, Hsf in Hap.
  unfold index_Write in Hap. cbn [ix_mmap ix_size ix_name indexes] in Hap.
  rewrite Hmm in Hap.
  destruct (MaxIndexBytes c <? ix_size (seg_index a) + entWidth) eqn:E.
  - injection Hap as _ _ <-. apply Z.ltb_lt in E. auto.
  - rewrite Hin, Hxf in Hap. injection Hap as _ _ <-.
    apply Z.ltb_ge in E. auto.
Qed.

Lemma Log_Append_outcome (l : Log) (p : nat) (a : segment) (rec : Record)
    (l' : Log) (res : result Z) :
  log_inv l -> activeSegment l = Some p -> heap l !! p = Some a ->
  payload_ok rec -> nextOffset a + 1 < 2 ^ 64 ->
  Log_Append l rec = Some (l', res) ->
  res = Ok (nextOffset a) /\ entWidth <= MaxIndexBytes (LConfig l) \/
  res = Err ErrIndexFull /\ IsMaxed a = true.
Proof.
  intros Hi Hp Ha Hpay Hnext Hap.
  destruct (log_inv_active l p a Hi Hp Ha) as (ps & _ & Hok & _ & _ & _ & Hnm).
  pose proof (act_config _ _ _ Hok) as Hcfg.
  unfold Log_Append in Hap. rewrite Hp in Hap. cbn [mbind option_bind] in Hap.
  rewrite Ha in Hap. cbn [mbind option_bind] in Hap.
  destruct (IsMaxed a) eqn:Hmax.
  - destruct (rollover_inv l p a Hi Hp Ha Hnext)
      as (l1 & s & Hns & Hi1 & Hc1 & Hh1 & _ & Hp1 & _ & _ & _ & Hfit1 & _).
    rewrite Hns in Hap.
    assert (heap l1 !! length (heap l) = Some s) as Hs1.
    { rewrite Hh1, lookup_app_r, Nat.sub_diag by lia. reflexivity. }
    destruct (log_inv_active l1 _ s Hi1 Hp1 Hs1)
      as (ps1 & _ & Hok1 & _ & _ & _ & Hnm1).
    unfold Log_appendActive in Hap. rewrite Hp1 in Hap.
    cbn [mbind option_bind] in Hap. rewrite Hs1 in Hap.
    cbn [mbind option_bind] in Hap.
    destruct (segment_Append s (Dir l1) rec) as [[s' d'] r] eqn:Hsa.
    injection Hap as <- <-.
    pose proof (segment_Append_outcome s _ _ rec s' d' r Hok1 Hnm1 Hsa) as Hout.
    pose proof (act_size_pos _ _ _ Hok1) as Hpos.
    destruct r as [off|e].
    + destruct Hout as [-> Hfit]. left. rewrite Hc1 in Hfit.
      destruct (Hfit1 Hfit) as [-> _]. split; [reflexivity | lia].
    + destruct Hout as [-> _]. right. auto.
  - unfold Log_appendActive in Hap. rewrite Hp in Hap.
    cbn [mbind option_bind] in Hap. rewrite Ha in Hap.
    cbn [mbind option_bind] in Hap.
    destruct (segment_Append a (Dir l) rec) as [[s' d'] r] eqn:Hsa.
    injection Hap as <- <-.
    pose proof (segment_Append_outcome a _ _ rec s' d' r Hok Hnm Hsa) as Hout.
    pose proof (act_size_pos _ _ _ Hok) as Hpos.
    destruct r as [off|e].
    + destruct Hout as [-> Hfit]. left. split; [reflexivity | lia].
    + destruct Hout as [_ Hfull]. apply orb_false_iff in Hmax as [_ Hm2].
      apply Z.ltb_ge in Hm2. rewrite Hcfg in Hm2. lia.
Qed.

(** X1: on a log built over an empty directory, [Log.Append] returns the
    next offset or fails with the capacity error of the index, nothing
    else; it fails only when it had to roll over, never while the active
    segment is not maxed, and it succeeds only when the index limit has
    room for an entry. *)
Theorem append_returns_offset_or_index_full (l : Log) (p : nat) (a : segment)
    (rec : Record) :
  log_inv l -> activeSegment l = Some p -> heap l !! p = Some a ->
  payload_ok rec -> nextOffset a + 1 < 2 ^ 64 ->
  exists l' res,
    Log_Append l rec = Some (l', res) /\
    (res = Ok (nextOffset a) \/ res = Err ErrIndexFull) /\
    (IsMaxed a = false -> res = Ok (nextOffset a)) /\
    (is_ok res = true -> entWidth <= MaxIndexBytes (LConfig l)).
Proof.
  intros Hi Hp Ha Hpay Hnext.
  destruct (Log_Append_step l p a rec Hi Hp Ha Hpay Hnext)
    as (l' & p' & a' & res & Hap & _).
  exists l', res. split; [exact Hap|].
  destruct (Log_Append_outcome l p a rec l' res Hi Hp Ha Hpay Hnext Hap)
    as [[-> Hroom]|[-> Hmax]].
  - split; [left; reflexivity|]. split; [reflexivity | intros _; exact Hroom].
  - split; [right; reflexivity|]. split; [congruence | discriminate].
Qed.

Lemma appends_no_index_room (rs : list Record) : forall l : Log,
  log_inv l -> MaxIndexBytes (LConfig l) < entWidth -> Forall payload_ok rs ->
  active_next l + Z.of_nat (length rs) < 2 ^ 64 ->
  exists l',
    appends l rs = Some (l', replicate (length rs) (Err ErrIndexFull)).
Proof.
  induction rs as [|rec rs IH]; intros l Hi Hsmall Hpay Hb.
  - exists l. reflexivity.
  - apply Forall_cons in Hpay as [Hp1 Hpay].
    destruct (log_inv_has_active l Hi) as (p & a & Hp & Ha).
    pose proof (active_next_eq l p a Hp Ha) as Hn.
    cbn [length] in Hb. rewrite Nat2Z.inj_succ in Hb.
    destruct (Log_Append_step l p a rec Hi Hp Ha Hp1 ltac:(lia))
      as (l1 & p1 & a1 & res1 & Hap1 & Hi1 & Hc1 & Hp1' & Ha1 & _ & Hn1 & _).
    destruct (Log_Append_outcome l p a rec l1 res1 Hi Hp Ha Hp1 ltac:(lia) Hap1)
      as [[_ Hroom]|[-> _]]; [lia|].
    pose proof (active_next_eq l1 p1 a1 Hp1' Ha1) as Hn1'.
    destruct (IH l1 Hi1 ltac:(rewrite Hc1; exact Hsmall) Hpay ltac:(lia))
      as (l2 & Haps).
    exists l2. cbn [appends]. rewrite Hap1. cbn [mbind option_bind].
    rewrite Haps. reflexivity.
Qed.

(** X2: a [MaxIndexBytes] above zero but below the width of one index entry
    (12 bytes) is taken as it is, and then no record can ever be appended:
    on a log created over an empty directory every [Log.Append] fails with
    the capacity error of the index. *)
Theorem appends_fail_without_index_room (c : Config) (rs : list Record) :
  Config_ok c -> MaxStoreBytes c <> 0 -> 0 < MaxIndexBytes c < entWidth ->
  Forall payload_ok rs -> InitialOffset c + Z.of_nat (length rs) < 2 ^ 64 ->
  exists l l',
    NewLog empty_dir c = Ok l /\
    appends l rs = Some (l', replicate (length rs) (Err ErrIndexFull)).
Proof.
  intros Hc Hst Hix Hpay Hlen.
  assert (default_config c = c) as Hdef.
  { unfold default_config. apply Z.eqb_neq in Hst. rewrite Hst.
    destruct (MaxIndexBytes c =? 0) eqn:E; [apply Z.eqb_eq in E; lia | reflexivity]. }
  pose proof (fresh_log_inv _ Hc) as Hinv.
  destruct (appends_no_index_room rs (fresh_log c) Hinv) as (l' & Hap).
  - apply Hix.
  - exact Hpay.
  - unfold active_next. simpl. exact Hlen.
  - exists (fresh_log c), l'. split; [|exact Hap].
    rewrite NewLog_empty, Hdef. reflexivity.
Qed.

End AppendOutcome.

Lemma append_returns_offset_or_index_full_witness :
  exists l' res,
    Log_Append example_log hello = Some (l', res) /\ res = Ok 3.
Proof.
  pose (a := default (fresh_segment (mkConfig 32 0 0)) (last (live example_log))).
  destruct (append_returns_offset_or_index_full example_log 1%nat a hello
              example_log_inv ltac:(vm_compute; reflexivity)
              ltac:(vm_compute; reflexivity) hello_payload_ok
              ltac:(vm_compute; reflexivity))
    as (l' & res & Hap & _ & Hok & _).
  exists l', res. split; [exact Hap|].
  apply Hok. vm_compute. reflexivity.
Defined.

Lemma small_index_config_ok : Config_ok (mkConfig 32 5 0).
Proof. unfold Config_ok, is_uint64. simpl. lia. Qed.

Lemma appends_fail_without_index_room_witness :
  exists l l',
    NewLog empty_dir (mkConfig 32 5 0) = Ok l /\
    appends l [hello; hello] = Some (l', [Err ErrIndexFull; Err ErrIndexFull]).
Proof.
  exact (appends_fail_without_index_room (mkConfig 32 5 0) [hello; hello]
           small_index_config_ok ltac:(simpl; lia)
           ltac:(unfold entWidth, offWidth, posWidth; simpl; lia)
           ltac:(repeat constructor; exact hello_payload_ok)
           ltac:(simpl; lia)).
Defined.

(** ** The range of readable offsets *)

Lemma chain_head_le (h : segment) (t : list segment) (s : segment) :
  chain (h :: t) -> Forall seg_range (h :: t) -> s ∈ h :: t ->
  baseOffset h <= baseOffset s.
Proof.
  intros [Hh _] Hr Hs. apply elem_of_cons in Hs as [->|Hs]; [lia|].
  apply Forall_cons in Hr as [Hrh _]. unfold seg_range in Hrh.
  rewrite Forall_forall in Hh. specialize (Hh s Hs). lia.
Qed.

Section ReadableRange.
Context `{codec : RecordCodec}.

Lemma appends_span (rs : list Record) : forall (l l' : Log) (res : list (result Z)),
  log_inv l -> roomy (LConfig l) -> active_clean l -> Forall payload_ok rs ->
  active_next l + Z.of_nat (length rs) < 2 ^ 64 ->
  appends l rs = Some (l', res) ->
  log_inv l' /\
  baseOffset <$> head (live l') = baseOffset <$> head (live l) /\
  active_next l' = active_next l + Z.of_nat (length rs).
Proof.
  induction rs as [|rec rs IH]; intros l l' res Hi Hroom Hclean Hpay Hb Hap.
  - simpl in Hap. injection Hap as <- <-. simpl. split; [exact Hi|].
    split; [reflexivity | lia].
  - apply Forall_cons in Hpay as [Hp1 Hpay].
    destruct (log_inv_has_active l Hi) as (p & a & Hp & Ha).
    pose proof (active_next_eq l p a Hp Ha) as Hn.
    cbn [length] in Hb |- *. rewrite Nat2Z.inj_succ in Hb |- *.
    destruct (log_inv_active l p a Hi Hp Ha) as (ps & _ & _ & _ & Hlv & Hr & _).
    destruct (Log_Append_step l p a rec Hi Hp Ha Hp1 ltac:(lia))
      as (l1 & p1 & a1 & res1 & Hap1 & Hi1 & Hc1 & Hp1' & Ha1 & Hmax & Hn1 & _ & Hres1).
    pose proof (Log_Append_roomy l p a rec l1 res1 Hi Hp Ha Hp1 ltac:(lia)
                  Hroom Hclean Hap1) as Hok1.
    cbn [appends] in Hap. rewrite Hap1 in Hap. cbn [mbind option_bind] in Hap.
    destruct (appends l1 rs) as [[l2 ress]|] eqn:Haps; [|discriminate].
    cbn [mbind option_bind] in Hap. injection Hap as <- <-.
    destruct res1 as [off|e]; [|discriminate].
    destruct Hres1 as (-> & Hn' & _).
    pose proof (active_next_eq l1 p1 a1 Hp1' Ha1) as Hn1'.
    destruct (IH l1 l2 ress Hi1) as (Hi2 & Hhd & Hnx);
      [rewrite Hc1; exact Hroom | | exact Hpay | lia | exact Haps |].
    { intros q b Hq Hb' Hempty. rewrite Hp1' in Hq. injection Hq as <-.
      rewrite Ha1 in Hb'. injection Hb' as <-.
      unfold seg_range in Hr.
      destruct (IsMaxed a); destruct Hmax as (_ & _ & Hbase & _); lia. }
    split; [exact Hi2|]. split; [|lia].
    rewrite Hhd. destruct (IsMaxed a).
    + destruct Hmax as (_ & _ & _ & _ & ->). rewrite Hlv.
      destruct (omap (fun q => heap l !! q) ps); reflexivity.
    + destruct Hmax as (_ & _ & Hbase & _ & olds & Ho & ->). rewrite Ho.
      destruct olds; [simpl; rewrite Hbase|]; reflexivity.
Qed.

Lemma appended_range (c : Config) (rs : list Record) :
  Config_ok c -> roomy (default_config c) -> Forall payload_ok rs ->
  rs <> [] -> InitialOffset c + Z.of_nat (length rs) < 2 ^ 64 ->
  exists l' res h a,
    appends (fresh_log (default_config c)) rs = Some (l', res) /\
    head (live l') = Some h /\ baseOffset h = InitialOffset c /\
    last (live l') = Some a /\
    nextOffset a = InitialOffset c + Z.of_nat (length rs) /\
    (forall off s,
       find (covers off) (live l') = Some s ->
       InitialOffset c <= off < InitialOffset c + Z.of_nat (length rs)) /\
    (forall off,
       InitialOffset c <= off < InitialOffset c + Z.of_nat (length rs) ->
       exists rec, rs !! Z.to_nat (off - InitialOffset c) = Some rec /\
                   Log_Read_body l' off = Ok (mkRecord (Value rec) off)).
Proof.
  intros Hc Hroom Hpay Hne Hlen.
  pose proof (fresh_log_inv _ (default_config_ok c Hc)) as Hinv.
  assert (active_next (fresh_log (default_config c)) = InitialOffset c) as Hn0.
  { unfold active_next. simpl. apply default_config_initial. }
  assert (active_clean (fresh_log (default_config c))) as Hclean.
  { intros q b Hq Hb _. cbn [fresh_log activeSegment heap] in Hq, Hb.
    injection Hq as <-. injection Hb as <-. split; reflexivity. }
  destruct (appends_inv rs (fresh_log (default_config c)) Hinv Hpay
              ltac:(rewrite Hn0; lia))
    as (l' & res & Hap & _ & _ & Hlr & _ & _ & Hrd & Hall).
  pose proof (appends_roomy rs _ l' res Hinv Hroom Hclean Hpay
                ltac:(rewrite Hn0; lia) Hap) as Hoks.
  specialize (Hall Hoks). rewrite Hn0 in Hall.
  destruct (appends_span rs _ l' res Hinv Hroom Hclean Hpay
              ltac:(rewrite Hn0; lia) Hap) as (Hi' & Hhd & Hnx).
  rewrite Hn0 in Hnx.
  destruct (log_inv_has_active l' Hi') as (p & a & Hp & Ha).
  rewrite (active_next_eq l' p a Hp Ha) in Hnx.
  destruct (log_inv_active l' p a Hi' Hp Ha) as (ps & _ & _ & _ & Hlv & Hra & _).
  assert (exists h t, live l' = h :: t /\ baseOffset h = InitialOffset c)
    as (h & t & Hht & Hbh).
  { cbn [fresh_log live segments heap omap] in Hhd. simpl in Hhd.
    rewrite default_config_initial in Hhd.
    destruct (live l') as [|h t]; [discriminate|].
    exists h, t. split; [reflexivity|]. simpl in Hhd. congruence. }
  exists l', res, h, a. split; [exact Hap|].
  split; [rewrite Hht; reflexivity|]. split; [exact Hbh|].
  split; [rewrite Hlv; apply last_snoc|]. split; [exact Hnx|]. split.
  - intros off s Hf.
    apply find_covers_Some in Hf as [Hs Hcov].
    apply andb_true_iff in Hcov as [H1 H2].
    apply Z.leb_le in H1. apply Z.ltb_lt in H2.
    pose proof (inv_chain _ Hi') as Hch. pose proof (inv_range _ Hi') as Hrg.
    assert (baseOffset h <= baseOffset s) as Hlo.
    { rewrite Hht in Hch, Hrg, Hs. exact (chain_head_le h t s Hch Hrg Hs). }
    assert (nextOffset s <= nextOffset a) as Hhi.
    { rewrite Hlv in Hch, Hrg, Hs. exact (chain_next_le_last _ a s Hch Hrg Hs). }
    lia.
  - intros off Hoff.
    pose (i := Z.to_nat (off - InitialOffset c)).
    assert (i < length rs)%nat as Hi by lia.
    destruct (lookup_lt_is_Some_2 rs i Hi) as [rec Hrec].
    assert (res !! i = Some (Ok off)) as Hres.
    { rewrite Hall, list_lookup_fmap, lookup_seqZ_lt by lia.
      simpl. f_equal. f_equal. lia. }
    exists rec. split; [exact Hrec | exact (Hrd i rec off Hrec Hres)].
Qed.

(** X3: after [N >= 1] appends to a log created over an empty directory,
    with limits that leave room for a record, the first segment starts at
    the initial offset and the last one ends at the initial offset plus
    [N]; the scan of [Log.Read] finds a segment for exactly the offsets
    between the two, however the records are spread over segments, and that
    segment reads at the [i]-th of these offsets the payload of the [i]-th
    append stamped with that offset.  On a free mutex [LowestOffset] and
    [HighestOffset] compute the initial offset and the initial offset plus
    [N - 1] before their deferred [RUnlock] raises the fatal error. *)
Theorem readable_range_after_appends (c : Config) (rs : list Record) :
  Config_ok c -> roomy (default_config c) -> Forall payload_ok rs ->
  rs <> [] -> InitialOffset c + Z.of_nat (length rs) < 2 ^ 64 ->
  exists l l' res first last_,
    NewLog empty_dir c = Ok l /\ appends l rs = Some (l', res) /\
    head (live l') = Some first /\ baseOffset first = InitialOffset c /\
    last (live l') = Some last_ /\
    nextOffset last_ = InitialOffset c + Z.of_nat (length rs) /\
    (forall off,
       is_Some (find (covers off) (live l')) <->
       InitialOffset c <= off < InitialOffset c + Z.of_nat (length rs)) /\
    (forall off,
       InitialOffset c <= off < InitialOffset c + Z.of_nat (length rs) ->
       exists rec s,
         rs !! Z.to_nat (off - InitialOffset c) = Some rec /\
         find (covers off) (live l') = Some s /\
         segment_Read s (Dir l') off = Ok (mkRecord (Value rec) off)) /\
    Log_LowestOffset Mutex.unlocked l' = Aborts (Some (Ok (InitialOffset c))) /\
    Log_HighestOffset Mutex.unlocked l'
    = Aborts (Some (Ok (InitialOffset c + Z.of_nat (length rs) - 1))).
Proof.
  intros Hc Hroom Hpay Hne Hlen.
  destruct (appended_range c rs Hc Hroom Hpay Hne Hlen)
    as (l' & res & h & a & Hap & Hh & Hbh & Hl & Hna & Hin & Hout).
  assert (forall off,
            InitialOffset c <= off < InitialOffset c + Z.of_nat (length rs) ->
            exists rec s,
              rs !! Z.to_nat (off - InitialOffset c) = Some rec /\
              find (covers off) (live l') = Some s /\
              segment_Read s (Dir l') off = Ok (mkRecord (Value rec) off))
    as Hout'.
  { intros off Hoff. destruct (Hout off Hoff) as (rec & Hrec & Hrd).
    apply Log_Read_body_Ok in Hrd as (s & Hf & Hrd). eauto. }
  assert (length rs <> 0%nat) as Hlen0 by (destruct rs; [done | simpl; lia]).
  exists (fresh_log (default_config c)), l', res, h, a.
  split; [apply NewLog_empty|]. split; [exact Hap|].
  split; [exact Hh|]. split; [exact Hbh|]. split; [exact Hl|].
  split; [exact Hna|]. split; [|split; [exact Hout'|]].
  - intros off. split.
    + intros [s Hs]. exact (Hin off s Hs).
    + intros Hoff. destruct (Hout' off Hoff) as (rec & s & _ & Hf & _). eauto.
  - unfold Log_LowestOffset, Log_HighestOffset.
    rewrite !guarded_RUnlock_unlocked.
    unfold Log_LowestOffset_body, Log_HighestOffset_body. rewrite Hh, Hl.
    cbn [mbind option_bind]. rewrite Hbh, Hna.
    split; [reflexivity|].
    destruct Hc as (_ & _ & Hci). unfold is_uint64 in Hci.
    destruct (InitialOffset c + Z.of_nat (length rs) =? 0) eqn:E.
    + apply Z.eqb_eq in E. exfalso. lia.
    + unfold wrap64. rewrite Z.mod_small by lia. reflexivity.
Qed.

End ReadableRange.

Lemma test_config_roomy : roomy (default_config (mkConfig 32 0 0)).
Proof. unfold roomy, entWidth, offWidth, posWidth. simpl. lia. Qed.

Lemma readable_range_after_appends_witness :
  exists l l' res,
    NewLog empty_dir (mkConfig 32 0 0) = Ok l /\
    appends l [hello; hello; hello] = Some (l', res) /\
    is_Some (find (covers 2) (live l')) /\
    ~ is_Some (find (covers 3) (live l')) /\
    Log_HighestOffset Mutex.unlocked l' = Aborts (Some (Ok 2)).
Proof.
  destruct (readable_range_after_appends (mkConfig 32 0 0) [hello; hello; hello]
              test_config_ok test_config_roomy
              ltac:(repeat constructor; exact hello_payload_ok)
              ltac:(discriminate) ltac:(simpl; lia))
    as (l & l' & res & f & a & Hn & Hap & _ & _ & _ & _ & Hrd & _ & _ & Hhi).
  exists l, l', res. split; [exact Hn|]. split; [exact Hap|].
  split; [apply Hrd; simpl; lia|].
  split; [intros E; apply Hrd in E; simpl in E; lia|].
  exact Hhi.
Defined.

(** ** Reading a segment below its base offset *)

Lemma index_Read_last (i : index) (d : dir) (n : Z) :
  ix_size i = entWidth * n -> 1 <= n ->
  index_Read i d (-1) = index_Read i d (n - 1).
Proof.
  intros Hsz Hn. unfold index_Read. rewrite Hsz.
  replace (entWidth * n / entWidth) with n
    by (unfold entWidth, offWidth, posWidth; simpl; rewrite Z.mul_comm, Z.div_mul; lia).
  rewrite Z.eqb_refl.
  destruct (n - 1 =? -1) eqn:E; [apply Z.eqb_eq in E; lia | reflexivity].
Qed.

Lemma to_int64_below (b : Z) : to_int64 (wrap64 (wrap64 (b - 1) - b)) = -1.
Proof.
  unfold to_int64, wrap64. rewrite Zminus_mod_idemp_l.
  replace (b - 1 - b) with (-1) by lia. reflexivity.
Qed.

Section SegmentReadEdge.
Context `{codec : RecordCodec}.

(** X4: [segment.Read] checks no bounds of its own: for the offset just
    below the base offset the subtraction wraps around, the conversion to
    [int64] gives -1, which the index takes as a request for its last
    entry, and the segment answers with its last record.  (Only the scan of
    [Log.Read] keeps such offsets away from a segment.) *)
Theorem segment_Read_below_base (s : segment) (d : dir) :
  seg_range s -> baseOffset s < nextOffset s ->
  nextOffset s - baseOffset s < 2 ^ 63 ->
  ix_size (seg_index s) = entWidth * (nextOffset s - baseOffset s) ->
  segment_Read s d (wrap64 (baseOffset s - 1))
  = segment_Read s d (nextOffset s - 1).
Proof.
  intros Hr Hne Hsmall Hsz. unfold segment_Read.
  rewrite to_int64_below.
  rewrite (to_int64_small (nextOffset s - 1 - baseOffset s)) by lia.
  rewrite (index_Read_last _ d (nextOffset s - baseOffset s) Hsz) by lia.
  replace (nextOffset s - baseOffset s - 1) with (nextOffset s - 1 - baseOffset s)
    by lia.
  reflexivity.
Qed.

End SegmentReadEdge.

Lemma segment_Read_below_base_witness :
  exists s,
    head (live example_log) = Some s /\ baseOffset s = 0 /\
    segment_Read s (Dir example_log) (2 ^ 64 - 1)
    = Ok (mkRecord (Value hello) 1).
Proof.
  pose (s := default (fresh_segment (mkConfig 32 0 0)) (head (live example_log))).
  exists s. split; [vm_compute; reflexivity|]. split; [vm_compute; reflexivity|].
  change (2 ^ 64 - 1) with (wrap64 (baseOffset s - 1)).
  rewrite (segment_Read_below_base s (Dir example_log)).
  - vm_compute. reflexivity.
  - unfold seg_range. vm_compute. repeat split; discriminate.
  - vm_compute. reflexivity.
  - vm_compute. reflexivity.
  - vm_compute. reflexivity.
Defined.

(** ** Truncation: boundaries and repeated calls *)

Lemma Log_Truncate_ok_twice (l : Log) (a b : Z) :
  wrap64 (a + 1) <= wrap64 (b + 1) ->
  Log_Truncate_ok (Log_Truncate_ok l b) a = Log_Truncate_ok l b /\
  (Forall seg_named (live l) ->
   Log_Truncate_ok (Log_Truncate_ok l a) b = Log_Truncate_ok l b).
Proof.
  intros Hab. split.
  - rewrite (Log_Truncate_shape l b). unfold Log_Truncate_ok at 1.
    cbn [heap segments Dir LConfig activeSegment].
    rewrite truncate_loop_all_kept; [reflexivity|].
    eapply Forall_impl; [apply truncate_loop_survivors|].
    intros q (s & Hq & Hk). exists s. split; [exact Hq|].
    exact (kept_mono a b s Hab Hk).
  - intros Hnm.
    rewrite (Log_Truncate_shape l a), (Log_Truncate_shape l b).
    rewrite Log_Truncate_shape. cbn [heap segments Dir LConfig activeSegment].
    set (h := heap l). set (ps := segments l).
    set (la := truncate_loop_ok h a ps (Dir l)).
    destruct (truncate_loop_keep h a ps (Dir l)) as [Hka Hla].
    fold la in Hka, Hla.
    assert (Forall seg_named (omap (fun q => h !! q) la.1)) as Hnma.
    { rewrite Hla. apply Forall_forall. intros s Hs.
      apply elem_of_List_filter in Hs as [Hs _].
      rewrite Forall_forall in Hnm. apply Hnm. exact Hs. }
    assert (forall k,
      stores (truncate_loop_ok h b la.1 la.2).2 !! k
        = stores (truncate_loop_ok h b ps (Dir l)).2 !! k /\
      indexes (truncate_loop_ok h b la.1 la.2).2 !! k
        = indexes (truncate_loop_ok h b ps (Dir l)).2 !! k) as Hdir.
    { intros k.
      destruct (decide (k ∈ baseOffset <$>
                  List.filter (fun s => negb (kept b s)) (omap (fun q => h !! q) ps)))
        as [Hin|Hout].
      - apply list_elem_of_fmap in Hin as (s & -> & Hs).
        apply elem_of_List_filter in Hs as [Hs Hk].
        apply negb_true_iff in Hk.
        rewrite Forall_forall in Hnm. destruct (Hnm s Hs) as [Hsn Hxn].
        destruct (truncate_loop_gone h b ps s (Dir l) Hs Hk) as [G1 G2].
        rewrite Hsn in G1. rewrite Hxn in G2. rewrite G1, G2.
        destruct (kept a s) eqn:Ea.
        + assert (s ∈ omap (fun q => h !! q) la.1) as Hs'.
          { rewrite Hla. apply elem_of_List_filter. auto. }
          destruct (truncate_loop_gone h b la.1 s la.2 Hs' Hk) as [G3 G4].
          rewrite Hsn in G3. rewrite Hxn in G4. auto.
        + destruct (truncate_loop_gone h a ps s (Dir l) Hs Ea) as [G3 G4].
          fold la in G3, G4. rewrite Hsn in G3. rewrite Hxn in G4.
          destruct (truncate_loop_absent h b la.1 (baseOffset s) la.2). auto.
      - assert (forall s, s ∈ omap (fun q => h !! q) ps -> kept b s = false ->
                          baseOffset s <> k) as Hno.
        { intros s Hs Hk <-. apply Hout. apply list_elem_of_fmap.
          exists s. split; [reflexivity|]. apply elem_of_List_filter.
          rewrite Hk. auto. }
        destruct (truncate_loop_spec h b ps (Dir l) Hnm) as (_ & _ & Hb).
        destruct (Hb k Hno) as [-> ->].
        destruct (truncate_loop_spec h b la.1 la.2 Hnma) as (_ & _ & Hb').
        destruct (Hb' k) as [-> ->].
        { intros s Hs. apply Hno. rewrite Hla in Hs.
          apply elem_of_List_filter in Hs as [Hs _]. exact Hs. }
        destruct (truncate_loop_spec h a ps (Dir l) Hnm) as (_ & _ & Ha).
        fold la in Ha. apply Ha. intros s Hs Hk. apply Hno; [exact Hs|].
        destruct (kept b s) eqn:Eb; [|reflexivity].
        rewrite (kept_mono a b s Hab Eb) in Hk. discriminate. }
    f_equal.
    + apply dir_eq; apply map_eq; intros k; apply Hdir.
    + destruct (truncate_loop_keep h b la.1 la.2) as [-> _].
      destruct (truncate_loop_keep h b ps (Dir l)) as [-> _].
      rewrite Hka. apply filter_filter_sub.
      intros q. destruct (h !! q) as [s|]; [apply kept_mono; exact Hab | done].
Qed.

(** X5: on a log whose segments have distinct base offsets and their two
    files in the directory, truncating twice is truncating once at the
    higher of the two boundaries, and no call returns an error.  A second
    [Truncate] at a boundary that is not above the first removes nothing
    and leaves the log as it is (so [Truncate] is idempotent); a second
    [Truncate] at a higher boundary gives the log, files included, that
    this boundary alone gives. *)
Theorem truncate_twice (l : Log) (a b : Z) :
  Forall seg_named (live l) -> NoDup (baseOffset <$> live l) ->
  Forall (has_files (Dir l)) (live l) ->
  wrap64 (a + 1) <= wrap64 (b + 1) ->
  exists la lb,
    Log_Truncate l a = (la, Ok tt) /\ Log_Truncate l b = (lb, Ok tt) /\
    Log_Truncate lb a = (lb, Ok tt) /\ Log_Truncate la b = (lb, Ok tt).
Proof.
  intros Hnm Hnd Hf Hab.
  destruct (Log_Truncate_ok_twice l a b Hab) as [H1 H2].
  destruct (Log_Truncate_ok_files l a Hnm Hnd Hf) as (Na & Da & Fa).
  destruct (Log_Truncate_ok_files l b Hnm Hnd Hf) as (Nb & Db & Fb).
  exists (Log_Truncate_ok l a), (Log_Truncate_ok l b).
  split; [apply Log_Truncate_found; assumption|].
  split; [apply Log_Truncate_found; assumption|].
  split.
  - rewrite (Log_Truncate_found _ a Nb Db Fb), H1. reflexivity.
  - rewrite (Log_Truncate_found _ b Na Da Fa), (H2 Hnm). reflexivity.
Qed.

(** X6: on a log whose segments have distinct base offsets and their two
    files in the directory, a [Truncate] whose boundary reaches the end of
    the last segment removes every segment and every file of the log and
    returns no error.  What is left is a log without segments whose
    [activeSegment] still points at a removed segment. *)
Theorem truncate_everything (l : Log) (lowest : Z) :
  Forall seg_named (live l) -> NoDup (baseOffset <$> live l) ->
  Forall (has_files (Dir l)) (live l) ->
  Forall (fun s => nextOffset s <= wrap64 (lowest + 1)) (live l) ->
  exists l',
    Log_Truncate l lowest = (l', Ok tt) /\
    segments l' = [] /\ live l' = [] /\
    activeSegment l' = activeSegment l /\
    (forall s, s ∈ live l ->
       stores (Dir l') !! st_name (seg_store s) = None /\
       indexes (Dir l') !! ix_name (seg_index s) = None).
Proof.
  intros Hnm Hnd Hf Hall.
  assert (Forall (fun s => kept lowest s = false) (live l)) as Hk.
  { eapply Forall_impl; [exact Hall|]. intros s Hs. unfold kept.
    apply negb_false_iff, Z.leb_le. exact Hs. }
  exists (Log_Truncate_ok l lowest).
  split; [apply Log_Truncate_found; assumption|].
  assert (segments (Log_Truncate_ok l lowest) = []) as Hsg.
  { rewrite Log_Truncate_shape. cbn [segments].
    apply truncate_loop_none_kept. exact Hk. }
  split; [exact Hsg|].
  split; [unfold live; rewrite Hsg; reflexivity|].
  split; [rewrite Log_Truncate_shape; reflexivity|].
  intros s Hs. apply Log_Truncate_ok_removed; [exact Hs|].
  rewrite Forall_forall in Hk. apply Hk. exact Hs.
Qed.

(** X7: the boundary test of [Truncate] computes [lowest + 1] in [uint64]:
    for the highest value of the type it wraps to 0, so [Truncate] with that
    boundary, far from removing everything, leaves a log whose segments all
    have a next offset above 0 as it is. *)
Theorem truncate_max_uint64 (l : Log) :
  Forall (fun q => exists s, heap l !! q = Some s /\ 0 < nextOffset s)
         (segments l) ->
  Log_Truncate l (2 ^ 64 - 1) = (l, Ok tt).
Proof.
  intros Hpos. unfold Log_Truncate.
  rewrite truncate_loop_untouched; [destruct l; reflexivity|].
  eapply Forall_impl; [exact Hpos|].
  intros q (s & Hq & Hs). exists s. split; [exact Hq|].
  unfold kept. apply negb_true_iff, Z.leb_gt.
  replace (wrap64 (2 ^ 64 - 1 + 1)) with 0 by reflexivity. exact Hs.
Qed.

Lemma filter_kept_last (lowest : Z) (ss : list segment) :
  chain ss -> Forall seg_range ss ->
  List.filter (kept lowest) ss <> [] ->
  last (List.filter (kept lowest) ss) = last ss.
Proof.
  intros Hch Hrg Hne.
  destruct (last ss) as [a|] eqn:Hl.
  - apply last_Some in Hl as [ss' ->].
    rewrite List.filter_app in Hne |- *. cbn [List.filter] in Hne |- *.
    destruct (kept lowest a) eqn:Ea.
    + rewrite !last_snoc. reflexivity.
    + exfalso. apply Hne. rewrite app_nil_r.
      assert (forall t, t ∈ ss' -> kept lowest t = false) as Hno.
      { intros t Ht.
        pose proof (chain_next_le_last ss' a t Hch Hrg
                      ltac:(apply elem_of_app; left; exact Ht)) as Hle.
        unfold kept in Ea |- *. apply negb_false_iff in Ea.
        apply negb_false_iff. apply Z.leb_le in Ea. apply Z.leb_le. lia. }
      clear -Hno. induction ss' as [|t r IH]; [reflexivity|].
      cbn [List.filter]. rewrite (Hno t ltac:(left)).
      apply IH. intros u Hu. apply Hno. right. exact Hu.
  - apply last_None in Hl. subst ss. simpl in Hne. done.
Qed.

(** X8: [Truncate] removes from the old end only: whether or not it returns
    an error, as long as it leaves a segment the last segment is among
    those left, still the last one, and [HighestOffset] ends as it ended
    before, whatever the state of the mutex. *)
Theorem truncate_keeps_highest (l l' : Log) (lowest : Z) (r : result unit) :
  chain (live l) -> Forall seg_range (live l) ->
  Log_Truncate l lowest = (l', r) ->
  live l' <> [] ->
  last (live l') = last (live l) /\
  forall mu, Log_HighestOffset mu l' = Log_HighestOffset mu l.
Proof.
  intros Hch Hrg Ht Hne.
  assert (last (live l') = last (live l)) as Hl.
  { destruct (Log_Truncate_live l l' lowest r Ht) as (Hh & _ & _ & Hr).
    destruct r as [[]|e].
    - rewrite Hr in Hne |- *. apply filter_kept_last; assumption.
    - unfold live. rewrite Hh, Hr. reflexivity. }
  split; [exact Hl|].
  intros mu. unfold Log_HighestOffset, Log_HighestOffset_body.
  rewrite Hl. reflexivity.
Qed.

Lemma segment_Remove_error (s : segment) (d d1 : dir) (e : error) :
  segment_Remove s d = (d1, Err e) -> e = ErrNoFile.
Proof.
  unfold segment_Remove, os_Remove. intros H.
  destruct (indexes (segment_Close s d) !! ix_name (seg_index s));
    [|injection H as _ <-; reflexivity].
  cbn [stores indexes] in H.
  destruct (stores (segment_Close s d) !! st_name (seg_store s));
    [discriminate | injection H as _ <-; reflexivity].
Qed.

Lemma truncate_loop_error (h : list segment) (lowest : Z) (ps : list nat) :
  forall (d d' : dir) (keep : list nat) (e : error),
  truncate_loop h lowest ps d = (keep, d', Err e) -> e = ErrNoFile.
Proof.
  induction ps as [|p ps IH]; intros d d' keep e Ht; [discriminate|].
  cbn [truncate_loop] in Ht. destruct (h !! p) as [s|]; [|exact (IH _ _ _ _ Ht)].
  destruct (nextOffset s <=? wrap64 (lowest + 1)).
  - destruct (segment_Remove s d) as [d1 [[]|e1]] eqn:Er.
    + exact (IH _ _ _ _ Ht).
    + injection Ht as _ _ <-. exact (segment_Remove_error s d d1 e1 Er).
  - destruct (truncate_loop h lowest ps d) as [[keep0 d0] r0] eqn:Et.
    injection Ht as _ _ ->. exact (IH _ _ _ _ Et).
Qed.

(** X18: [Truncate] returns the error of the first [Remove] that fails and
    returns before it assigns [l.segments]: the error is that of removing
    a file that is not there, the log keeps all its segments, those
    already removed included, and the files deleted so far stay deleted. *)
Theorem truncate_error_keeps_segments (l l' : Log) (lowest : Z) (e : error) :
  Log_Truncate l lowest = (l', Err e) ->
  e = ErrNoFile /\
  segments l' = segments l /\ live l' = live l /\
  activeSegment l' = activeSegment l.
Proof.
  intros Ht.
  destruct (Log_Truncate_live l l' lowest (Err e) Ht) as (Hh & Ha & _ & Hs).
  split.
  - unfold Log_Truncate in Ht.
    destruct (truncate_loop (heap l) lowest (segments l) (Dir l))
      as [[keep d] [[]|e1]] eqn:Et; [discriminate|].
    injection Ht as _ <-. exact (truncate_loop_error _ _ _ _ _ _ _ Et).
  - split; [exact Hs|]. split; [|exact Ha].
    unfold live. rewrite Hh, Hs. reflexivity.
Qed.

(** The log of four segments that three appends leave with the zero-value
    configuration: the first two segments share the files of base offset
    0. *)
Definition shared_files_log : Log :=
  match appends (fresh_log (default_config (mkConfig 0 0 0)))
          [hello; hello; hello] with
  | Some (l, _) => l
  | None => fresh_log (mkConfig 0 0 0)
  end.

Lemma truncate_error_keeps_segments_witness :
  (fun s => (baseOffset s, nextOffset s)) <$> live shared_files_log
    = [(0, 0); (0, 1); (1, 2); (2, 3)] /\
  exists l',
    Log_Truncate shared_files_log 0 = (l', Err ErrNoFile) /\
    length (segments l') = 4%nat /\
    stores (Dir l') !! 0 = None /\ indexes (Dir l') !! 0 = None.
Proof.
  split; [vm_compute; reflexivity|].
  destruct (Log_Truncate shared_files_log 0) as [l' r] eqn:Ht.
  assert ((l', r) = Log_Truncate shared_files_log 0) as E by (symmetry; exact Ht).
  vm_compute in E.
  destruct r as [u|e]; [discriminate|].
  destruct (truncate_error_keeps_segments shared_files_log l' 0 e Ht)
    as (-> & Hs & _ & _).
  exists l'. split; [reflexivity|].
  split; [rewrite Hs; vm_compute; reflexivity|].
  injection E as ->. split; vm_compute; reflexivity.
Defined.

Lemma truncate_twice_witness :
  exists la lb,
    Log_Truncate example_log 0 = (la, Ok tt) /\
    Log_Truncate example_log 1 = (lb, Ok tt) /\
    Log_Truncate lb 0 = (lb, Ok tt) /\ Log_Truncate la 1 = (lb, Ok tt).
Proof.
  apply (truncate_twice example_log 0 1 (inv_named _ example_log_inv)
           example_log_bases example_log_files).
  vm_compute. discriminate.
Defined.

Lemma truncate_everything_witness :
  exists l',
    Log_Truncate example_log 2 = (l', Ok tt) /\
    segments l' = [] /\ activeSegment l' = Some 1%nat /\
    stores (Dir l') !! 0 = None /\ stores (Dir l') !! 2 = None.
Proof.
  pose (s0 := default (fresh_segment (mkConfig 32 0 0)) (live example_log !! 0%nat)).
  pose (s1 := default (fresh_segment (mkConfig 32 0 0)) (live example_log !! 1%nat)).
  assert (live example_log = [s0; s1]) as Hl by (vm_compute; reflexivity).
  destruct (truncate_everything example_log 2 (inv_named _ example_log_inv)
              example_log_bases example_log_files)
    as (l' & Ht & Hs & _ & Ha & Hfiles).
  - rewrite Hl. repeat constructor; vm_compute; discriminate.
  - exists l'. split; [exact Ht|]. split; [exact Hs|].
    split; [rewrite Ha; vm_compute; reflexivity|].
    split.
    + apply (Hfiles s0). rewrite Hl. left.
    + apply (Hfiles s1). rewrite Hl. right. left.
Defined.

Lemma truncate_max_uint64_witness :
  Log_Truncate example_log (2 ^ 64 - 1) = (example_log, Ok tt).
Proof.
  apply truncate_max_uint64.
  replace (segments example_log) with [0%nat; 1%nat] by (vm_compute; reflexivity).
  repeat constructor.
  - exists (default (fresh_segment (mkConfig 32 0 0)) (heap example_log !! 0%nat)).
    split; vm_compute; reflexivity.
  - exists (default (fresh_segment (mkConfig 32 0 0)) (heap example_log !! 1%nat)).
    split; vm_compute; reflexivity.
Defined.

Lemma truncate_keeps_highest_witness :
  exists l',
    Log_Truncate example_log 1 = (l', Ok tt) /\
    length (live l') = 1%nat /\
    last (live l') = last (live example_log) /\
    Log_HighestOffset Mutex.unlocked l'
    = Log_HighestOffset Mutex.unlocked example_log.
Proof.
  destruct (Log_Truncate example_log 1) as [l' r] eqn:Ht.
  assert (r = Ok tt /\ length (live l') = 1%nat) as [-> Hlen].
  { assert ((l', r) = Log_Truncate example_log 1) as E by (symmetry; exact Ht).
    vm_compute in E. injection E as -> ->. split; reflexivity. }
  destruct (truncate_keeps_highest example_log l' 1 (Ok tt)
              (inv_chain _ example_log_inv) (inv_range _ example_log_inv) Ht)
    as [H1 H2].
  - intros E. rewrite E in Hlen. discriminate.
  - exists l'. split; [reflexivity|]. split; [exact Hlen|].
    split; [exact H1 | apply H2].
Defined.

(** ** Opening a directory that holds files *)

Lemma open_segments_bases (bs : list Z) : forall l0 : Log,
  Forall (fun q => is_Some (heap l0 !! q)) (segments l0) ->
  exists l1 ss,
    open_segments l0 bs = Ok l1 /\
    heap l1 = heap l0 ++ ss /\ live l1 = live l0 ++ ss /\
    length (segments l1) = (length (segments l0) + length bs)%nat /\
    baseOffset <$> ss = bs /\ Forall seg_named ss /\
    (bs <> [] ->
     activeSegment l1 = Some (length (heap l0) + length bs - 1)%nat) /\
    (Forall (fun b => is_Some (stores (Dir l0) !! b)) bs ->
     stores (Dir l1) = stores (Dir l0)).
Proof.
  induction bs as [|b bs IH]; intros l0 Hv.
  - exists l0, []. cbn [open_segments length]. rewrite !app_nil_r, Nat.add_0_r.
    repeat split; auto. done.
  - cbn [open_segments]. unfold Log_newSegment.
    destruct (newSegment_shape (Dir l0) b (LConfig l0))
      as (s & d2 & Hns & Hb & Hnm & _ & _ & _ & _ & Hst & _).
    rewrite Hns.
    set (l0' := mkLog d2 (LConfig l0) (heap l0 ++ [s]) (Some (length (heap l0)))
                  (segments l0 ++ [length (heap l0)])).
    destruct (IH l0') as (l1 & ss & Hop & Hh & Hl & Hlen & Hbs & Hnms & Hact & Hsts).
    { apply valid_snoc. exact Hv. }
    exists l1, (s :: ss). split; [exact Hop|].
    cbn [l0' heap segments Dir] in Hh, Hlen, Hact, Hsts.
    rewrite length_app in Hlen, Hact. cbn [length] in Hlen, Hact |- *.
    split; [rewrite Hh, <- app_assoc; reflexivity|].
    split.
    { rewrite Hl. unfold l0'. rewrite live_newSegment by exact Hv.
      rewrite <- app_assoc. reflexivity. }
    split; [lia|].
    split; [cbn [fmap list_fmap]; rewrite Hb; f_equal; exact Hbs|].
    split; [constructor; assumption|].
    split.
    { intros _. destruct bs as [|b' bs'].
      - cbn [open_segments] in Hop. injection Hop as <-. cbn [l0' activeSegment].
        f_equal. simpl. lia.
      - rewrite Hact by discriminate. f_equal. cbn [length]. lia. }
    intros Hall. apply Forall_cons in Hall as [[f Hf] Hall].
    assert (stores d2 = stores (Dir l0)) as Hd2.
    { rewrite Hst, Hf. cbn [default]. apply insert_id. exact Hf. }
    rewrite Hsts; [exact Hd2|]. rewrite Hd2. exact Hall.
Qed.

Lemma NewLog_opens (d : dir) (c : Config) (bs : list Z) :
  every_other (merge_sort Z.le (file_stems d)) = bs -> bs <> [] ->
  exists l p a,
    NewLog d c = Ok l /\ baseOffset <$> live l = bs /\
    Forall seg_named (live l) /\
    activeSegment l = Some p /\ heap l !! p = Some a /\
    last (live l) = Some a /\
    (Forall (fun b => is_Some (stores d !! b)) bs -> stores (Dir l) = stores d).
Proof.
  intros Hbs Hne. unfold NewLog, setup. cbn [Dir]. rewrite Hbs.
  destruct (open_segments_bases bs (mkLog d (default_config c) [] None []))
    as (l1 & ss & Hop & Hh & Hl & Hlen & Hb & Hnm & Hact & Hst); [constructor|].
  rewrite Hop. cbn [heap segments Dir length] in *.
  rewrite app_nil_l in Hh. unfold live at 2 in Hl. cbn [segments omap] in Hl.
  rewrite app_nil_l in Hl. subst ss.
  assert (length (heap l1) = length bs) as Hls
    by (rewrite <- Hb, length_fmap; reflexivity).
  assert (exists a, last (heap l1) = Some a) as [a Ha].
  { destruct (last (heap l1)) eqn:E; [eauto|]. apply last_None in E.
    rewrite E in Hls. destruct bs; [done | simpl in Hls; lia]. }
  destruct (segments l1) as [|q qs] eqn:Hsg.
  { destruct bs; [done | simpl in Hlen; lia]. }
  exists l1, (length bs - 1)%nat, a.
  split; [reflexivity|]. split; [rewrite Hl; exact Hb|].
  split; [rewrite Hl; exact Hnm|].
  split; [rewrite (Hact Hne); f_equal|].
  split; [|split; [rewrite Hl; exact Ha | exact Hst]].
  rewrite <- Ha, last_lookup, Hls. f_equal. lia.
Qed.

Lemma StronglySorted_lt_le (bs : list Z) :
  StronglySorted Z.lt bs -> Sorted Z.le bs.
Proof.
  intros H. apply StronglySorted_Sorted.
  induction H as [|b bs Hs IH Hb]; constructor; [exact IH|].
  eapply Forall_impl; [exact Hb|]. intros x Hx. simpl in Hx. lia.
Qed.

(** X9: over a directory that holds a store file and an index file for each
    of the stems [bs], [NewLog] opens one segment per stem, in ascending
    order of the stems whatever the order of the directory listing, and
    makes the last one the active segment; [InitialOffset] plays no part,
    and no store file is created or changed. *)
Theorem NewLog_existing_files (d : dir) (c : Config) (bs : list Z) :
  StronglySorted Z.lt bs -> bs <> [] ->
  dom (stores d) = list_to_set bs -> dom (indexes d) = list_to_set bs ->
  exists l p a,
    NewLog d c = Ok l /\ baseOffset <$> live l = bs /\
    Forall seg_named (live l) /\
    activeSegment l = Some p /\ heap l !! p = Some a /\
    last (live l) = Some a /\ stores (Dir l) = stores d.
Proof.
  intros Hs Hne Hds Hdi.
  destruct (NewLog_opens d c bs (sorted_stems d bs Hs Hds Hdi) Hne)
    as (l & p & a & Hn & Hb & Hnm & Hp & Ha & Hl & Hst).
  exists l, p, a. repeat (split; [assumption|]).
  apply Hst. apply Forall_forall. intros b Hb'.
  apply elem_of_dom. rewrite Hds. apply elem_of_list_to_set. exact Hb'.
Qed.

(** X10: the loop of [setup] steps over every other entry of the sorted
    listing, which pairs a store file with its index file.  When the
    directory holds store files only (the index files are lost), the stems
    are not doubled and every second store file is passed over: no segment
    is opened for it. *)
Theorem NewLog_store_files_only (d : dir) (c : Config) (bs : list Z) :
  StronglySorted Z.lt bs -> bs <> [] ->
  dom (stores d) = list_to_set bs -> indexes d = ∅ ->
  exists l,
    NewLog d c = Ok l /\ baseOffset <$> live l = every_other bs.
Proof.
  intros Hs Hne Hds Hdi.
  assert (merge_sort Z.le (file_stems d) = bs) as Hm.
  { apply (Sorted_unique Z.le).
    - apply Sorted_merge_sort. apply _.
    - apply StronglySorted_lt_le. exact Hs.
    - rewrite merge_sort_Permutation. unfold file_stems.
      rewrite Hdi, map_to_list_empty, app_nil_r.
      apply keys_Permutation; [apply StronglySorted_lt_NoDup; exact Hs | exact Hds]. }
  destruct (NewLog_opens d c (every_other bs)) as (l & p & a & Hn & Hb & _).
  - rewrite Hm. reflexivity.
  - destruct bs as [|x [|y r]]; [done | discriminate | discriminate].
  - exists l. auto.
Qed.

Lemma NewLog_existing_files_witness :
  exists l,
    NewLog (Dir (Log_Close example_log)) (mkConfig 32 0 7) = Ok l /\
    baseOffset <$> live l = [0; 2] /\ activeSegment l = Some 1%nat.
Proof.
  destruct (NewLog_existing_files (Dir (Log_Close example_log)) (mkConfig 32 0 7)
              [0; 2])
    as (l & p & a & Hn & Hb & _ & Hp & _).
  - repeat constructor; lia.
  - discriminate.
  - vm_compute. reflexivity.
  - vm_compute. reflexivity.
  - exists l. split; [exact Hn|]. split; [exact Hb|].
    rewrite Hp. f_equal.
    assert (Ok l = NewLog (Dir (Log_Close example_log)) (mkConfig 32 0 7)) as E
      by (symmetry; exact Hn).
    vm_compute in E. injection E as ->. vm_compute in Hp. injection Hp as <-.
    reflexivity.
Defined.

Lemma NewLog_store_files_only_witness :
  exists l,
    NewLog (mkDir (stores (Dir example_log)) ∅) (mkConfig 32 0 0) = Ok l /\
    baseOffset <$> live l = [0].
Proof.
  destruct (NewLog_store_files_only (mkDir (stores (Dir example_log)) ∅)
              (mkConfig 32 0 0) [0; 2])
    as (l & Hn & Hb).
  - repeat constructor; lia.
  - discriminate.
  - vm_compute. reflexivity.
  - reflexivity.
  - exists l. split; [exact Hn | exact Hb].
Defined.

(** ** The stream of an appended log *)

Section Stream.
Context `{codec : RecordCodec}.

Lemma segment_Append_stores (a : segment) (d : dir) (rec : Record)
    (a' : segment) (d' : dir) (res : result Z) (sf : list byte) :
  stores d !! st_name (seg_store a) = Some sf ->
  segment_Append a d rec = (a', d', res) ->
  stores d'
  = <[st_name (seg_store a) := sf ++ frame (nextOffset a) rec]> (stores d).
Proof.
  intros Hf Hap. unfold segment_Append, store_Append in Hap. rewrite Hf in Hap.
  unfold index_Write in Hap. cbn [indexes stores] in Hap.
  destruct (ix_mmap (seg_index a) <? ix_size (seg_index a) + entWidth).
  - injection Hap as _ <- _. reflexivity.
  - destruct (indexes d !! ix_name (seg_index a)).
    + injection Hap as _ <- _. reflexivity.
    + injection Hap as _ <- _. reflexivity.
Qed.

Lemma Log_appendActive_stores (l : Log) (p : nat) (a : segment) (rec : Record)
    (l' : Log) (res : result Z) (sf : list byte) :
  activeSegment l = Some p -> heap l !! p = Some a ->
  stores (Dir l) !! st_name (seg_store a) = Some sf ->
  Log_appendActive l rec = Some (l', res) ->
  stores (Dir l')
  = <[st_name (seg_store a) := sf ++ frame (nextOffset a) rec]> (stores (Dir l)).
Proof.
  intros Hp Ha Hf Hap. unfold Log_appendActive in Hap. rewrite Hp in Hap.
  cbn [mbind option_bind] in Hap. rewrite Ha in Hap.
  cbn [mbind option_bind] in Hap.
  destruct (segment_Append a (Dir l) rec) as [[s' d'] r] eqn:Hsa.
  injection Hap as <- _. cbn [Dir].
  exact (segment_Append_stores a (Dir l) rec s' d' r sf Hf Hsa).
Qed.

Lemma Log_Append_stores (l : Log) (p : nat) (a : segment) (rec : Record)
    (l' : Log) (res : result Z) :
  log_inv l -> roomy (LConfig l) -> active_clean l ->
  activeSegment l = Some p -> heap l !! p = Some a ->
  nextOffset a + 1 < 2 ^ 64 ->
  Log_Append l rec = Some (l', res) ->
  let k := if IsMaxed a then nextOffset a else baseOffset a in
  stores (Dir l')
  = <[k := default [] (stores (Dir l) !! k) ++ frame (nextOffset a) rec]>
      (stores (Dir l)) /\
  (IsMaxed a = true ->
   stores (Dir l) !! k = None /\ baseOffset a < nextOffset a) /\
  (IsMaxed a = false -> is_Some (stores (Dir l) !! k)).
Proof.
  intros Hi [Hst Hix] Hclean Hp Ha Hnext Hap.
  destruct (log_inv_active l p a Hi Hp Ha) as (ps & Hs & Hok & Hbel & Hl & Hr & Hnm).
  pose proof (act_config _ _ _ Hok) as Hcfg.
  unfold Log_Append in Hap. rewrite Hp in Hap. cbn [mbind option_bind] in Hap.
  rewrite Ha in Hap. cbn [mbind option_bind] in Hap.
  destruct (IsMaxed a) eqn:Hmax; cbn zeta.
  - assert (baseOffset a < nextOffset a) as Hne.
    { unfold seg_range in Hr.
      destruct (Z.eq_dec (nextOffset a) (baseOffset a)) as [E|E]; [|lia].
      destruct (Hclean p a Hp Ha E) as [E1 E2].
      apply IsMaxed_spec in Hmax. rewrite Hcfg, E1, E2 in Hmax.
      unfold entWidth, offWidth, posWidth in *. lia. }
    assert (indexes (Dir l) !! nextOffset a = None) as Hnone.
    { destruct (indexes (Dir l) !! nextOffset a) eqn:E; [|reflexivity].
      pose proof (Hbel (nextOffset a) ltac:(rewrite E; eauto)). lia. }
    assert (stores (Dir l) !! nextOffset a = None) as Hsnone.
    { destruct (stores (Dir l) !! nextOffset a) eqn:E; [|reflexivity].
      destruct (inv_stores l Hi (nextOffset a) ltac:(rewrite E; eauto)) as [x Hx].
      congruence. }
    split; [|split; [auto | discriminate]].
    destruct (newSegment_shape (Dir l) (nextOffset a) (LConfig l))
      as (s & d2 & Hns & Hb & [Hsn _] & _ & Hmm & Hsz & _ & Hsto & _ & Hnx).
    unfold Log_newSegment in Hap. rewrite Hns in Hap.
    assert (nextOffset s = nextOffset a) as Hnxs.
    { rewrite Hnx. rewrite index_Read_empty; [reflexivity|].
      rewrite Hsz, Hnone. reflexivity. }
    rewrite Hsnone in Hsto |- *. cbn [default app] in Hsto |- *.
    set (l1 := mkLog d2 (LConfig l) (heap l ++ [s]) (Some (length (heap l)))
                 (segments l ++ [length (heap l)])) in Hap.
    assert (heap l1 !! length (heap l) = Some s) as Hs1.
    { cbn [l1 heap]. rewrite lookup_app_r, Nat.sub_diag by lia. reflexivity. }
    assert (stores (Dir l1) !! st_name (seg_store s) = Some []) as Hf1.
    { cbn [l1 Dir]. rewrite Hsn, Hb, Hsto. apply lookup_insert_eq. }
    rewrite (Log_appendActive_stores l1 _ s rec l' res [] eq_refl Hs1 Hf1 Hap).
    cbn [l1 Dir]. rewrite Hsn, Hb, Hsto, Hnxs. cbn [app].
    apply insert_insert_eq.
  - destruct (act_store _ _ _ Hok) as (sf & Hsf & _).
    destruct Hnm as [Hsn _].
    split; [|split; [discriminate | intros _; eauto]].
    rewrite Hsf. cbn [default]. rewrite <- Hsn.
    apply (Log_appendActive_stores l p a rec l' res sf Hp Ha);
      [rewrite Hsn; exact Hsf | exact Hap].
Qed.

Lemma Log_stream_snoc (l : Log) (olds : list segment) (a : segment) :
  live l = olds ++ [a] ->
  Log_stream l
  = concat ((fun s => store_bytes (Dir l) (seg_store s)) <$> olds)
    ++ store_bytes (Dir l) (seg_store a).
Proof.
  intros H. unfold Log_stream. rewrite H, fmap_app, concat_app. simpl.
  rewrite app_nil_r. reflexivity.
Qed.

Lemma Log_Append_stream (l : Log) (rec : Record) :
  stream_inv l -> payload_ok rec -> active_next l + 1 < 2 ^ 64 ->
  exists l',
    Log_Append l rec = Some (l', Ok (active_next l)) /\ stream_inv l' /\
    LConfig l' = LConfig l /\
    active_next l' = active_next l + 1 /\
    Log_stream l' = Log_stream l ++ frame (active_next l) rec.
Proof.
  intros (Hi & Hroom & Hclean & Hnd & Hfiles) Hpay Hb.
  destruct (log_inv_has_active l Hi) as (p & a & Hp & Ha).
  pose proof (active_next_eq l p a Hp Ha) as Hn. rewrite Hn in *.
  destruct (log_inv_active l p a Hi Hp Ha) as (ps & Hs & Hok & Hbel & Hl & Hr & Hnm).
  destruct (Log_Append_step l p a rec Hi Hp Ha Hpay Hb)
    as (l' & p' & a' & res & Hap & Hi' & Hc' & Hp' & Ha' & Hmax & Hn' & _ & Hres).
  pose proof (Log_Append_roomy l p a rec l' res Hi Hp Ha Hpay Hb Hroom Hclean Hap)
    as Hok1.
  destruct res as [off|e]; [|discriminate].
  destruct Hres as (-> & Hnx & _).
  destruct (Log_Append_stores l p a rec l' _ Hi Hroom Hclean Hp Ha Hb Hap)
    as (Hsto & Hnew & Hold).
  cbn zeta in Hsto, Hnew, Hold.
  pose proof (active_next_eq l' p' a' Hp' Ha') as Hn1.
  assert (exists olds,
            live l' = olds ++ [a'] /\
            baseOffset a' = (if IsMaxed a then nextOffset a else baseOffset a) /\
            (forall s, s ∈ olds -> s ∈ live l) /\
            Log_stream l
            = concat ((fun s => store_bytes (Dir l) (seg_store s)) <$> olds)
              ++ default [] (stores (Dir l)
                   !! (if IsMaxed a then nextOffset a else baseOffset a)) /\
            NoDup (baseOffset <$> olds ++ [a']))
    as (olds & Hl' & Hba' & Hsub & Hstr & Hnd').
  { destruct (IsMaxed a) eqn:Em.
    - destruct Hmax as (_ & _ & Hbase & _ & Hlv).
      destruct (Hnew eq_refl) as [Hnone Hne].
      exists (live l). split; [exact Hlv|]. split; [exact Hbase|].
      split; [auto|]. split.
      + rewrite Hnone. cbn [default]. rewrite app_nil_r. reflexivity.
      + rewrite fmap_app. apply NoDup_app. split; [exact Hnd|]. split.
        * intros x Hx Hx'. cbn [fmap list_fmap] in Hx'.
          apply list_elem_of_singleton in Hx'. subst x.
          apply list_elem_of_fmap in Hx as (s & Hbs & Hs').
          pose proof (inv_chain _ Hi) as Hch. pose proof (inv_range _ Hi) as Hrg.
          rewrite Hl in Hch, Hrg, Hs'.
          pose proof (chain_next_le_last _ a s Hch Hrg Hs') as Hle.
          rewrite Forall_forall in Hrg. specialize (Hrg s Hs').
          unfold seg_range in Hrg.
          apply elem_of_app in Hs' as [Hs'|Hs'].
          -- apply chain_app in Hch as (_ & _ & Hch).
             rewrite Forall_forall in Hch. specialize (Hch s Hs').
             rewrite Forall_singleton in Hch. lia.
          -- apply list_elem_of_singleton in Hs'. subst s. lia.
        * cbn [fmap list_fmap]. apply NoDup_singleton.
    - destruct Hmax as (_ & _ & Hbase & _ & olds & Ho & Hlv).
      exists olds. split; [exact Hlv|]. split; [exact Hbase|].
      split; [intros s Hs'; rewrite Ho; apply elem_of_app; auto|].
      split.
      + rewrite (Log_stream_snoc l olds a Ho). f_equal.
        unfold store_bytes. destruct Hnm as [-> _]. reflexivity.
      + rewrite Ho in Hnd. rewrite fmap_app in Hnd |- *.
        cbn [fmap list_fmap] in Hnd |- *. rewrite Hbase. exact Hnd. }
  rewrite <- Hba' in Hsto, Hstr.
  assert (forall s, s ∈ olds ->
            st_name (seg_store s) = baseOffset s /\ baseOffset s <> baseOffset a')
    as Holds.
  { intros s Hs'. split.
    - pose proof (inv_named _ Hi) as Hnms. rewrite Forall_forall in Hnms.
      apply (Hnms s (Hsub s Hs')).
    - intros E. rewrite fmap_app in Hnd'. apply NoDup_app in Hnd' as (_ & Hdis & _).
      apply (Hdis (baseOffset s)).
      + apply list_elem_of_fmap. eauto.
      + rewrite E. cbn [fmap list_fmap]. left. }
  assert (seg_named a') as Hnm'.
  { pose proof (inv_named _ Hi') as Hnms. rewrite Forall_forall in Hnms.
    apply Hnms. rewrite Hl'. apply elem_of_app. right. left. }
  exists l'. split; [exact Hap|]. split; [|split; [exact Hc'|split; [lia|]]].
  - split; [exact Hi'|]. split; [rewrite Hc'; exact Hroom|]. split.
    { intros q b Hq Hb' Hempty. rewrite Hp' in Hq. injection Hq as <-.
      rewrite Ha' in Hb'. injection Hb' as <-.
      unfold seg_range in Hr. destruct (IsMaxed a); lia. }
    split; [rewrite Hl'; exact Hnd'|].
    rewrite Hl'. apply Forall_app. split.
    + apply Forall_forall. intros s Hs'. rewrite Hsto.
      destruct (Holds s Hs') as [_ Hne].
      rewrite lookup_insert_ne by congruence.
      rewrite Forall_forall in Hfiles. apply Hfiles, Hsub, Hs'.
    + apply Forall_singleton. rewrite Hsto, lookup_insert_eq. eauto.
  - rewrite (Log_stream_snoc l' olds a' Hl'), Hstr, <- app_assoc. f_equal.
    + f_equal. apply Forall_fmap_ext_1, Forall_forall. intros s Hs'.
      unfold store_bytes.
      destruct (Holds s Hs') as [-> Hne].
      rewrite Hsto, lookup_insert_ne by congruence. reflexivity.
    + unfold store_bytes. destruct Hnm' as [-> _].
      rewrite Hsto, lookup_insert_eq. reflexivity.
Qed.


Lemma fresh_log_stream_inv (c : Config) :
  Config_ok c -> roomy c -> stream_inv (fresh_log c).
Proof.
  intros Hc Hroom. split; [apply fresh_log_inv; exact Hc|].
  split; [exact Hroom|]. split.
  { intros q b Hq Hb _. cbn [fresh_log activeSegment heap] in Hq, Hb.
    injection Hq as <-. injection Hb as <-. split; reflexivity. }
  change (live (fresh_log c)) with [fresh_segment c].
  split.
  - apply NoDup_singleton.
  - apply Forall_singleton. cbn [fresh_log Dir stores fresh_segment baseOffset].
    rewrite lookup_singleton_eq. eauto.
Qed.





End Stream.


(** ** The files of an appended log *)

Lemma seg_on_disk_ext (d d' : dir) (cap : Z) (s : segment) :
  stores d' !! baseOffset s = stores d !! baseOffset s ->
  indexes d' !! baseOffset s = indexes d !! baseOffset s ->
  seg_on_disk d cap s -> seg_on_disk d' cap s.
Proof.
  intros Hs Hx [H1 H2 H3 H4 H5].
  constructor; rewrite ?Hs, ?Hx; assumption.
Qed.

Section AppendedFiles.
Context `{codec : RecordCodec}.

Lemma segment_Append_disk (a : segment) (d : dir) (c : Config) (rec : Record)
    (a' : segment) (d' : dir) (off : Z) :
  seg_named a -> seg_range a -> active_ok d c a ->
  (forall b (f : file), indexes d !! b = Some f -> fsize f = MaxIndexBytes c) ->
  MaxIndexBytes c <= entWidth * 2 ^ 32 ->
  nextOffset a + 1 < 2 ^ 64 ->
  segment_Append a d rec = (a', d', Ok off) ->
  seg_on_disk d' (MaxIndexBytes c) a' /\
  baseOffset a' = baseOffset a /\
  (forall b, b <> baseOffset a ->
     stores d' !! b = stores d !! b /\ indexes d' !! b = indexes d !! b).
Proof.
  intros [Hsn Hxn] Hr Hok Hlen Hcap Hnext Hap.
  destruct (act_store _ _ _ Hok) as (sf & Hsf & Hsz).
  destruct (act_index _ _ _ Hok) as (xf & Hxf & _).
  pose proof (act_mmap _ _ _ Hok) as Hmm.
  pose proof (act_size_pos _ _ _ Hok) as Hpos.
  pose proof (Hlen _ _ Hxf) as Hxlen.
  unfold seg_range in Hr.
  unfold segment_Append, store_Append in Hap. rewrite Hsn, Hsf in Hap.
  unfold index_Write in Hap. cbn [indexes stores seg_index] in Hap.
  destruct (ix_mmap (seg_index a) <? ix_size (seg_index a) + entWidth) eqn:Efull;
    [discriminate|].
  apply Z.ltb_ge in Efull. rewrite Hmm in Efull.
  rewrite Hxn, Hxf in Hap. injection Hap as <- <- _.
  pose proof (act_size _ _ _ Hok Efull) as Hj.
  set (j := nextOffset a - baseOffset a) in *.
  assert (0 <= j < 2 ^ 32) as Hjr.
  { unfold j, entWidth, offWidth, posWidth in *. lia. }
  assert (wrap64 (nextOffset a + 1) = nextOffset a + 1) as Hw
    by (unfold wrap64; apply Z.mod_small; lia).
  assert (wrap32 (wrap64 j) = j) as Hrel.
  { unfold wrap32, wrap64. rewrite (Z.mod_small j (2 ^ 64)) by lia.
    apply Z.mod_small. lia. }
  set (e1 := be_bytes 4 (wrap32 (wrap64 j))).
  set (e2 := be_bytes 8 (st_size (seg_store a))).
  assert (fsize e1 = offWidth) as He1 by (unfold e1; apply fsize_be_bytes).
  assert (fsize (e1 ++ e2) = entWidth) as He.
  { rewrite fsize_app. unfold e1, e2. rewrite !fsize_be_bytes. reflexivity. }
  assert (ix_size (seg_index a) + fsize (e1 ++ e2) <= fsize xf) as Hroom
    by (rewrite He, Hxlen; exact Efull).
  split; [|split].
  - constructor; cbn [seg_index seg_store baseOffset nextOffset ix_size
                      stores indexes].
    + rewrite Hw. lia.
    + rewrite Hw, Hj. unfold j, entWidth, offWidth, posWidth. lia.
    + exact Efull.
    + rewrite lookup_insert_eq. eauto.
    + exists (write_at xf (ix_size (seg_index a)) (e1 ++ e2)), e1.
      split; [apply lookup_insert_eq|].
      split; [rewrite (fsize_write_at _ _ _ Hpos Hroom), Hxlen; exact Efull|].
      split.
      * replace (ix_size (seg_index a) + entWidth - entWidth)
          with (ix_size (seg_index a)) by lia.
        rewrite <- He1.
        apply (read_at_write_at xf (ix_size (seg_index a)) e1 e2 Hpos Hroom).
      * unfold e1. rewrite be_value_be_bytes_small; [rewrite Hrel, Hw; unfold j; lia|].
        rewrite Hrel. change (256 ^ Z.of_nat 4) with (2 ^ 32). exact Hjr.
  - reflexivity.
  - intros b Hb. cbn [stores indexes].
    rewrite !lookup_insert_ne by congruence. auto.
Qed.

Lemma Log_appendActive_disk (l : Log) (p : nat) (a : segment) (rec : Record)
    (l' : Log) (off : Z) :
  activeSegment l = Some p -> heap l !! p = Some a ->
  seg_named a -> seg_range a -> active_ok (Dir l) (LConfig l) a ->
  (forall b (f : file), indexes (Dir l) !! b = Some f ->
                        fsize f = MaxIndexBytes (LConfig l)) ->
  MaxIndexBytes (LConfig l) <= entWidth * 2 ^ 32 ->
  nextOffset a + 1 < 2 ^ 64 ->
  Log_appendActive l rec = Some (l', Ok off) ->
  exists a',
    heap l' !! p = Some a' /\
    seg_on_disk (Dir l') (MaxIndexBytes (LConfig l)) a' /\
    baseOffset a' = baseOffset a /\
    (forall b, b <> baseOffset a ->
       stores (Dir l') !! b = stores (Dir l) !! b /\
       indexes (Dir l') !! b = indexes (Dir l) !! b).
Proof.
  intros Hp Ha Hnm Hr Hok Hlen Hcap Hnext Hap.
  unfold Log_appendActive in Hap. rewrite Hp in Hap.
  cbn [mbind option_bind] in Hap. rewrite Ha in Hap.
  cbn [mbind option_bind] in Hap.
  destruct (segment_Append a (Dir l) rec) as [[a' d'] r] eqn:Hsa.
  injection Hap as <- ->. cbn [heap Dir].
  exists a'. split; [apply list_lookup_insert_eq; eapply lookup_lt_Some; exact Ha|].
  exact (segment_Append_disk a (Dir l) (LConfig l) rec a' d' off
           Hnm Hr Hok Hlen Hcap Hnext Hsa).
Qed.

Lemma Log_Append_disk (l : Log) (rec : Record) :
  disk_inv l -> payload_ok rec -> active_next l + 1 < 2 ^ 64 ->
  exists l',
    Log_Append l rec = Some (l', Ok (active_next l)) /\ disk_inv l' /\
    LConfig l' = LConfig l /\ active_next l' = active_next l + 1 /\
    Forall (seg_on_disk (Dir l') (MaxIndexBytes (LConfig l'))) (live l').
Proof.
  intros (Hs & Hcap & Hds & Hdi & olds & a0 & Hlive & Holds & Hact) Hpay Hb.
  destruct (Log_Append_stream l rec Hs Hpay Hb) as (l' & Hap & Hs' & Hc' & Hn' & _).
  exists l'. split; [exact Hap|].
  destruct Hs as (Hi & Hroom & Hclean & Hnd & Hfiles).
  destruct (log_inv_has_active l Hi) as (p & a & Hp & Ha).
  pose proof (active_next_eq l p a Hp Ha) as Hn. rewrite Hn in *.
  destruct (log_inv_active l p a Hi Hp Ha) as (ps & Hsg & Hok & Hbel & Hl & Hr & Hnm).
  rewrite Hl in Hlive. apply app_inj_tail in Hlive as [Holds' <-].
  rewrite Holds' in Hl. clear Holds' ps Hsg.
  destruct (Log_Append_step l p a rec Hi Hp Ha Hpay Hb)
    as (l2 & p' & a' & res & Hap2 & Hi' & _ & Hp' & Ha' & Hmax & _).
  rewrite Hap in Hap2. injection Hap2 as <- <-.
  pose proof (act_config _ _ _ Hok) as Hcfg.
  assert (exists k olds',
            baseOffset a' = k /\ live l' = olds' ++ [a'] /\
            seg_on_disk (Dir l') (MaxIndexBytes (LConfig l)) a' /\
            (forall b, b <> k ->
               stores (Dir l') !! b = stores (Dir l) !! b /\
               indexes (Dir l') !! b = indexes (Dir l) !! b) /\
            Forall (seg_on_disk (Dir l) (MaxIndexBytes (LConfig l))) olds' /\
            Forall (fun s => baseOffset s <> k) olds' /\
            (forall b, b ∈ baseOffset <$> olds' ++ [a'] <->
                       b = k \/ b ∈ baseOffset <$> live l))
    as (k & olds' & Hk & Hl' & Hda' & Hdir & Holds2 & Hapart & Hbases).
  { unfold Log_Append in Hap. rewrite Hp in Hap. cbn [mbind option_bind] in Hap.
    rewrite Ha in Hap. cbn [mbind option_bind] in Hap.
    destruct (IsMaxed a) eqn:Em.
    - destruct Hmax as (_ & Hp'l & Hbase & _ & Hlv).
      assert (baseOffset a < nextOffset a) as Hne.
      { unfold seg_range in Hr.
        destruct (Z.eq_dec (nextOffset a) (baseOffset a)) as [E|E]; [|lia].
        destruct (Hclean p a Hp Ha E) as [E1 E2].
        apply IsMaxed_spec in Em. rewrite Hcfg, E1, E2 in Em.
        destruct Hroom as [R1 R2].
        unfold entWidth, offWidth, posWidth in *. lia. }
      assert (indexes (Dir l) !! nextOffset a = None) as Hnone.
      { destruct (indexes (Dir l) !! nextOffset a) eqn:E; [|reflexivity].
        pose proof (Hbel (nextOffset a) ltac:(rewrite E; eauto)). lia. }
      assert (nextOffset a ∉ baseOffset <$> live l) as Hfresh.
      { intros Hin. apply Hdi in Hin. rewrite Hnone in Hin.
        destruct Hin; discriminate. }
      destruct (rollover_inv l p a Hi Hp Ha Hb)
        as (l1 & s & Hns & Hi1 & Hc1 & Hh1 & Hs1 & Hp1 & Hl1 & Hb1 & Hn1 & Hfit1 & _).
      rewrite Hns in Hap.
      assert (heap l1 !! length (heap l) = Some s) as Hs1'.
      { rewrite Hh1, lookup_app_r, Nat.sub_diag by lia. reflexivity. }
      destruct (newSegment_shape (Dir l) (nextOffset a) (LConfig l))
        as (s0 & d2 & Hns0 & _ & _ & _ & _ & Hsz & _ & Hd2s & Hd2i & _).
      pose proof Hns as Hns'. unfold Log_newSegment in Hns'.
      rewrite Hns0 in Hns'. injection Hns' as Hl1eq.
      assert (Dir l1 = d2 /\ s0 = s) as [Hd1 ->].
      { rewrite <- Hl1eq in Hh1 |- *. cbn [heap Dir] in Hh1 |- *.
        apply app_inj_tail in Hh1 as [_ E]. auto. }
      assert (ix_size (seg_index s) = 0) as Hz.
      { rewrite Hsz, Hnone. reflexivity. }
      assert (nextOffset s = nextOffset a) as Hnx.
      { apply Hfit1. rewrite Hz. destruct Hroom as [_ R2]. lia. }
      destruct (log_inv_active l1 _ s Hi1 Hp1 Hs1')
        as (ps1 & _ & Hok1 & _ & _ & Hr1 & Hnm1).
      destruct (Log_appendActive_disk l1 _ s rec l' _ Hp1 Hs1' Hnm1 Hr1 Hok1
                  (inv_idxlen l1 Hi1) ltac:(rewrite Hc1; exact Hcap)
                  ltac:(rewrite Hnx; exact Hb) Hap)
        as (a'' & Ha'' & Hd'' & Hb'' & Hdir'').
      rewrite Hp'l in Ha'. rewrite Ha' in Ha''. injection Ha'' as <-.
      exists (nextOffset a), (live l).
      split; [exact Hbase|]. split; [exact Hlv|].
      split; [rewrite <- Hc1; exact Hd''|].
      split.
      { intros b Hbk. destruct (Hdir'' b ltac:(rewrite Hb1; exact Hbk)) as [-> ->].
        rewrite Hd1, Hd2s, Hd2i. rewrite !lookup_insert_ne by congruence. auto. }
      split.
      { rewrite Hl. apply Forall_app. split; [exact Holds|].
        apply Forall_singleton. destruct Hact as [E|E]; [lia | exact E]. }
      split.
      { apply Forall_forall. intros t Ht E. apply Hfresh. rewrite <- E.
        apply list_elem_of_fmap. eauto. }
      intros b. rewrite fmap_app, elem_of_app. cbn [fmap list_fmap].
      rewrite list_elem_of_singleton, Hbase. tauto.
    - destruct Hmax as (_ & Hp'l & Hbase & _ & olds2 & Ho & Hlv).
      rewrite Hl in Ho. apply app_inj_tail in Ho as [<- _].
      destruct (Log_appendActive_disk l p a rec l' _ Hp Ha Hnm Hr Hok
                  (inv_idxlen l Hi) Hcap Hb Hap)
        as (a'' & Ha'' & Hd'' & Hb'' & Hdir'').
      rewrite Hp'l in Ha'. rewrite Ha' in Ha''. injection Ha'' as <-.
      exists (baseOffset a), olds.
      split; [exact Hbase|]. split; [exact Hlv|]. split; [exact Hd''|].
      split; [exact Hdir''|]. split; [exact Holds|].
      split.
      { rewrite Hl, fmap_app in Hnd. apply NoDup_app in Hnd as (_ & Hdis & _).
        apply Forall_forall. intros t Ht E. apply (Hdis (baseOffset t)).
        - apply list_elem_of_fmap. eauto.
        - rewrite E. cbn [fmap list_fmap]. left. }
      intros b. rewrite Hl, !fmap_app, !elem_of_app. cbn [fmap list_fmap].
      rewrite !list_elem_of_singleton, Hbase. tauto. }
  assert (Forall (seg_on_disk (Dir l') (MaxIndexBytes (LConfig l))) olds') as Holds3.
  { rewrite Forall_forall in Holds2, Hapart |- *. intros t Ht.
    destruct (Hdir (baseOffset t) (Hapart t Ht)) as [E1 E2].
    exact (seg_on_disk_ext _ _ _ t E1 E2 (Holds2 t Ht)). }
  assert (forall b, b = k ->
            is_Some (stores (Dir l') !! b) /\ is_Some (indexes (Dir l') !! b))
    as Hatk.
  { intros b ->. rewrite <- Hk.
    destruct (disk_store _ _ _ Hda') as (sf & ->).
    destruct (disk_index _ _ _ Hda') as (xf & ob & -> & _). eauto. }
  split; [|split; [exact Hc'|split; [lia|]]].
  - split; [exact Hs'|]. rewrite Hc'. split; [exact Hcap|].
    split; [|split].
    + intros b. rewrite Hl', Hbases. destruct (decide (b = k)) as [E|E].
      * destruct (Hatk b E). tauto.
      * destruct (Hdir b E) as [-> _]. rewrite Hds. tauto.
    + intros b. rewrite Hl', Hbases. destruct (decide (b = k)) as [E|E].
      * destruct (Hatk b E). tauto.
      * destruct (Hdir b E) as [_ ->]. rewrite Hdi. tauto.
    + exists olds', a'. split; [exact Hl'|]. split; [exact Holds3|].
      right. exact Hda'.
  - rewrite Hc', Hl'. apply Forall_app. split; [exact Holds3|].
    apply Forall_singleton. exact Hda'.
Qed.

Lemma appends_disk (rs : list Record) : forall l : Log,
  disk_inv l -> Forall payload_ok rs ->
  active_next l + Z.of_nat (length rs) < 2 ^ 64 ->
  exists l' res,
    appends l rs = Some (l', res) /\ disk_inv l' /\
    LConfig l' = LConfig l /\
    (rs <> [] ->
     Forall (seg_on_disk (Dir l') (MaxIndexBytes (LConfig l'))) (live l')).
Proof.
  induction rs as [|rec rs IH]; intros l Hinv Hpay Hb.
  - exists l, []. split; [reflexivity|]. split; [exact Hinv|].
    split; [reflexivity | done].
  - apply Forall_cons in Hpay as [Hp1 Hpay].
    cbn [length] in Hb. rewrite Nat2Z.inj_succ in Hb.
    destruct (Log_Append_disk l rec Hinv Hp1 ltac:(lia))
      as (l1 & Hap1 & Hinv1 & Hc1 & Hn1 & Hall1).
    destruct (IH l1 Hinv1 Hpay ltac:(lia)) as (l2 & ress & Haps & Hinv2 & Hc2 & Hall2).
    exists l2, (Ok (active_next l) :: ress).
    split; [cbn [appends]; rewrite Hap1; cbn [mbind option_bind];
            rewrite Haps; reflexivity|].
    split; [exact Hinv2|]. split; [congruence|]. intros _.
    destruct rs as [|rec' rs'].
    + cbn [appends] in Haps. injection Haps as <- _. exact Hall1.
    + apply Hall2. discriminate.
Qed.

Lemma fresh_log_disk_inv (c : Config) :
  Config_ok c -> roomy c -> MaxIndexBytes c <= entWidth * 2 ^ 32 ->
  disk_inv (fresh_log c).
Proof.
  intros Hc Hroom Hcap.
  split; [apply fresh_log_stream_inv; assumption|].
  split; [exact Hcap|].
  change (live (fresh_log c)) with [fresh_segment c].
  cbn [fmap list_fmap fresh_segment baseOffset fresh_log Dir stores indexes].
  split; [|split].
  - intros b. rewrite list_elem_of_singleton.
    destruct (decide (b = InitialOffset c)) as [->|E].
    + rewrite lookup_singleton_eq. split; eauto.
    + rewrite lookup_singleton_ne by congruence. split; [intros [? ?]|]; done.
  - intros b. rewrite list_elem_of_singleton.
    destruct (decide (b = InitialOffset c)) as [->|E].
    + rewrite lookup_singleton_eq. split; eauto.
    + rewrite lookup_singleton_ne by congruence. split; [intros [? ?]|]; done.
  - exists [], (fresh_segment c). split; [reflexivity|].
    split; [constructor|]. left. reflexivity.
Qed.

Lemma disk_inv_on_disk (l : Log) :
  disk_inv l ->
  Forall (seg_on_disk (Dir l) (MaxIndexBytes (LConfig l))) (live l) ->
  log_on_disk l.
Proof.
  intros ((Hi & _) & _ & Hds & Hdi & olds & a & Hl & _) Hall.
  constructor.
  - rewrite Hl. intros E. destruct olds; discriminate.
  - exact (inv_chain _ Hi).
  - exact (inv_named _ Hi).
  - exact (inv_range _ Hi).
  - exact Hall.
  - apply set_eq. intros b. rewrite elem_of_dom, elem_of_list_to_set. apply Hds.
  - apply set_eq. intros b. rewrite elem_of_dom, elem_of_list_to_set. apply Hdi.
  - exact (inv_cfg _ Hi).
Qed.

(** [N >= 1] appends on a log created over an empty directory leave a log
    whose directory holds exactly the files of its segments, all of them
    with records. *)
Lemma appended_log_on_disk (c : Config) (rs : list Record) :
  Config_ok c -> roomy (default_config c) ->
  MaxIndexBytes (default_config c) <= entWidth * 2 ^ 32 ->
  rs <> [] -> Forall payload_ok rs ->
  InitialOffset c + Z.of_nat (length rs) < 2 ^ 64 ->
  exists l' res,
    appends (fresh_log (default_config c)) rs = Some (l', res) /\
    log_on_disk l' /\ log_inv l' /\ LConfig l' = default_config c /\
    roomy (LConfig l') /\ active_clean l'.
Proof.
  intros Hc Hroom Hcap Hne Hpay Hlen.
  pose proof (fresh_log_disk_inv _ (default_config_ok c Hc) Hroom Hcap) as Hinv.
  assert (active_next (fresh_log (default_config c)) = InitialOffset c) as Hn0.
  { unfold active_next. simpl. apply default_config_initial. }
  destruct (appends_disk rs _ Hinv Hpay ltac:(rewrite Hn0; lia))
    as (l' & res & Hap & Hinv' & Hc' & Hall).
  exists l', res. split; [exact Hap|].
  split; [exact (disk_inv_on_disk l' Hinv' (Hall Hne))|].
  destruct Hinv' as ((Hi & Hr & Hcl & _) & _). auto.
Qed.

End AppendedFiles.

(** ** Closing and opening an appended log *)

Section ReopenAppended.
Context `{codec : RecordCodec}.

(** C6: [newSegment] takes [baseOffset] as next offset when the index file
    is empty, else [baseOffset] plus the relative offset of the last index
    entry plus one.  So after [N >= 1] appends on a log created over an
    empty directory, with limits that leave room for a record, closing the
    log and calling [NewLog] on its directory gives a log whose segments
    have the base and next offsets of before and hold every record where
    it was, the appended ones at the offsets their appends returned.
    [LowestOffset], [HighestOffset] and [Read] end on the opened log as
    they end on the closed one, which is never by returning: their
    deferred [RUnlock] raises the fatal error. *)
Theorem reopen_reproduces_log (c : Config) (rs : list Record) :
  Config_ok c -> roomy (default_config c) ->
  MaxIndexBytes (default_config c) <= entWidth * 2 ^ 32 ->
  rs <> [] -> Forall payload_ok rs ->
  InitialOffset c + Z.of_nat (length rs) < 2 ^ 64 ->
  (forall (d : dir) (b : Z) (cfg : Config),
     exists s d2,
       newSegment d b cfg = Ok (s, d2) /\ baseOffset s = b /\
       (fsize (default [] (indexes d !! b)) = 0 -> nextOffset s = b) /\
       (forall (xf ob : list byte) (n : Z),
          indexes d !! b = Some xf -> fsize xf = entWidth * n -> 1 <= n ->
          entWidth * n <= MaxIndexBytes cfg ->
          read_at xf (entWidth * n - entWidth) offWidth = Some ob ->
          nextOffset s = wrap64 (b + be_value ob + 1))) /\
  exists l l' res l1,
    NewLog empty_dir c = Ok l /\ appends l rs = Some (l', res) /\
    NewLog (Dir (Log_Close l')) c = Ok l1 /\
    Forall2 reopened (live l') (live l1) /\
    (forall off r, record_at l1 off r <-> record_at l' off r) /\
    (forall i rec off,
       rs !! i = Some rec -> res !! i = Some (Ok off) ->
       record_at l1 off (mkRecord (Value rec) off)) /\
    (forall mu,
       Log_LowestOffset mu l1 = Log_LowestOffset mu l' /\
       Log_HighestOffset mu l1 = Log_HighestOffset mu l' /\
       forall off, Log_Read mu l1 off = Log_Read mu l' off) /\
    (forall mu v mu',
       Log_LowestOffset mu l1 <> Returned v mu' /\
       Log_HighestOffset mu l1 <> Returned v mu') /\
    (forall mu off r mu', Log_Read mu l1 off <> Returned r mu').
Proof.
  intros Hc Hroom Hcap Hne Hpay Hlen. split; [exact newSegment_next|].
  destruct (appended_log_on_disk c rs Hc Hroom Hcap Hne Hpay Hlen)
    as (l' & res & Hap & Hod & Hi' & Hcfg & _).
  destruct (reopen_on_disk l' c Hod (eq_sym Hcfg))
    as (_ & l1 & Hn & Hre & Hlo & Hhi & Hrd).
  pose proof (fresh_log_inv _ (default_config_ok c Hc)) as Hinv.
  assert (active_next (fresh_log (default_config c)) = InitialOffset c) as Hn0.
  { unfold active_next. simpl. apply default_config_initial. }
  destruct (appends_inv rs (fresh_log (default_config c)) Hinv Hpay
              ltac:(rewrite Hn0; lia))
    as (l2 & res2 & Hap2 & _ & _ & _ & _ & _ & Hold & _).
  rewrite Hap in Hap2. injection Hap2 as <- <-.
  exists (fresh_log (default_config c)), l', res, l1.
  split; [apply NewLog_empty|]. split; [exact Hap|]. split; [exact Hn|].
  split; [exact Hre|].
  split; [intros off r; rewrite <- !Log_Read_body_Ok, Hrd; reflexivity|].
  split.
  { intros i rec off Hrec Hres. apply Log_Read_body_Ok. rewrite Hrd.
    exact (Hold i rec off Hrec Hres). }
  split.
  { intros mu. unfold Log_LowestOffset, Log_HighestOffset, Log_Read.
    rewrite Hlo, Hhi. split; [reflexivity|]. split; [reflexivity|].
    intros off. rewrite Hrd. reflexivity. }
  split.
  { intros mu v mu'. split; apply guarded_RUnlock_no_return. }
  intros mu off r mu'. apply guarded_RUnlock_no_return.
Qed.

End ReopenAppended.

Lemma test_config_cap :
  MaxIndexBytes (default_config (mkConfig 32 0 0)) <= entWidth * 2 ^ 32.
Proof. vm_compute. discriminate. Qed.

Lemma reopen_reproduces_log_witness :
  exists l l' res l1,
    NewLog empty_dir (mkConfig 32 0 0) = Ok l /\
    appends l [hello; hello; hello] = Some (l', res) /\
    NewLog (Dir (Log_Close l')) (mkConfig 32 0 0) = Ok l1 /\
    (fun s => (baseOffset s, nextOffset s)) <$> live l1 = [(0, 2); (2, 3)] /\
    record_at l1 1 (mkRecord (Value hello) 1) /\
    Log_HighestOffset Mutex.unlocked l1 = Aborts (Some (Ok 2)).
Proof.
  destruct (reopen_reproduces_log (mkConfig 32 0 0) [hello; hello; hello]
              test_config_ok test_config_roomy test_config_cap
              ltac:(discriminate)
              ltac:(repeat constructor; exact hello_payload_ok)
              ltac:(simpl; lia))
    as (_ & l & l' & res & l1 & Hn & Hap & Hn1 & _ & _ & Hrd & Hm & _).
  exists l, l', res, l1. split; [exact Hn|]. split; [exact Hap|].
  split; [exact Hn1|].
  rewrite NewLog_empty in Hn. injection Hn as <-.
  assert (Some (l', res)
          = appends (fresh_log (default_config (mkConfig 32 0 0)))
              [hello; hello; hello]) as E by (symmetry; exact Hap).
  vm_compute in E. injection E as -> ->.
  split.
  { assert (Ok l1 = NewLog (Dir (Log_Close example_log)) (mkConfig 32 0 0)) as E1
      by (symmetry; exact Hn1).
    vm_compute in E1. injection E1 as ->. vm_compute. reflexivity. }
  split; [exact (Hrd 1%nat hello 1 eq_refl eq_refl)|].
  destruct (Hm Mutex.unlocked) as (_ & -> & _). vm_compute. reflexivity.
Defined.

(** ** Appending after a truncation *)

Section AppendAfterTruncate.
Context `{codec : RecordCodec}.

(** X15: on a log whose segments have distinct base offsets and their two
    files in the directory, a [Truncate] that leaves the active segment
    returns no error and leaves a log that appends as before: the
    invariant of the log holds again; when the next [Append] returns an
    offset it is the one it would have returned without the truncation,
    and the log holds the record there; it does return it when the limits
    leave room for a record; and the records the truncated log held stay
    where they were. *)
Theorem append_after_truncate (l : Log) (lowest : Z) (rec : Record)
    (p : nat) (a : segment) :
  log_inv l -> NoDup (baseOffset <$> live l) ->
  Forall (has_files (Dir l)) (live l) ->
  activeSegment l = Some p -> heap l !! p = Some a ->
  wrap64 (lowest + 1) < nextOffset a ->
  payload_ok rec -> nextOffset a + 1 < 2 ^ 64 ->
  exists lt l' res,
    Log_Truncate l lowest = (lt, Ok tt) /\ log_inv lt /\
    Log_Append lt rec = Some (l', res) /\
    (forall off r, record_at lt off r -> record_at l' off r) /\
    (forall off, res = Ok off ->
       off = nextOffset a /\ record_at l' off (mkRecord (Value rec) off)) /\
    (roomy (LConfig l) -> active_clean l -> res = Ok (nextOffset a)).
Proof.
  intros Hi Hnd Hf Hp Ha Hlow Hpay Hnext.
  assert (kept lowest a = true) as Hk.
  { unfold kept. apply negb_true_iff, Z.leb_gt. exact Hlow. }
  pose proof (Log_Truncate_inv l lowest p a Hi Hnd Hp Ha Hk) as Hi'.
  exists (Log_Truncate_ok l lowest).
  assert (activeSegment (Log_Truncate_ok l lowest) = Some p) as Hp'
    by (rewrite Log_Truncate_shape; exact Hp).
  assert (heap (Log_Truncate_ok l lowest) !! p = Some a) as Ha'
    by (rewrite Log_Truncate_shape; exact Ha).
  destruct (Log_Append_step _ p a rec Hi' Hp' Ha' Hpay Hnext)
    as (l' & p1 & a1 & res & Hap & _ & _ & _ & _ & _ & _ & Hkeep & Hres).
  exists l', res.
  split; [apply Log_Truncate_found; [exact (inv_named _ Hi) | exact Hnd | exact Hf]|].
  split; [exact Hi'|]. split; [exact Hap|].
  split; [intros off r H; apply Log_Read_body_Ok, Hkeep, Log_Read_body_Ok, H|].
  split.
  - intros off ->. destruct Hres as (-> & _ & Hrd).
    split; [reflexivity | apply Log_Read_body_Ok; exact Hrd].
  - intros Hroom Hclean.
    assert (roomy (LConfig (Log_Truncate_ok l lowest))) as Hroom'
      by (rewrite Log_Truncate_shape; exact Hroom).
    assert (active_clean (Log_Truncate_ok l lowest)) as Hclean'.
    { intros q b Hq Hb. rewrite Log_Truncate_shape in Hq, Hb.
      exact (Hclean q b Hq Hb). }
    pose proof (Log_Append_roomy _ p a rec l' res Hi' Hp' Ha' Hpay Hnext
                  Hroom' Hclean' Hap) as Hok.
    destruct res as [off|e]; [|discriminate].
    destruct Hres as (-> & _). reflexivity.
Qed.

End AppendAfterTruncate.

Lemma example_log_roomy : roomy (LConfig example_log).
Proof. split; vm_compute; [reflexivity | discriminate]. Qed.

Lemma example_log_clean : active_clean example_log.
Proof.
  intros p a Hp Ha. vm_compute in Hp. injection Hp as <-.
  vm_compute in Ha. injection Ha as <-. vm_compute. discriminate.
Qed.

Lemma append_after_truncate_witness :
  exists lt l',
    Log_Truncate example_log 1 = (lt, Ok tt) /\
    live lt <> live example_log /\
    Log_Append lt hello = Some (l', Ok 3) /\
    record_at l' 3 (mkRecord (Value hello) 3).
Proof.
  pose (a := default (fresh_segment (mkConfig 32 0 0)) (last (live example_log))).
  destruct (append_after_truncate example_log 1 hello 1%nat a example_log_inv
              example_log_bases example_log_files)
    as (lt & l' & res & Ht & _ & Hap & _ & Hres & Hok).
  - vm_compute. reflexivity.
  - vm_compute. reflexivity.
  - vm_compute. reflexivity.
  - exact hello_payload_ok.
  - vm_compute. reflexivity.
  - pose proof (Hok example_log_roomy example_log_clean) as E.
    change (res = Ok 3) in E. subst res.
    exists lt, l'. split; [exact Ht|].
    split.
    { assert ((lt, Ok tt) = Log_Truncate example_log 1) as E
        by (symmetry; exact Ht).
      vm_compute in E. injection E as ->. vm_compute. discriminate. }
    split; [exact Hap|]. apply (Hres 3 eq_refl).
Defined.

(** ** Appending to a log that was closed and opened again *)

Lemma open_segments_handles (bs : list Z) : forall l0 : Log,
  Forall (fun b => is_Some (stores (Dir l0) !! b)) bs ->
  exists l1 ss,
    open_segments l0 bs = Ok l1 /\ heap l1 = heap l0 ++ ss /\
    segments l1 = segments l0 ++ seq (length (heap l0)) (length bs) /\
    Forall (fun s =>
      config s = LConfig l0 /\
      ix_mmap (seg_index s) = MaxIndexBytes (LConfig l0) /\
      st_size (seg_store s)
      = fsize (default [] (stores (Dir l0) !! baseOffset s))) ss.
Proof.
  induction bs as [|b bs IH]; intros l0 Hall.
  - exists l0, []. cbn. rewrite !app_nil_r. auto.
  - apply Forall_cons in Hall as [[f Hf] Hall].
    cbn [open_segments]. unfold Log_newSegment.
    destruct (newSegment_shape (Dir l0) b (LConfig l0))
      as (s & d2 & Hns & Hb & _ & Hcf & Hmm & _ & Hss & Hst & _).
    rewrite Hns.
    assert (stores d2 = stores (Dir l0)) as Hd2.
    { rewrite Hst, Hf. cbn [default]. apply insert_id. exact Hf. }
    set (l0' := mkLog d2 (LConfig l0) (heap l0 ++ [s]) (Some (length (heap l0)))
                  (segments l0 ++ [length (heap l0)])).
    destruct (IH l0') as (l1 & ss & Hop & Hh & Hsg & Hfacts).
    { cbn [l0' Dir]. rewrite Hd2. exact Hall. }
    exists l1, (s :: ss). split; [exact Hop|].
    cbn [l0' heap segments Dir LConfig] in Hh, Hsg, Hfacts.
    split; [rewrite Hh, <- app_assoc; reflexivity|].
    split.
    { rewrite Hsg, length_app. cbn [length seq].
      replace (length (heap l0) + 1)%nat with (S (length (heap l0))) by lia.
      rewrite <- app_assoc. reflexivity. }
    constructor.
    + rewrite Hb. auto.
    + eapply Forall_impl; [exact Hfacts|]. intros t (H1 & H2 & H3).
      rewrite Hd2 in H3. auto.
Qed.

Lemma sorted_last_max (bs : list Z) (x b : Z) :
  StronglySorted Z.lt (bs ++ [x]) -> b ∈ bs ++ [x] -> b <= x.
Proof.
  induction bs as [|y bs IH]; cbn [app]; intros Hs Hb.
  - apply list_elem_of_singleton in Hb. lia.
  - apply StronglySorted_inv in Hs as [Hs Hy].
    apply elem_of_cons in Hb as [->|Hb]; [|apply IH; assumption].
    rewrite Forall_forall in Hy.
    specialize (Hy x ltac:(apply elem_of_app; right; left)). lia.
Qed.

Lemma reopened_Forall (P : segment -> Prop) (ss ss' : list segment) :
  (forall s s', reopened s s' -> P s -> P s') ->
  Forall2 reopened ss ss' -> Forall P ss -> Forall P ss'.
Proof.
  intros HP. induction 1 as [|s s' ss ss' Hr H IH]; intros HF; [constructor|].
  apply Forall_cons in HF as [Hs HF]. constructor; eauto.
Qed.

Lemma chain_reopened (ss ss' : list segment) :
  Forall2 reopened ss ss' -> chain ss -> chain ss'.
Proof.
  induction 1 as [|s s' ss ss' (Hb & Hn & _) H IH]; [auto|].
  cbn [chain]. intros [Hle Hch]. split; [|apply IH; exact Hch].
  rewrite Hn. apply (reopened_Forall _ ss ss'); [|exact H | exact Hle].
  intros t t' (Hbt & _) Ht. simpl. rewrite Hbt. exact Ht.
Qed.

Lemma reopened_log_inv (l : Log) (c : Config) :
  log_on_disk l -> default_config c = LConfig l ->
  exists l1 a p a1,
    NewLog (Dir (Log_Close l)) c = Ok l1 /\ log_inv l1 /\
    last (live l) = Some a /\ baseOffset a < nextOffset a /\
    activeSegment l1 = Some p /\ heap l1 !! p = Some a1 /\
    nextOffset a1 = nextOffset a /\ baseOffset a1 = baseOffset a /\
    LConfig l1 = default_config c.
Proof.
  intros H Hc.
  destruct (closed_dir l H) as (Hst & Hdom & Hx & Hcl).
  pose proof (on_disk_bases l H) as Hsorted.
  pose proof (StronglySorted_lt_NoDup _ Hsorted) as Hnd.
  pose proof (od_cfg l H) as Hcfg.
  set (l0 := mkLog (Dir (Log_Close l)) (default_config c) [] None []).
  destruct (open_segments_reopen (live l) l0 Hnd (od_range l H))
    as (l1 & ss' & Hop & Hc1 & Hl1 & Hlen & Hre & Hst1 & Hother & Hidx).
  { constructor. }
  { cbn [l0 Dir LConfig]. rewrite Hc. exact Hcl. }
  assert (NewLog (Dir (Log_Close l)) c = Ok l1) as Hnew.
  { unfold NewLog, setup. fold l0. cbn [l0 Dir].
    rewrite (sorted_stems _ _ Hsorted);
      [| rewrite Hst; exact (od_stores l H) | rewrite Hdom; exact (od_indexes l H)].
    fold l0. rewrite Hop.
    destruct (segments l1) eqn:Es; [|reflexivity].
    cbn [l0 segments length] in Hlen.
    assert (length (live l) <> 0%nat) as Hz
      by (pose proof (od_some l H); destruct (live l); [done | simpl; lia]).
    simpl in Hlen. lia. }
  change (live l0) with (@nil segment) in Hl1. rewrite app_nil_l in Hl1.
  cbn [l0 Dir LConfig] in Hc1, Hst1, Hother, Hidx.
  assert (forall b, b ∈ baseOffset <$> live l ->
                    is_Some (stores (Dir (Log_Close l)) !! b)) as Hpres.
  { intros b Hb. rewrite Hst. apply elem_of_dom. rewrite (od_stores l H).
    apply elem_of_list_to_set. exact Hb. }
  destruct (open_segments_handles (baseOffset <$> live l) l0)
    as (l1' & ss2 & Hop2 & Hh2 & Hsg2 & Hfacts).
  { apply Forall_forall. exact Hpres. }
  rewrite Hop in Hop2. injection Hop2 as <-.
  destruct (open_segments_bases (baseOffset <$> live l) l0)
    as (l1' & ss3 & Hop3 & Hh3 & Hl3 & _ & _ & _ & _); [constructor|].
  rewrite Hop in Hop3. injection Hop3 as <-.
  change (live l0) with (@nil segment) in Hl3.
  cbn [l0 heap segments Dir LConfig length] in Hh2, Hsg2, Hfacts, Hh3, Hl3.
  rewrite app_nil_l in Hh2, Hsg2, Hh3, Hl3.
  assert (ss3 = ss') as -> by congruence.
  assert (ss2 = ss') as -> by congruence.
  rewrite length_fmap in Hsg2.
  destruct (last (live l)) as [a|] eqn:Hlast;
    [|apply last_None in Hlast; destruct (od_some l H Hlast)].
  apply last_Some in Hlast as [olds Holds].
  rewrite Holds in Hre. apply Forall2_app_inv_l in Hre as (olds' & r & Hro & Hra & ->).
  apply Forall2_cons_inv_l in Hra as (a1 & r' & Hra & Hr' & ->).
  apply Forall2_nil_inv_l in Hr' as ->.
  pose proof (Forall2_length _ _ _ Hro) as Hlo.
  pose proof (od_segs l H) as Hsegs. rewrite Forall_forall in Hsegs.
  assert (a ∈ live l) as Hain by (rewrite Holds; apply elem_of_app; right; left).
  pose proof (Hsegs a Hain) as Hda.
  pose proof Hra as (Hba & Hna & Hnma & Hsza).
  assert (heap l1 !! length olds = Some a1) as Hpa.
  { rewrite Hh2. apply list_lookup_middle. lia. }
  assert (a1 ∈ olds' ++ [a1]) as Ha1in by (apply elem_of_app; right; left).
  rewrite Forall_forall in Hfacts.
  destruct (Hfacts a1 Ha1in) as (Hcf1 & Hmm1 & Hss1).
  assert (forall b, b ∉ baseOffset <$> live l ->
                    indexes (Dir l1) !! b = None) as Hnone.
  { intros b Hb. rewrite (Hother b Hb). apply not_elem_of_dom.
    rewrite Hdom, (od_indexes l H). rewrite elem_of_list_to_set. exact Hb. }
  assert (forall s, s ∈ live l ->
            exists xf : list byte,
              indexes (Dir l1) !! baseOffset s
              = Some (truncate (truncate xf (ix_size (seg_index s)))
                        (MaxIndexBytes (default_config c)))) as Hfile.
  { intros s Hs. destruct (Hx s Hs) as (xf & _ & Hxc). exists xf.
    rewrite (Hidx s Hs), Hxc. reflexivity. }
  assert (0 <= MaxIndexBytes (default_config c)) as Hcap0.
  { rewrite Hc. destruct Hcfg as (_ & Hm & _). apply Hm. }
  exists l1, a, (length olds), a1.
  split; [exact Hnew|]. split; [|split; [reflexivity|]].
  2:{ split; [exact (disk_nonempty _ _ _ Hda)|].
      split; [|split; [exact Hpa|split; [exact Hna|split; [exact Hba | exact Hc1]]]].
      destruct (open_segments_bases (baseOffset <$> live l) l0)
        as (l1' & ss3 & Hop3 & _ & _ & _ & _ & _ & Hact & _); [constructor|].
      rewrite Hop in Hop3. injection Hop3 as <-.
      rewrite Hact by (rewrite Holds, fmap_app; destruct (baseOffset <$> olds); discriminate).
      f_equal. cbn [l0 heap length]. rewrite length_fmap, Holds, length_app.
      simpl. lia. }
  assert (segments l1 = seq 0 (length olds) ++ [length olds]) as Hsg.
  { rewrite Hsg2, Holds, length_app. cbn [length].
    replace (length olds + 1)%nat with (S (length olds)) by lia.
    rewrite seq_S. reflexivity. }
  constructor.
  - rewrite Hc1, Hc. exact Hcfg.
  - rewrite Hsg2. apply NoDup_seq.
  - rewrite Hsg2. apply Forall_seq. intros j Hj. apply lookup_lt_is_Some.
    rewrite Hh2, length_app. rewrite Holds, length_app in Hj.
    cbn [length] in Hj |- *. lia.
  - exists (seq 0 (length olds)), (length olds), a1.
    split; [exact Hsg|]. split.
    { destruct (open_segments_bases (baseOffset <$> live l) l0)
        as (l1' & ss3 & Hop3 & _ & _ & _ & _ & _ & Hact & _); [constructor|].
      rewrite Hop in Hop3. injection Hop3 as <-.
      rewrite Hact by (rewrite Holds, fmap_app; destruct (baseOffset <$> olds); discriminate).
      f_equal. cbn [l0 heap length]. rewrite length_fmap, Holds, length_app.
      simpl. lia. }
    split; [exact Hpa|]. rewrite Hc1. split.
    + destruct (Hpres (baseOffset a)) as [sf Hsf].
      { apply list_elem_of_fmap. eauto. }
      destruct (Hfile a Hain) as (xf & Hxf).
      constructor.
      * exact Hcf1.
      * exact Hmm1.
      * exists sf. rewrite Hst1, Hba. split; [exact Hsf|].
        rewrite Hss1, Hba, Hsf. reflexivity.
      * eexists. rewrite Hba. split; [exact Hxf|].
        intros E. pose proof (disk_nonempty _ _ _ Hda). lia.
      * rewrite Hsza, (disk_size _ _ _ Hda).
        pose proof (disk_nonempty _ _ _ Hda).
        unfold entWidth, offWidth, posWidth. lia.
      * intros _. rewrite Hsza, Hna, Hba. exact (disk_size _ _ _ Hda).
    + intros b Hb.
      destruct (decide (b ∈ baseOffset <$> live l)) as [Hin|Hout].
      * rewrite Hba. rewrite Holds, fmap_app in Hin, Hsorted.
        exact (sorted_last_max _ _ b Hsorted Hin).
      * rewrite (Hnone b Hout) in Hb. destruct Hb; discriminate.
  - rewrite Hl1. apply (chain_reopened (live l)); [|exact (od_chain l H)].
    rewrite Holds. apply Forall2_app; [exact Hro|]. constructor; [exact Hra | constructor].
  - rewrite Hl1. apply Forall_app. split.
    + clear -Hro. induction Hro as [|s s' ss ss' (_ & _ & Hn & _) _ IH]; constructor; auto.
    + apply Forall_singleton. exact Hnma.
  - rewrite Hl1. apply (reopened_Forall seg_range (live l)); [| |exact (od_range l H)].
    + intros s s' (Hb & Hn & _) Hs. unfold seg_range in *. rewrite Hb, Hn. exact Hs.
    + rewrite Holds. apply Forall2_app; [exact Hro|].
      constructor; [exact Hra | constructor].
  - intros b f Hf. rewrite Hc1.
    destruct (decide (b ∈ baseOffset <$> live l)) as [Hin|Hout].
    + apply list_elem_of_fmap in Hin as (s & -> & Hs).
      destruct (Hfile s Hs) as (xf & Hxf). rewrite Hxf in Hf. injection Hf as <-.
      apply fsize_truncate. exact Hcap0.
    + rewrite (Hnone b Hout) in Hf. discriminate.
  - intros b Hb. rewrite Hst1, Hst in Hb. apply elem_of_dom in Hb.
    rewrite (od_stores l H), elem_of_list_to_set in Hb.
    apply list_elem_of_fmap in Hb as (s & -> & Hs).
    destruct (Hfile s Hs) as (xf & Hxf). rewrite Hxf. eauto.
Qed.

Section AppendAfterReopen.
Context `{codec : RecordCodec}.

(** X16: a log created over an empty directory and appended to [N >= 1]
    times, with limits that leave room for a record, can be closed, opened
    again with [NewLog] and appended to as if nothing had happened: the log
    that [NewLog] builds satisfies the invariant of an appended log, its
    next [Append] returns the initial offset plus [N], one more than the
    offset of the last record, the log holds the record at that offset,
    and the records the opened log held stay where they were. *)
Theorem append_after_reopen (c : Config) (rs : list Record) (rec : Record) :
  Config_ok c -> roomy (default_config c) ->
  MaxIndexBytes (default_config c) <= entWidth * 2 ^ 32 ->
  rs <> [] -> Forall payload_ok rs -> payload_ok rec ->
  InitialOffset c + Z.of_nat (length rs) + 1 < 2 ^ 64 ->
  exists l l' res l1 l2,
    NewLog empty_dir c = Ok l /\ appends l rs = Some (l', res) /\
    NewLog (Dir (Log_Close l')) c = Ok l1 /\ log_inv l1 /\
    Log_Append l1 rec
    = Some (l2, Ok (InitialOffset c + Z.of_nat (length rs))) /\
    record_at l2 (InitialOffset c + Z.of_nat (length rs))
      (mkRecord (Value rec) (InitialOffset c + Z.of_nat (length rs))) /\
    (forall off r, record_at l1 off r -> record_at l2 off r).
Proof.
  intros Hc Hroom Hcap Hne Hpay Hprec Hlen.
  destruct (appended_log_on_disk c rs Hc Hroom Hcap Hne Hpay ltac:(lia))
    as (l' & res & Hap & Hod & Hi' & Hcfg & _).
  destruct (appended_range c rs Hc Hroom Hpay Hne ltac:(lia))
    as (l2' & res2 & h & a' & Hap2 & _ & _ & Hlast' & Hna & _).
  rewrite Hap in Hap2. injection Hap2 as <- <-.
  destruct (reopened_log_inv l' c Hod (eq_sym Hcfg))
    as (l1 & a & p & a1 & Hnew & Hi1 & Hlast & Hnonempty & Hp & Ha1 & Hnx & Hbx & Hc1).
  rewrite Hlast' in Hlast. injection Hlast as <-.
  assert (nextOffset a1 + 1 < 2 ^ 64) as Hb by lia.
  destruct (Log_Append_step l1 p a1 rec Hi1 Hp Ha1 Hprec Hb)
    as (l2 & p2 & a2 & r & Happ & _ & _ & _ & _ & _ & _ & Hkeep & Hres).
  assert (roomy (LConfig l1)) as Hroom1 by (rewrite Hc1; exact Hroom).
  assert (active_clean l1) as Hclean1.
  { intros q b Hq Hb' E. rewrite Hp in Hq. injection Hq as <-.
    rewrite Ha1 in Hb'. injection Hb' as <-. lia. }
  pose proof (Log_Append_roomy l1 p a1 rec l2 r Hi1 Hp Ha1 Hprec Hb
                Hroom1 Hclean1 Happ) as Hok.
  destruct r as [off|e]; [|discriminate].
  destruct Hres as (-> & _ & Hrd). rewrite Hnx, Hna in Happ, Hrd.
  exists (fresh_log (default_config c)), l', res, l1, l2.
  split; [apply NewLog_empty|]. split; [exact Hap|]. split; [exact Hnew|].
  split; [exact Hi1|]. split; [exact Happ|].
  split; [apply Log_Read_body_Ok; exact Hrd|].
  intros off r H. apply Log_Read_body_Ok, Hkeep, Log_Read_body_Ok, H.
Qed.

End AppendAfterReopen.

Lemma append_after_reopen_witness :
  exists l l' res l1 l2,
    NewLog empty_dir (mkConfig 32 0 0) = Ok l /\
    appends l [hello; hello; hello] = Some (l', res) /\
    NewLog (Dir (Log_Close l')) (mkConfig 32 0 0) = Ok l1 /\
    Log_Append l1 hello = Some (l2, Ok 3) /\
    record_at l2 3 (mkRecord (Value hello) 3).
Proof.
  destruct (append_after_reopen (mkConfig 32 0 0) [hello; hello; hello] hello
              test_config_ok test_config_roomy test_config_cap
              ltac:(discriminate)
              ltac:(repeat constructor; exact hello_payload_ok)
              hello_payload_ok ltac:(simpl; lia))
    as (l & l' & res & l1 & l2 & Hn & Hap & Hn1 & _ & Happ & Hrd & _).
  exists l, l', res, l1, l2. split; [exact Hn|]. split; [exact Hap|].
  split; [exact Hn1|]. split; [exact Happ | exact Hrd].
Defined.

(** ** Segments are started only when needed *)

Section SealedSegments.
Context `{codec : RecordCodec}.

Lemma Log_Append_sealed (l : Log) (rec : Record) (l' : Log) (res : result Z) :
  log_inv l -> payload_ok rec -> active_next l + 1 < 2 ^ 64 ->
  (forall olds a, live l = olds ++ [a] ->
                  Forall (fun s => IsMaxed s = true) olds) ->
  Log_Append l rec = Some (l', res) ->
  forall olds a, live l' = olds ++ [a] ->
                 Forall (fun s => IsMaxed s = true) olds.
Proof.
  intros Hi Hpay Hb Hsealed Hap olds' a' Hl'.
  destruct (log_inv_has_active l Hi) as (p & a & Hp & Ha).
  rewrite (active_next_eq l p a Hp Ha) in Hb.
  destruct (log_inv_active l p a Hi Hp Ha) as (ps & _ & _ & _ & Hlv & _).
  destruct (Log_Append_step l p a rec Hi Hp Ha Hpay Hb)
    as (l1 & p1 & a1 & res1 & Hap1 & _ & _ & _ & _ & Hmax & _).
  rewrite Hap in Hap1. injection Hap1 as <- <-.
  destruct (IsMaxed a) eqn:Em.
  - destruct Hmax as (_ & _ & _ & _ & Hl1). rewrite Hl1 in Hl'.
    apply app_inj_tail in Hl' as [<- _]. rewrite Hlv.
    apply Forall_app. split; [exact (Hsealed _ a Hlv)|].
    apply Forall_singleton. exact Em.
  - destruct Hmax as (_ & _ & _ & _ & olds & Ho & Hl1). rewrite Hl1 in Hl'.
    apply app_inj_tail in Hl' as [<- _]. exact (Hsealed olds a Ho).
Qed.

Lemma appends_sealed (rs : list Record) : forall (l l' : Log) (res : list (result Z)),
  log_inv l -> Forall payload_ok rs ->
  active_next l + Z.of_nat (length rs) < 2 ^ 64 ->
  (forall olds a, live l = olds ++ [a] ->
                  Forall (fun s => IsMaxed s = true) olds) ->
  appends l rs = Some (l', res) ->
  forall olds a, live l' = olds ++ [a] ->
                 Forall (fun s => IsMaxed s = true) olds.
Proof.
  induction rs as [|rec rs IH]; intros l l' res Hi Hpay Hb Hsealed Hap.
  - simpl in Hap. injection Hap as <- <-. exact Hsealed.
  - apply Forall_cons in Hpay as [Hp1 Hpay].
    cbn [length] in Hb. rewrite Nat2Z.inj_succ in Hb.
    destruct (log_inv_has_active l Hi) as (p & a & Hp & Ha).
    pose proof (active_next_eq l p a Hp Ha) as Hn.
    destruct (Log_Append_step l p a rec Hi Hp Ha Hp1 ltac:(lia))
      as (l1 & p1 & a1 & res1 & Hap1 & Hi1 & _ & Hp1' & Ha1 & _ & Hn1 & _).
    pose proof (active_next_eq l1 p1 a1 Hp1' Ha1) as Hn1'.
    cbn [appends] in Hap. rewrite Hap1 in Hap. cbn [mbind option_bind] in Hap.
    destruct (appends l1 rs) as [[l2 ress]|] eqn:Haps; [|discriminate].
    cbn [mbind option_bind] in Hap. injection Hap as <- <-.
    apply (IH l1 l2 ress Hi1 Hpay ltac:(lia)); [|exact Haps].
    exact (Log_Append_sealed l rec l1 res1 Hi Hp1 ltac:(lia) Hsealed Hap1).
Qed.

(** X17: a log never starts a segment before it has to.  After any
    sequence of appends to a log created over an empty directory, whatever
    the configuration and whether the appends succeeded, every segment but
    the last one is maxed: its store has reached [MaxStoreBytes] or its
    index has no room for another entry. *)
Theorem sealed_segments_are_maxed (c : Config) (rs : list Record) :
  Config_ok c -> Forall payload_ok rs ->
  InitialOffset c + Z.of_nat (length rs) < 2 ^ 64 ->
  exists l l' res olds a,
    NewLog empty_dir c = Ok l /\ appends l rs = Some (l', res) /\
    live l' = olds ++ [a] /\
    Forall (fun s =>
      MaxStoreBytes (config s) <= st_size (seg_store s) \/
      MaxIndexBytes (config s) < ix_size (seg_index s) + entWidth) olds.
Proof.
  intros Hc Hpay Hlen.
  pose proof (fresh_log_inv _ (default_config_ok c Hc)) as Hinv.
  assert (active_next (fresh_log (default_config c)) = InitialOffset c) as Hn0.
  { unfold active_next. simpl. apply default_config_initial. }
  destruct (appends_inv rs (fresh_log (default_config c)) Hinv Hpay
              ltac:(rewrite Hn0; lia))
    as (l' & res & Hap & Hi' & _).
  destruct (log_inv_has_active l' Hi') as (p & a & Hp & Ha).
  destruct (log_inv_active l' p a Hi' Hp Ha) as (ps & _ & _ & _ & Hlv & _).
  exists (fresh_log (default_config c)), l', res,
         (omap (fun q => heap l' !! q) ps), a.
  split; [apply NewLog_empty|]. split; [exact Hap|]. split; [exact Hlv|].
  eapply Forall_impl.
  - apply (appends_sealed rs _ l' res Hinv Hpay ltac:(rewrite Hn0; lia))
      with (a := a); [|exact Hap | exact Hlv].
    intros olds a0 Hl0.
    change (live (fresh_log (default_config c)))
      with ([] ++ [fresh_segment (default_config c)]) in Hl0.
    apply app_inj_tail in Hl0 as [<- _]. constructor.
  - intros s Hs. simpl in Hs. apply IsMaxed_spec. exact Hs.
Qed.

End SealedSegments.

Lemma sealed_segments_are_maxed_witness :
  exists l l' res olds a,
    NewLog empty_dir (mkConfig 32 0 0) = Ok l /\
    appends l [hello; hello; hello] = Some (l', res) /\
    live l' = olds ++ [a] /\
    (fun s => (st_size (seg_store s), MaxStoreBytes (config s))) <$> olds
    = [(44, 32)].
Proof.
  destruct (sealed_segments_are_maxed (mkConfig 32 0 0) [hello; hello; hello]
              test_config_ok
              ltac:(repeat constructor; exact hello_payload_ok)
              ltac:(simpl; lia))
    as (l & l' & res & olds & a & Hn & Hap & Hlv & _).
  exists l, l', res, olds, a.
  split; [exact Hn|]. split; [exact Hap|]. split; [exact Hlv|].
  rewrite NewLog_empty in Hn. injection Hn as <-.
  assert (Some (l', res)
          = appends (fresh_log (default_config (mkConfig 32 0 0)))
              [hello; hello; hello]) as E by (symmetry; exact Hap).
  vm_compute in E. injection E as -> ->.
  destruct olds as [|s1 [|s2 olds]].
  - discriminate Hlv.
  - injection Hlv as <- _. reflexivity.
  - apply (f_equal length) in Hlv. rewrite !length_app in Hlv.
    simpl in Hlv. lia.
Defined.
